(** * Movira SDK: canonical serialization, content identifiers and
      status derivation

    A shallow embedding of the TypeScript sources

      - [src/utils/serialization.ts]   ([stableStringify], [sortObject], [sha256Hex])
      - [src/utils/validation.ts]      ([isValidAmount], [isValidPublicKeyString], [isFutureTimestamp])
      - [src/invoice/InvoiceValidator.ts], [src/invoice/InvoiceService.ts]
      - [src/loan/LoanService.ts], [src/loan/RepaymentService.ts]
      - [src/credit/CreditService.ts], [src/credit/RiskModel.ts]

    together with the parts of the JavaScript runtime they rest on: strings
    as sequences of UTF-16 code units, ordinary objects with their property
    enumeration order, [JSON.stringify], [JSON.parse], and SHA-256.

    Modelling conventions.
    - A JavaScript string is the list of its UTF-16 code units ([jsstring]).
    - A finite JavaScript number is written as a signed decimal
      [digits * 10 ^ exp10]; [Number_toString] normalises it to the digit
      string that Number::toString picks.  Rounding of an arbitrary decimal
      literal to the nearest binary64 is not modelled: [JSON_parse] keeps the
      literal's exact value, which agrees with the engine on every literal
      that [JSON_stringify] emits.
    - An ordinary object is the list of its own properties in creation
      order; [own_props] gives the order in which the engine enumerates
      them (array-index keys first, ascending; then the others in creation
      order).
    - The ledger gateway is modelled by what the services observe of it: per
      listed signature, the decoded memo text if the transaction could be
      fetched and carries a Memo instruction.
    - [Date.now()] and the outcome of a submission are parameters.
    - The record [InvoiceInput] holds the declared fields, which is what the
      validator reads.  The argument of [createInvoice] itself is an object:
      [ObjectInput] takes its own properties in creation order, since the
      spread copies all of them, declared or not. *)

From Stdlib Require Import List NArith ZArith QArith Qpower Ascii String Bool Lia
  Permutation.
Import ListNotations.
Local Close Scope Q_scope.
Local Open Scope list_scope.

(* ================================================================= *)
(** ** Results of operations that may throw *)

Inductive ErrorCode : Type :=
| INVALID_INPUT
| WALLET_NOT_CONNECTED
| NETWORK_ERROR
| TRANSACTION_FAILED
| NOT_AUTHORIZED
| NOT_FOUND
| UNKNOWN.

(** What a call can throw: a [MoviraError] with its code and message, or one
    of the runtime's own errors. *)
Inductive Exn : Type :=
| MoviraError (code : ErrorCode) (message : string)
| SyntaxError
| TypeError.

Inductive Result (A : Type) : Type :=
| Ok (a : A)
| Throw (e : Exn).

Arguments Ok {A} a.
Arguments Throw {A} e.

Definition bind {A B : Type} (r : Result A) (k : A -> Result B) : Result B :=
  match r with
  | Ok a => k a
  | Throw e => Throw e
  end.

Notation "x <- r ;; k" := (bind r (fun x => k))
  (at level 61, r at next level, right associativity).

(* ================================================================= *)
(** ** JavaScript strings *)

Definition jsstring : Type := list N.

(** A string literal of the source, one code unit per ASCII character. *)
Definition lit (s : string) : jsstring :=
  map N_of_ascii (list_ascii_of_string s).

(** The same, with every apostrophe read as a double quote: used to write
    JSON texts. *)
Definition json_lit (s : string) : jsstring :=
  map (fun c => if N.eqb c 39 then 34%N else c) (lit s).

Fixpoint str_compare (a b : jsstring) : comparison :=
  match a, b with
  | [], [] => Eq
  | [], _ :: _ => Lt
  | _ :: _, [] => Gt
  | x :: a', y :: b' =>
      match N.compare x y with
      | Eq => str_compare a' b'
      | c => c
      end
  end.

Definition str_eqb (a b : jsstring) : bool :=
  match str_compare a b with Eq => true | _ => false end.

(** [a < b] on strings: lexicographic on code units. *)
Definition str_ltb (a b : jsstring) : bool :=
  match str_compare a b with Lt => true | _ => false end.

(** The comparison [Array.prototype.sort] uses without a comparator. *)
Definition str_leb (a b : jsstring) : bool := negb (str_ltb b a).

Fixpoint startsWith (s p : jsstring) {struct p} : bool :=
  match p, s with
  | [], _ => true
  | _ :: _, [] => false
  | x :: p', y :: s' => N.eqb x y && startsWith s' p'
  end.

(** [s.includes(p)] *)
Fixpoint includes (s p : jsstring) : bool :=
  startsWith s p ||
  match s with
  | [] => false
  | _ :: s' => includes s' p
  end.

(** [s.toLowerCase()], on the letters A to Z.  The engine also maps letters
    outside ASCII; none of them maps to a letter of the keywords the
    services look for (repay, loan, lend), so keyword search gives the same
    answer. *)
Definition lower_unit (c : N) : N :=
  if (65 <=? c)%N && (c <=? 90)%N then (c + 32)%N else c.

Definition toLowerCase (s : jsstring) : jsstring := map lower_unit s.

(** Code points of a string: a high surrogate followed by a low one is one
    code point, any other unit stands for itself. *)
Definition is_high_surrogate (c : N) : bool := (55296 <=? c)%N && (c <=? 56319)%N.
Definition is_low_surrogate (c : N) : bool := (56320 <=? c)%N && (c <=? 57343)%N.

Fixpoint code_points (s : jsstring) : list N :=
  match s with
  | [] => []
  | c :: r =>
      match r with
      | d :: r' =>
          if is_high_surrogate c && is_low_surrogate d
          then (65536 + (c - 55296) * 1024 + (d - 56320))%N :: code_points r'
          else c :: code_points r
      | [] => [c]
      end
  end.

(** Code-point order, the order the specification names. *)
Definition code_point_leb (a b : jsstring) : bool :=
  str_leb (code_points a) (code_points b).

(* ----------------------------------------------------------------- *)
(** *** Decimal digits *)

Definition digit_unit (d : N) : N := (48 + d)%N.

Definition is_digit (c : N) : bool := (48 <=? c)%N && (c <=? 57)%N.

Fixpoint to_digits_aux (fuel : nat) (n : N) (acc : list N) : list N :=
  match fuel with
  | O => acc
  | S f =>
      if (n <? 10)%N then n :: acc
      else to_digits_aux f (n / 10)%N ((n mod 10)%N :: acc)
  end.

(** Decimal digits of [n], most significant first ([0] gives one digit). *)
Definition to_digits (n : N) : list N :=
  to_digits_aux (S (N.size_nat n)) n [].

Fixpoint digits_value (acc : N) (ds : list N) : N :=
  match ds with
  | [] => acc
  | d :: r => digits_value (10 * acc + d)%N r
  end.

Definition decimal (n : N) : jsstring := map digit_unit (to_digits n).

(** The longest prefix of digits, as digit values, and what follows it. *)
Fixpoint span_digits (s : jsstring) : list N * jsstring :=
  match s with
  | c :: r =>
      if is_digit c
      then let (ds, rest) := span_digits r in ((c - 48)%N :: ds, rest)
      else ([], s)
  | [] => ([], [])
  end.

(* ================================================================= *)
(** ** JavaScript numbers *)

(** [Finite neg d e] is [d * 10 ^ e], negated when [neg]. *)
Inductive number : Type :=
| NaN
| Infinity (negative : bool)
| Zero (negative : bool)
| Finite (negative : bool) (digits : positive) (exp10 : Z).

Definition Number_isFinite (x : number) : bool :=
  match x with
  | NaN | Infinity _ => false
  | Zero _ | Finite _ _ _ => true
  end.

Definition mantissa (x : number) : Z :=
  match x with
  | Finite false d _ => Z.pos d
  | Finite true d _ => Z.neg d
  | _ => 0%Z
  end.

Definition exponent (x : number) : Z :=
  match x with
  | Finite _ _ e => e
  | _ => 0%Z
  end.

(** The rational a finite number stands for. *)
Definition num_value (x : number) : Q :=
  (inject_Z (mantissa x) * inject_Z 10 ^ exponent x)%Q.

(** [a < b] on numbers; false when either is NaN. *)
Definition num_ltb (a b : number) : bool :=
  match a, b with
  | NaN, _ | _, NaN => false
  | Infinity na, Infinity nb => na && negb nb
  | Infinity na, _ => na
  | _, Infinity nb => negb nb
  | _, _ =>
      let m := Z.min (exponent a) (exponent b) in
      (mantissa a * 10 ^ (exponent a - m) <? mantissa b * 10 ^ (exponent b - m))%Z
  end.

(** [a > b] *)
Definition num_gtb (a b : number) : bool := num_ltb b a.

(** Removes the factors of ten from a digit string's value. *)
Fixpoint strip10 (fuel : nat) (d : positive) (e : Z) : positive * Z :=
  match fuel with
  | O => (d, e)
  | S f =>
      if (Z.pos d mod 10 =? 0)%Z
      then strip10 f (Z.to_pos (Z.pos d / 10)) (e + 1)%Z
      else (d, e)
  end.

Definition normalize (d : positive) (e : Z) : positive * Z :=
  strip10 (Pos.size_nat d) d e.

(** The number [m * 10 ^ e], negated when [neg]. *)
Definition make_number (neg : bool) (m : N) (e : Z) : number :=
  match m with
  | N0 => Zero neg
  | Npos d => let (s, e') := normalize d e in Finite neg s e'
  end.

Definition number_of_Z (z : Z) : number :=
  make_number (z <? 0)%Z (Z.abs_N z) 0.

(** Number::toString of a positive finite number [d * 10 ^ e], following
    the cases of the language specification on [k] and [n]. *)
Definition positive_toString (d : positive) (e : Z) : jsstring :=
  let (s, e') := normalize d e in
  let ds := decimal (Npos s) in
  let k := Z.of_nat (List.length ds) in
  let n := (e' + k)%Z in
  if (k <=? n)%Z && (n <=? 21)%Z then
    ds ++ repeat 48%N (Z.to_nat (n - k))
  else if (0 <? n)%Z && (n <=? 21)%Z then
    firstn (Z.to_nat n) ds ++ lit "." ++ skipn (Z.to_nat n) ds
  else if (-6 <? n)%Z && (n <=? 0)%Z then
    lit "0." ++ repeat 48%N (Z.to_nat (- n)) ++ ds
  else
    let ex := (if (n - 1 <? 0)%Z then lit "-" else lit "+")
              ++ decimal (Z.abs_N (n - 1)) in
    match ds with
    | [c] => c :: lit "e" ++ ex
    | c :: r => c :: lit "." ++ r ++ lit "e" ++ ex
    | [] => []
    end.

Definition Number_toString (x : number) : jsstring :=
  match x with
  | NaN => lit "NaN"
  | Infinity false => lit "Infinity"
  | Infinity true => lit "-Infinity"
  | Zero _ => lit "0"
  | Finite neg d e => (if neg then lit "-" else []) ++ positive_toString d e
  end.

(* ================================================================= *)
(** ** JavaScript values *)

(** The values a JSON-representable record is built from.  A [Date] is kept
    by what its [toISOString] gives ([None] for an invalid date, whose
    [toJSON] is [null]). *)
#[warnings="-register-all"]
Inductive JSValue : Type :=
| VUndefined
| VNull
| VBool (b : bool)
| VNum (x : number)
| VStr (s : jsstring)
| VDate (iso : option jsstring)
| VArr (elements : list JSValue)
| VObj (props : list (jsstring * JSValue)).

(** ToBoolean *)
Definition truthy (v : JSValue) : bool :=
  match v with
  | VUndefined | VNull => false
  | VBool b => b
  | VNum NaN | VNum (Zero _) => false
  | VNum _ => true
  | VStr [] => false
  | VStr (_ :: _) => true
  | VDate _ | VArr _ | VObj _ => true
  end.

(* ----------------------------------------------------------------- *)
(** *** Ordinary objects *)

Definition props (A : Type) : Type := list (jsstring * A).

(** An array index is the canonical decimal of an integer below [2^32 - 1]. *)
Definition array_index (k : jsstring) : option N :=
  match span_digits k with
  | (ds, []) =>
      match ds with
      | [] => None
      | [d] => Some d
      | d :: _ :: _ =>
          if (d =? 0)%N then None
          else let v := digits_value 0 ds in
               if (v <=? 4294967294)%N then Some v else None
      end
  | (_, _ :: _) => None
  end.

Definition is_index (k : jsstring) : bool :=
  match array_index k with Some _ => true | None => false end.

Fixpoint insert_index {A : Type} (i : N) (p : jsstring * A)
    (l : list (N * (jsstring * A))) : list (N * (jsstring * A)) :=
  match l with
  | [] => [(i, p)]
  | (j, q) :: r =>
      if (i <? j)%N then (i, p) :: l else (j, q) :: insert_index i p r
  end.

(** The properties with an array-index key, in ascending index order. *)
Fixpoint index_props {A : Type} (o : props A) : list (N * (jsstring * A)) :=
  match o with
  | [] => []
  | p :: r =>
      match array_index (fst p) with
      | Some i => insert_index i p (index_props r)
      | None => index_props r
      end
  end.

(** OrdinaryOwnPropertyKeys: the order in which the engine enumerates the
    own properties of an object whose properties were created in the order
    of [o]. *)
Definition own_props {A : Type} (o : props A) : props A :=
  map snd (index_props o) ++ filter (fun p => negb (is_index (fst p))) o.

(** [Object.keys(o)] *)
Definition Object_keys {A : Type} (o : props A) : list jsstring :=
  map fst (own_props o).

Fixpoint lookup {A : Type} (o : props A) (k : jsstring) : option A :=
  match o with
  | [] => None
  | (k', v) :: r => if str_eqb k' k then Some v else lookup r k
  end.

(** [o[k]] on an ordinary object: the own property, else [undefined] (the
    keys read by the services are not properties of [Object.prototype]). *)
Definition obj_get (o : props JSValue) (k : jsstring) : JSValue :=
  match lookup o k with
  | Some v => v
  | None => VUndefined
  end.

Fixpoint define_prop {A : Type} (o : props A) (k : jsstring) (v : A) : props A :=
  match o with
  | [] => [(k, v)]
  | (k', v') :: r =>
      if str_eqb k' k then (k', v) :: r else (k', v') :: define_prop r k v
  end.

Definition proto_key : jsstring := lit "__proto__".

(** The assignment [o[k] = v] on an ordinary object: it creates or updates
    an own property, except for the key [__proto__], whose setter on
    [Object.prototype] creates none. *)
Definition obj_set {A : Type} (o : props A) (k : jsstring) (v : A) : props A :=
  if str_eqb k proto_key then o else define_prop o k v.

(** [v.k], reading a property of any value: [null] and [undefined] throw,
    primitives and arrays have none of the keys the services read. *)
Definition get_property (v : JSValue) (k : jsstring) : Result JSValue :=
  match v with
  | VUndefined | VNull => Throw TypeError
  | VObj o => Ok (obj_get o k)
  | _ => Ok VUndefined
  end.

(** [v?.k] *)
Definition get_optional (v : JSValue) (k : jsstring) : JSValue :=
  match v with
  | VObj o => obj_get o k
  | _ => VUndefined
  end.

(* ----------------------------------------------------------------- *)
(** *** Sorting, as [Array.prototype.sort()] without a comparator *)

Fixpoint insert_sorted (k : jsstring) (l : list jsstring) : list jsstring :=
  match l with
  | [] => [k]
  | k' :: r => if str_leb k k' then k :: l else k' :: insert_sorted k r
  end.

Fixpoint sort (l : list jsstring) : list jsstring :=
  match l with
  | [] => []
  | k :: r => insert_sorted k (sort r)
  end.

(* ================================================================= *)
(** ** JSON.stringify *)

Definition hex_unit (d : N) : N :=
  if (d <? 10)%N then (48 + d)%N else (87 + d)%N.

(** The escape [\uXXXX] of a code unit, lowercase hexadecimal. *)
Definition unicode_escape (c : N) : jsstring :=
  [92; 117;
   hex_unit ((c / 4096) mod 16); hex_unit ((c / 256) mod 16);
   hex_unit ((c / 16) mod 16); hex_unit (c mod 16)]%N.

(** One code unit that is not part of a surrogate pair. *)
Definition quote_unit (c : N) : jsstring :=
  if (c =? 8)%N then lit "\b"
  else if (c =? 9)%N then lit "\t"
  else if (c =? 10)%N then lit "\n"
  else if (c =? 12)%N then lit "\f"
  else if (c =? 13)%N then lit "\r"
  else if (c =? 34)%N then [92; 34]%N
  else if (c =? 92)%N then [92; 92]%N
  else if (c <? 32)%N || is_high_surrogate c || is_low_surrogate c
       then unicode_escape c
  else [c].

Fixpoint quote_units (s : jsstring) : jsstring :=
  match s with
  | [] => []
  | c :: r =>
      match r with
      | d :: r' =>
          if is_high_surrogate c && is_low_surrogate d
          then c :: d :: quote_units r'
          else quote_unit c ++ quote_units r
      | [] => quote_unit c
      end
  end.

(** QuoteJSONString *)
Definition QuoteJSONString (s : jsstring) : jsstring :=
  34%N :: quote_units s ++ [34%N].

Fixpoint join (sep : jsstring) (parts : list jsstring) : jsstring :=
  match parts with
  | [] => []
  | [p] => p
  | p :: r => p ++ sep ++ join sep r
  end.

(** The members of an object whose property values are already serialized:
    a property whose value serializes to [undefined] is left out. *)
Fixpoint members (o : props (option jsstring)) : list jsstring :=
  match o with
  | [] => []
  | (k, Some s) :: r => (QuoteJSONString k ++ lit ":" ++ s) :: members r
  | (_, None) :: r => members r
  end.

Definition element (s : option jsstring) : jsstring :=
  match s with
  | Some t => t
  | None => lit "null"
  end.

(** SerializeJSONProperty, without indentation; [None] is [undefined]. *)
Fixpoint JSON_stringify (v : JSValue) : option jsstring :=
  match v with
  | VUndefined => None
  | VNull => Some (lit "null")
  | VBool true => Some (lit "true")
  | VBool false => Some (lit "false")
  | VNum x =>
      Some (if Number_isFinite x then Number_toString x else lit "null")
  | VStr s => Some (QuoteJSONString s)
  | VDate (Some iso) => Some (QuoteJSONString iso)
  | VDate None => Some (lit "null")
  | VArr l =>
      Some (lit "[" ++ join (lit ",") (map (fun e => element (JSON_stringify e)) l)
            ++ lit "]")
  | VObj o =>
      let serialized := map (fun p => (fst p, JSON_stringify (snd p))) o in
      Some (lit "{" ++ join (lit ",") (members (own_props serialized)) ++ lit "}")
  end.

(* ================================================================= *)
(** ** src/utils/serialization.ts *)

(** [sortObject]: arrays are mapped, objects other than dates are rebuilt
    key by key in the order of [Object.keys(value).sort()], anything else is
    returned as it is.  The values are sorted before the keys are walked,
    which gives [res[k] = sortObject(value[k])] for every key. *)
Fixpoint sortObject (value : JSValue) : JSValue :=
  match value with
  | VArr l => VArr (map sortObject l)
  | VObj o =>
      let sorted := map (fun p => (fst p, sortObject (snd p))) o in
      VObj (fold_left (fun res k => obj_set res k (obj_get sorted k))
                      (sort (Object_keys o)) [])
  | _ => value
  end.

Definition stableStringify (obj : JSValue) : option jsstring :=
  JSON_stringify (sortObject obj).

(* ================================================================= *)
(** ** JSON.parse *)

Definition is_ws (c : N) : bool :=
  (c =? 32)%N || (c =? 9)%N || (c =? 10)%N || (c =? 13)%N.

Fixpoint skip_ws (s : jsstring) : jsstring :=
  match s with
  | c :: r => if is_ws c then skip_ws r else s
  | [] => []
  end.

Definition hex_value (c : N) : option N :=
  if is_digit c then Some (c - 48)%N
  else if (97 <=? c)%N && (c <=? 102)%N then Some (c - 87)%N
  else if (65 <=? c)%N && (c <=? 70)%N then Some (c - 55)%N
  else None.

Definition hex4 (a b c d : N) : option N :=
  match hex_value a, hex_value b, hex_value c, hex_value d with
  | Some x, Some y, Some z, Some w => Some (x * 4096 + y * 256 + z * 16 + w)%N
  | _, _, _, _ => None
  end.

(** The character a one-letter escape stands for. *)
Definition simple_escape (e : N) : option N :=
  if (e =? 34)%N then Some 34%N
  else if (e =? 92)%N then Some 92%N
  else if (e =? 47)%N then Some 47%N
  else if (e =? 98)%N then Some 8%N
  else if (e =? 102)%N then Some 12%N
  else if (e =? 110)%N then Some 10%N
  else if (e =? 114)%N then Some 13%N
  else if (e =? 116)%N then Some 9%N
  else None.

Definition cons_unit (c : N) (r : option (jsstring * jsstring))
  : option (jsstring * jsstring) :=
  match r with
  | Some (s, rest) => Some (c :: s, rest)
  | None => None
  end.

(** The characters of a string literal after its opening quote, up to the
    closing quote; the text after it. *)
Fixpoint parse_units (s : jsstring) : option (jsstring * jsstring) :=
  match s with
  | [] => None
  | c :: r =>
      if (c =? 34)%N then Some ([], r)
      else if (c =? 92)%N then
        match r with
        | [] => None
        | e :: r1 =>
            if (e =? 117)%N then
              match r1 with
              | h1 :: h2 :: h3 :: h4 :: r2 =>
                  match hex4 h1 h2 h3 h4 with
                  | Some u => cons_unit u (parse_units r2)
                  | None => None
                  end
              | _ => None
              end
            else
              match simple_escape e with
              | Some u => cons_unit u (parse_units r1)
              | None => None
              end
        end
      else if (c <? 32)%N then None
      else cons_unit c (parse_units r)
  end.

(** The exponent part of a number literal, if there is one. *)
Definition parse_exponent (s : jsstring) : option (Z * jsstring) :=
  match s with
  | c :: r =>
      if (c =? 101)%N || (c =? 69)%N then
        let (neg, r1) :=
          match r with
          | sg :: r' =>
              if (sg =? 45)%N then (true, r')
              else if (sg =? 43)%N then (false, r')
              else (false, r)
          | [] => (false, r)
          end in
        match span_digits r1 with
        | ([], _) => None
        | (ds, rest) =>
            let v := Z.of_N (digits_value 0 ds) in
            Some (if neg then (- v)%Z else v, rest)
        end
      else Some (0%Z, s)
  | [] => Some (0%Z, s)
  end.

(** The fraction part of a number literal, if there is one. *)
Definition parse_fraction (s : jsstring) : option (list N * jsstring) :=
  match s with
  | c :: r =>
      if (c =? 46)%N then
        match span_digits r with
        | ([], _) => None
        | (ds, rest) => Some (ds, rest)
        end
      else Some ([], s)
  | [] => Some ([], s)
  end.

(** A number literal after its sign: integer part without a leading zero,
    fraction, exponent. *)
Definition parse_unsigned (neg : bool) (s1 : jsstring) : option (number * jsstring) :=
  match span_digits s1 with
  | ([], _) => None
  | (d :: ds, s2) =>
      if (d =? 0)%N && negb (Nat.eqb (List.length ds) 0) then None
      else
        match parse_fraction s2 with
        | None => None
        | Some (fs, s3) =>
            match parse_exponent s3 with
            | None => None
            | Some (ex, s4) =>
                Some (make_number neg (digits_value 0 (d :: ds ++ fs))
                                  (ex - Z.of_nat (List.length fs)), s4)
            end
        end
  end.

(** A number literal. *)
Definition parse_number (s : jsstring) : option (number * jsstring) :=
  match s with
  | c :: r => if (c =? 45)%N then parse_unsigned true r else parse_unsigned false s
  | [] => None
  end.

Definition parse_keyword (w : jsstring) (v : JSValue) (s : jsstring)
  : option (JSValue * jsstring) :=
  if startsWith s w then Some (v, skipn (List.length w) s) else None.

(** A JSON value at the head of [s] (after white space), and the text that
    follows it.  Array elements and object members are read left to right;
    a repeated key keeps its first position and takes the last value. *)
Fixpoint parse_value (fuel : nat) (s : jsstring) : option (JSValue * jsstring) :=
  match fuel with
  | O => None
  | S f =>
      match skip_ws s with
      | [] => None
      | c :: r =>
          if (c =? 123)%N then
            if startsWith (skip_ws r) [125%N]
            then Some (VObj [], skipn 1 (skip_ws r))
            else parse_members f [] r
          else if (c =? 91)%N then
            if startsWith (skip_ws r) [93%N]
            then Some (VArr [], skipn 1 (skip_ws r))
            else parse_elements f [] r
          else if (c =? 34)%N then
            match parse_units r with
            | Some (str, r') => Some (VStr str, r')
            | None => None
            end
          else if (c =? 116)%N then parse_keyword (lit "true") (VBool true) (c :: r)
          else if (c =? 102)%N then parse_keyword (lit "false") (VBool false) (c :: r)
          else if (c =? 110)%N then parse_keyword (lit "null") VNull (c :: r)
          else
            match parse_number (c :: r) with
            | Some (x, r') => Some (VNum x, r')
            | None => None
            end
      end
  end
with parse_elements (fuel : nat) (acc : list JSValue) (s : jsstring)
  : option (JSValue * jsstring) :=
  match fuel with
  | O => None
  | S f =>
      match parse_value f s with
      | None => None
      | Some (v, r) =>
          match skip_ws r with
          | c :: r' =>
              if (c =? 44)%N then parse_elements f (v :: acc) r'
              else if (c =? 93)%N then Some (VArr (rev (v :: acc)), r')
              else None
          | [] => None
          end
      end
  end
with parse_members (fuel : nat) (acc : props JSValue) (s : jsstring)
  : option (JSValue * jsstring) :=
  match fuel with
  | O => None
  | S f =>
      match skip_ws s with
      | q :: r =>
          if (q =? 34)%N then
            match parse_units r with
            | None => None
            | Some (k, r1) =>
                match skip_ws r1 with
                | cl :: r2 =>
                    if (cl =? 58)%N then
                      match parse_value f r2 with
                      | None => None
                      | Some (v, r3) =>
                          match skip_ws r3 with
                          | c :: r4 =>
                              if (c =? 44)%N
                              then parse_members f (define_prop acc k v) r4
                              else if (c =? 125)%N
                              then Some (VObj (define_prop acc k v), r4)
                              else None
                          | [] => None
                          end
                      end
                    else None
                | [] => None
                end
            end
          else None
      | [] => None
      end
  end.

(** [JSON.parse(text)]; [None] is a SyntaxError.  Each step of the parser
    either reads a character or enters a value that starts with one, so
    twice the length of the text is fuel enough. *)
Definition JSON_parse (text : jsstring) : option JSValue :=
  match parse_value (2 * List.length text + 2) text with
  | Some (v, r) =>
      match skip_ws r with
      | [] => Some v
      | _ :: _ => None
      end
  | None => None
  end.

(* ================================================================= *)
(** ** SHA-256 (FIPS 180-4) over the UTF-8 bytes of a string *)

Definition utf8_code_point (cp : N) : list Z :=
  map Z.of_N
    (if (cp <? 128)%N then [cp]
     else if (cp <? 2048)%N then [192 + cp / 64; 128 + cp mod 64]
     else if (cp <? 65536)%N then
       [224 + cp / 4096; 128 + (cp / 64) mod 64; 128 + cp mod 64]
     else
       [240 + cp / 262144; 128 + (cp / 4096) mod 64;
        128 + (cp / 64) mod 64; 128 + cp mod 64])%N.

(** The bytes [Buffer.from(s, 'utf8')] holds: a surrogate that is not part
    of a pair is replaced by U+FFFD. *)
Definition utf8_encode (s : jsstring) : list Z :=
  flat_map
    (fun cp =>
       if is_high_surrogate cp || is_low_surrogate cp
       then utf8_code_point 65533
       else utf8_code_point cp)
    (code_points s).

Module SHA256.

Definition wrap (x : Z) : Z := x mod 2 ^ 32.

Definition add (x y : Z) : Z := wrap (x + y).

Definition rotr (n x : Z) : Z :=
  Z.lor (Z.shiftr x n) (wrap (Z.shiftl x (32 - n))).

Definition shr (n x : Z) : Z := Z.shiftr x n.

Definition xor3 (x y z : Z) : Z := Z.lxor (Z.lxor x y) z.

Definition Ch (x y z : Z) : Z :=
  Z.lxor (Z.land x y) (Z.land (Z.lxor x (2 ^ 32 - 1)) z).

Definition Maj (x y z : Z) : Z :=
  xor3 (Z.land x y) (Z.land x z) (Z.land y z).

Definition bsig0 (x : Z) : Z := xor3 (rotr 2 x) (rotr 13 x) (rotr 22 x).
Definition bsig1 (x : Z) : Z := xor3 (rotr 6 x) (rotr 11 x) (rotr 25 x).
Definition ssig0 (x : Z) : Z := xor3 (rotr 7 x) (rotr 18 x) (shr 3 x).
Definition ssig1 (x : Z) : Z := xor3 (rotr 17 x) (rotr 19 x) (shr 10 x).

(** The sixty-four round constants, four to a line. *)
Definition round_constants : list Z :=
  ([0x428a2f98; 0x71374491; 0xb5c0fbcf; 0xe9b5dba5]
   ++ [0x3956c25b; 0x59f111f1; 0x923f82a4; 0xab1c5ed5]
   ++ [0xd807aa98; 0x12835b01; 0x243185be; 0x550c7dc3]
   ++ [0x72be5d74; 0x80deb1fe; 0x9bdc06a7; 0xc19bf174]
   ++ [0xe49b69c1; 0xefbe4786; 0x0fc19dc6; 0x240ca1cc]
   ++ [0x2de92c6f; 0x4a7484aa; 0x5cb0a9dc; 0x76f988da]
   ++ [0x983e5152; 0xa831c66d; 0xb00327c8; 0xbf597fc7]
   ++ [0xc6e00bf3; 0xd5a79147; 0x06ca6351; 0x14292967]
   ++ [0x27b70a85; 0x2e1b2138; 0x4d2c6dfc; 0x53380d13]
   ++ [0x650a7354; 0x766a0abb; 0x81c2c92e; 0x92722c85]
   ++ [0xa2bfe8a1; 0xa81a664b; 0xc24b8b70; 0xc76c51a3]
   ++ [0xd192e819; 0xd6990624; 0xf40e3585; 0x106aa070]
   ++ [0x19a4c116; 0x1e376c08; 0x2748774c; 0x34b0bcb5]
   ++ [0x391c0cb3; 0x4ed8aa4a; 0x5b9cca4f; 0x682e6ff3]
   ++ [0x748f82ee; 0x78a5636f; 0x84c87814; 0x8cc70208]
   ++ [0x90befffa; 0xa4506ceb; 0xbef9a3f7; 0xc67178f2])%Z.

Definition initial_hash : list Z :=
  ([0x6a09e667; 0xbb67ae85; 0x3c6ef372; 0xa54ff53a]
   ++ [0x510e527f; 0x9b05688c; 0x1f83d9ab; 0x5be0cd19])%Z.

(** Big-endian bytes of [x], [n] of them. *)
Fixpoint be_bytes (n : nat) (x : Z) : list Z :=
  match n with
  | O => []
  | S m => be_bytes m (x / 256) ++ [x mod 256]
  end%Z.

(** The message followed by the bit 1, zero bits up to 56 bytes modulo 64,
    and its length in bits on 8 bytes. *)
Definition pad (msg : list Z) : list Z :=
  let len := Z.of_nat (List.length msg) in
  let zeros := Z.to_nat ((55 - len) mod 64) in
  msg ++ [128%Z] ++ repeat 0%Z zeros ++ be_bytes 8 (8 * len).

(** Groups bytes four by four into big-endian words. *)
Fixpoint words (fuel : nat) (bytes : list Z) : list Z :=
  match fuel, bytes with
  | S f, a :: b :: c :: d :: r =>
      (((a * 256 + b) * 256 + c) * 256 + d)%Z :: words f r
  | _, _ => []
  end.

(** Cuts a list of words into blocks of sixteen. *)
Fixpoint blocks (fuel : nat) (ws : list Z) : list (list Z) :=
  match fuel, ws with
  | O, _ | _, [] => []
  | S f, _ :: _ => firstn 16 ws :: blocks f (skipn 16 ws)
  end.

(** The message schedule, latest word first: [recent] holds W(t-1), W(t-2), ... *)
Fixpoint schedule (n : nat) (recent : list Z) : list Z :=
  match n with
  | O => recent
  | S m =>
      let w := add (add (ssig1 (nth 1 recent 0%Z)) (nth 6 recent 0%Z))
                   (add (ssig0 (nth 14 recent 0%Z)) (nth 15 recent 0%Z)) in
      schedule m (w :: recent)
  end.

Definition step (st : list Z) (kw : Z * Z) : list Z :=
  match st with
  | [a; b; c; d; e; f; g; h] =>
      let t1 := add (add (add h (bsig1 e)) (add (Ch e f g) (fst kw))) (snd kw) in
      let t2 := add (bsig0 a) (Maj a b c) in
      [add t1 t2; a; b; c; add d t1; e; f; g]
  | _ => st
  end.

Definition compress (h : list Z) (block : list Z) : list Z :=
  let w := rev (schedule 48 (rev block)) in
  let st := fold_left step (combine round_constants w) h in
  map (fun p => add (fst p) (snd p)) (combine h st).

Definition digest (msg : list Z) : list Z :=
  let ws := words (List.length msg + 72) (pad msg) in
  fold_left compress (blocks (List.length ws) ws) initial_hash.

End SHA256.

Definition hex_word (x : Z) : jsstring :=
  map (fun i => hex_unit (Z.to_N ((x / 16 ^ Z.of_nat i) mod 16)))
      [7; 6; 5; 4; 3; 2; 1; 0]%nat.

(** [sha256Hex]: the lowercase hexadecimal SHA-256 digest of the UTF-8
    bytes of [value]. *)
Definition sha256Hex (value : jsstring) : jsstring :=
  flat_map hex_word (SHA256.digest (utf8_encode value)).

(* ================================================================= *)
(** ** src/utils/validation.ts *)

(** [Number.isFinite(value) && value > 0] *)
Definition isValidAmount (value : number) : bool :=
  Number_isFinite value && num_gtb value (Zero false).

(** [value.length >= 32 && value.length <= 44] *)
Definition isValidPublicKeyString (value : jsstring) : bool :=
  (32 <=? List.length value)%nat && (List.length value <=? 44)%nat.

(** [ts > Math.floor(Date.now() / 1000)], with [now] that floor. *)
Definition isFutureTimestamp (now : Z) (ts : number) : bool :=
  num_gtb ts (number_of_Z now).

(* ================================================================= *)
(** ** src/invoice/InvoiceTypes.ts, src/invoice/InvoiceValidator.ts *)

Record InvoiceInput : Type := {
  amount : number;
  recipientWallet : jsstring;
  dueDate : number;
  description : option jsstring;
  issuerName : option jsstring
}.

Definition invalid_input (message : string) : Exn :=
  MoviraError INVALID_INPUT message.

Definition description_too_long (d : option jsstring) : bool :=
  match d with
  | Some s => truthy (VStr s) && (1024 <? List.length s)%nat
  | None => false
  end.

Definition validateInvoiceInput (now : Z) (input : InvoiceInput) : Result unit :=
  if negb (isValidAmount (amount input)) then
    Throw (invalid_input "Invalid invoice amount")
  else if negb (isValidPublicKeyString (recipientWallet input)) then
    Throw (invalid_input "Invalid recipient wallet")
  else if negb (isFutureTimestamp now (dueDate input)) then
    Throw (invalid_input "dueDate must be in the future")
  else if description_too_long (description input) then
    Throw (invalid_input "description too long")
  else Ok tt.

(* ================================================================= *)
(** ** The ledger, as the services see it *)

(** One listed transaction: its signature and, if the transaction can be
    fetched and has a Memo instruction, the memo's text. *)
Record LedgerEntry : Type := {
  signature : jsstring;
  memo : option jsstring
}.

(** The owner's transactions, newest first. *)
Definition Ledger : Type := list LedgerEntry.

Definition getSignaturesForAddress (ledger : Ledger) (limit : nat) : list LedgerEntry :=
  firstn limit ledger.

Definition getTransaction (ledger : Ledger) (sig : jsstring) : option LedgerEntry :=
  find (fun e => str_eqb (signature e) sig) ledger.

(** What signing, sending and confirming a transaction came to. *)
Inductive Submission : Type :=
| Confirmed (sig : jsstring)
| Failed.

(** An object literal: its properties defined one after the other. *)
Definition object_literal (ps : props JSValue) : props JSValue :=
  fold_left (fun o p => define_prop o (fst p) (snd p)) ps [].

Definition optional_prop (k : jsstring) (v : option jsstring) : props JSValue :=
  match v with
  | Some s => [(k, VStr s)]
  | None => []
  end.

(** The object that holds the fields of [input] and nothing else, written
    in the order of the declaration of [InvoiceInput]: an optional field
    that is not given is absent.  It is one of the objects of that type
    with these fields; [ObjectInput] below takes any of them. *)
Definition InvoiceInput_props (input : InvoiceInput) : props JSValue :=
  [(lit "amount", VNum (amount input));
   (lit "recipientWallet", VStr (recipientWallet input));
   (lit "dueDate", VNum (dueDate input))]
  ++ optional_prop (lit "description") (description input)
  ++ optional_prop (lit "issuerName") (issuerName input).

(** The properties the spread [...v] copies. *)
Definition spread (v : JSValue) : props JSValue :=
  match v with
  | VObj o => own_props o
  | VArr l => combine (map (fun i => decimal (N.of_nat i)) (seq 0 (List.length l))) l
  | VStr s =>
      combine (map (fun i => decimal (N.of_nat i)) (seq 0 (List.length s)))
              (map (fun c => VStr [c]) s)
  | _ => []
  end.

(* ================================================================= *)
(** ** src/invoice/InvoiceService.ts *)

(** [createInvoice], up to the payload and its identifier: the payload is
    the input augmented with the issuer and the creation time, serialized
    by [stableStringify]; the identifier is the hash of that text.  Here
    the argument is the object [InvoiceInput_props input];
    [ObjectInput.buildInvoicePayload] is the same on any object. *)
Definition buildInvoicePayload (input : InvoiceInput) (issuerWallet : jsstring)
    (createdAt : Z) : Result (jsstring * jsstring) :=
  let payload :=
    VObj (object_literal
            (InvoiceInput_props input
             ++ [(lit "issuerWallet", VStr issuerWallet);
                 (lit "createdAt", VNum (number_of_Z createdAt))])) in
  match stableStringify payload with
  | Some serialized => Ok (serialized, sha256Hex serialized)
  | None => Throw TypeError
  end.

(** [createInvoice]: [now] is the clock read by the validator, [createdAt]
    the clock read for the payload; the memo of the new entry is the
    serialized payload (it has no unpaired surrogate, so its UTF-8 bytes
    decode to the same text).  Here the argument is the object
    [InvoiceInput_props input]; [ObjectInput.createInvoice] is the same on
    any object of type [InvoiceInput]. *)
Definition createInvoice (wallet : option jsstring) (now createdAt : Z)
    (submission : Submission) (input : InvoiceInput) (ledger : Ledger)
  : Result (jsstring * jsstring) * Ledger :=
  match validateInvoiceInput now input with
  | Throw e => (Throw e, ledger)
  | Ok _ =>
      match wallet with
      | None => (Throw (MoviraError WALLET_NOT_CONNECTED "Wallet not connected"), ledger)
      | Some issuerWallet =>
          match buildInvoicePayload input issuerWallet createdAt with
          | Throw e => (Throw e, ledger)
          | Ok (serialized, invoiceId) =>
              match submission with
              | Confirmed sig =>
                  (Ok (invoiceId, sig),
                   {| signature := sig; memo := Some serialized |} :: ledger)
              | Failed =>
                  (Throw (MoviraError TRANSACTION_FAILED
                            "Failed to submit invoice transaction"), ledger)
              end
          end
      end
  end.

(* ----------------------------------------------------------------- *)
(** *** The argument of [createInvoice] as an object *)

(** The names of the fields [InvoiceInput] declares. *)
Definition declared_fields : list jsstring :=
  [lit "amount"; lit "recipientWallet"; lit "dueDate"; lit "description";
   lit "issuerName"].

(** An optional string field of an object: absent or [undefined], or a
    string; [None] when the object holds something else there. *)
Definition optional_field (o : props JSValue) (k : jsstring) : option (option jsstring) :=
  match lookup o k with
  | None | Some VUndefined => Some None
  | Some (VStr s) => Some (Some s)
  | Some _ => None
  end.

(** The declared fields of an object of type [InvoiceInput], as
    [validateInvoiceInput] reads them; [None] when the object is not of
    that type.  The type says what the declared fields hold: it does not
    say that the object has no other property, nor in what order the
    caller wrote them. *)
Definition as_InvoiceInput (o : props JSValue) : option InvoiceInput :=
  match lookup o (lit "amount"), lookup o (lit "recipientWallet"),
        lookup o (lit "dueDate"),
        optional_field o (lit "description"), optional_field o (lit "issuerName")
  with
  | Some (VNum a), Some (VStr r), Some (VNum d), Some desc, Some name =>
      Some {| amount := a; recipientWallet := r; dueDate := d;
              description := desc; issuerName := name |}
  | _, _, _, _, _ => None
  end.

(** [createInvoice] on the argument as the caller built it: [input] is the
    list of its own properties in creation order, and the spread
    [{ ...input, issuerWallet, createdAt }] copies every one of them.  The
    result is [None] for an object that is not of type [InvoiceInput].
    [buildInvoicePayload] and [createInvoice] above are these functions on
    [InvoiceInput_props], the object that holds the declared fields only,
    written in the order of the declaration. *)
Module ObjectInput.

Definition buildInvoicePayload (input : props JSValue) (issuerWallet : jsstring)
    (createdAt : Z) : Result (jsstring * jsstring) :=
  let payload :=
    VObj (object_literal
            (spread (VObj input)
             ++ [(lit "issuerWallet", VStr issuerWallet);
                 (lit "createdAt", VNum (number_of_Z createdAt))])) in
  match stableStringify payload with
  | Some serialized => Ok (serialized, sha256Hex serialized)
  | None => Throw TypeError
  end.

Definition createInvoice (wallet : option jsstring) (now createdAt : Z)
    (submission : Submission) (input : props JSValue) (ledger : Ledger)
  : option (Result (jsstring * jsstring) * Ledger) :=
  match as_InvoiceInput input with
  | None => None
  | Some fields =>
      Some
        match validateInvoiceInput now fields with
        | Throw e => (Throw e, ledger)
        | Ok _ =>
            match wallet with
            | None =>
                (Throw (MoviraError WALLET_NOT_CONNECTED "Wallet not connected"), ledger)
            | Some issuerWallet =>
                match buildInvoicePayload input issuerWallet createdAt with
                | Throw e => (Throw e, ledger)
                | Ok (serialized, invoiceId) =>
                    match submission with
                    | Confirmed sig =>
                        (Ok (invoiceId, sig),
                         {| signature := sig; memo := Some serialized |} :: ledger)
                    | Failed =>
                        (Throw (MoviraError TRANSACTION_FAILED
                                  "Failed to submit invoice transaction"), ledger)
                    end
                end
            end
        end
  end.

End ObjectInput.

Record VerifyResult : Type := {
  verified : bool;
  record : option JSValue
}.

Definition not_verified : VerifyResult := {| verified := false; record := None |}.

(** The fields the identifier is recomputed from, in the order of the
    object literal in [verifyInvoice]. *)
Definition hashed_fields : list jsstring :=
  [lit "amount"; lit "recipientWallet"; lit "dueDate"; lit "description";
   lit "issuerName"; lit "issuerWallet"; lit "createdAt"].

Fixpoint read_fields (parsed : JSValue) (ks : list jsstring) : Result (props JSValue) :=
  match ks with
  | [] => Ok []
  | k :: r =>
      v <- get_property parsed k ;;
      ps <- read_fields parsed r ;;
      Ok ((k, v) :: ps)
  end.

(** Parsing a memo and recomputing the identifier over [hashed_fields]:
    the parsed record and [calcId]. *)
Definition recompute (memoData : jsstring) : Result (JSValue * jsstring) :=
  match JSON_parse memoData with
  | None => Throw SyntaxError
  | Some parsed =>
      fields <- read_fields parsed hashed_fields ;;
      match stableStringify (VObj (object_literal fields)) with
      | Some serialized => Ok (parsed, sha256Hex serialized)
      | None => Throw TypeError
      end
  end.

(** [{ ...parsed, invoiceId: calcId, txSignature }] *)
Definition invoice_record (parsed : JSValue) (calcId txSignature : jsstring) : JSValue :=
  VObj (object_literal
          (spread parsed
           ++ [(lit "invoiceId", VStr calcId); (lit "txSignature", VStr txSignature)])).

(** Truthiness of an optional string parameter. *)
Definition given (p : option jsstring) : bool :=
  match p with
  | Some (_ :: _) => true
  | _ => false
  end.

(** The loop of [verifyInvoice] over the listed transactions. *)
Fixpoint scan_for_invoice (invoiceId : option jsstring) (txs : list LedgerEntry)
  : Result VerifyResult :=
  match txs with
  | [] => Ok not_verified
  | tx :: rest =>
      match memo tx with
      | None => scan_for_invoice invoiceId rest
      | Some memoData =>
          match recompute memoData with
          | Throw e => Throw e
          | Ok (parsed, calcId) =>
              match invoiceId with
              | Some id =>
                  if str_eqb calcId id
                  then Ok {| verified := true;
                             record := Some (invoice_record parsed calcId (signature tx)) |}
                  else scan_for_invoice invoiceId rest
              | None => scan_for_invoice invoiceId rest
              end
          end
      end
  end.

Definition verifyInvoice (ledger : Ledger) (invoiceId txSignature : option jsstring)
  : Result VerifyResult :=
  if negb (given txSignature) && negb (given invoiceId) then
    Throw (invalid_input "invoiceId or txSignature required")
  else
    match txSignature with
    | Some (c :: sig') =>
        let sig := c :: sig' in
        match getTransaction ledger sig with
        | None => Ok not_verified
        | Some confirmed =>
            match memo confirmed with
            | None => Ok not_verified
            | Some memoData =>
                match recompute memoData with
                | Throw e => Throw e
                | Ok (parsed, calcId) =>
                    match invoiceId with
                    | Some id =>
                        if given invoiceId && negb (str_eqb calcId id)
                        then Ok not_verified
                        else Ok {| verified := true;
                                   record := Some (invoice_record parsed calcId sig) |}
                    | None =>
                        Ok {| verified := true;
                              record := Some (invoice_record parsed calcId sig) |}
                    end
                end
            end
        end
    | _ => scan_for_invoice invoiceId (getSignaturesForAddress ledger 1000)
    end.

(** The declared results of [getInvoiceStatus]. *)
Inductive InvoiceStatus : Type :=
| st_pending
| st_verified
| st_financed
| st_settled
| st_not_found.

(** The loop of [getInvoiceStatus]. *)
Fixpoint scan_invoice_status (invoiceId : jsstring) (sigs : list LedgerEntry)
    (status : InvoiceStatus) : InvoiceStatus :=
  match sigs with
  | [] => status
  | s :: rest =>
      match memo s with
      | None => scan_invoice_status invoiceId rest status
      | Some memoData =>
          if negb (includes memoData invoiceId) then
            scan_invoice_status invoiceId rest status
          else if includes (toLowerCase memoData) (lit "repay") then st_settled
          else if includes (toLowerCase memoData) (lit "loan") then
            scan_invoice_status invoiceId rest st_financed
          else scan_invoice_status invoiceId rest status
      end
  end.

Definition getInvoiceStatus (ledger : Ledger) (invoiceId : jsstring) : Result InvoiceStatus :=
  verify <- verifyInvoice ledger (Some invoiceId) None ;;
  if negb (verified verify) then Ok st_not_found
  else Ok (scan_invoice_status invoiceId (getSignaturesForAddress ledger 200) st_verified).

(* ================================================================= *)
(** ** src/loan/LoanTypes.ts, src/loan/LoanService.ts *)

Record LoanRequest : Type := {
  invoiceId : jsstring;
  requestedAmount : number;
  loanDurationDays : number;
  lenderWallet : option jsstring
}.

Definition LoanRequest_props (input : LoanRequest) : props JSValue :=
  [(lit "invoiceId", VStr (invoiceId input));
   (lit "requestedAmount", VNum (requestedAmount input));
   (lit "loanDurationDays", VNum (loanDurationDays input))]
  ++ optional_prop (lit "lenderWallet") (lenderWallet input).

(** [requestLoan], up to the payload and its identifier. *)
Definition buildLoanPayload (input : LoanRequest) (borrowerWallet : jsstring)
    (createdAt : Z) : Result (jsstring * jsstring) :=
  let payload :=
    VObj (object_literal
            (LoanRequest_props input
             ++ [(lit "borrowerWallet", VStr borrowerWallet);
                 (lit "createdAt", VNum (number_of_Z createdAt))])) in
  match stableStringify payload with
  | Some serialized => Ok (serialized, sha256Hex serialized)
  | None => Throw TypeError
  end.

Definition requestLoan (wallet : option jsstring) (createdAt : Z)
    (submission : Submission) (input : LoanRequest) (ledger : Ledger)
  : Result (jsstring * jsstring) * Ledger :=
  match wallet with
  | None => (Throw (MoviraError WALLET_NOT_CONNECTED "Wallet not connected"), ledger)
  | Some borrowerWallet =>
      if negb (truthy (VStr (invoiceId input))) then
        (Throw (invalid_input "invoiceId required"), ledger)
      else if negb (num_gtb (requestedAmount input) (Zero false)) then
        (Throw (invalid_input "requestedAmount must be > 0"), ledger)
      else
        match buildLoanPayload input borrowerWallet createdAt with
        | Throw e => (Throw e, ledger)
        | Ok (serialized, loanId) =>
            match submission with
            | Confirmed sig =>
                (Ok (loanId, sig),
                 {| signature := sig; memo := Some serialized |} :: ledger)
            | Failed =>
                (Throw (MoviraError TRANSACTION_FAILED "Failed to submit loan request"),
                 ledger)
            end
        end
  end.

(** The declared results of [getLoanStatus]. *)
Inductive LoanStatus : Type :=
| ln_requested
| ln_active
| ln_repaid
| ln_defaulted
| ln_not_found.

(** The loop of [getLoanStatus], with its two variables [found] and
    [status]; the value is what the function returns. *)
Fixpoint scan_loan_status (loanId : jsstring) (sigs : list LedgerEntry)
    (found : bool) (status : LoanStatus) : LoanStatus :=
  match sigs with
  | [] => if found then status else ln_not_found
  | s :: rest =>
      match memo s with
      | None => scan_loan_status loanId rest found status
      | Some memoData =>
          if negb (includes memoData loanId) then
            scan_loan_status loanId rest found status
          else if includes (toLowerCase memoData) (lit "repay") then ln_repaid
          else if includes (toLowerCase memoData) (lit "loan")
                  || includes (toLowerCase memoData) (lit "lend")
          then scan_loan_status loanId rest true ln_active
          else scan_loan_status loanId rest true ln_requested
      end
  end.

Definition getLoanStatus (ledger : Ledger) (loanId : jsstring) : LoanStatus :=
  scan_loan_status loanId (getSignaturesForAddress ledger 1000) false ln_not_found.

(* ================================================================= *)
(** ** src/loan/RepaymentService.ts *)

(** [repayLoan]: the memo is [JSON.stringify({ type: 'repay', loanId })];
    the transfer that goes with it leaves no memo.  The lender key and the
    amount are taken to be ones the transfer instruction accepts: for
    others [new PublicKey] or [SystemProgram.transfer] throws before
    anything is sent. *)
Definition repayLoan (wallet : option jsstring) (submission : Submission)
    (lenderPubkey loanId : jsstring) (ledger : Ledger)
  : Result jsstring * Ledger :=
  match wallet with
  | None => (Throw (MoviraError WALLET_NOT_CONNECTED "Wallet not connected"), ledger)
  | Some _ =>
      if negb (truthy (VStr lenderPubkey)) then
        (Throw (invalid_input "lenderPubkey required"), ledger)
      else
        match JSON_stringify
                (VObj (object_literal
                         [(lit "type", VStr (lit "repay")); (lit "loanId", VStr loanId)]))
        with
        | None => (Throw TypeError, ledger)
        | Some text =>
            match submission with
            | Confirmed sig =>
                (Ok sig, {| signature := sig; memo := Some text |} :: ledger)
            | Failed =>
                (Throw (MoviraError TRANSACTION_FAILED "Failed to submit repayment"),
                 ledger)
            end
        end
  end.

(* ================================================================= *)
(** ** src/credit/CreditService.ts, src/credit/RiskModel.ts *)

(** What [fetch] came to: it threw, or gave a response with its [ok] flag
    and body text. *)
Inductive FetchOutcome : Type :=
| NetworkFailure
| Response (ok : bool) (body : jsstring).

(** The test [payload?.borrowingPower && payload?.riskTier &&
    payload?.expectedLoanTerms]. *)
Definition accepted_shape (payload : JSValue) : bool :=
  truthy (get_optional payload (lit "borrowingPower"))
  && truthy (get_optional payload (lit "riskTier"))
  && truthy (get_optional payload (lit "expectedLoanTerms")).

(** The loop of [simulateCredit] over the endpoints: the payload it
    returns, if any. *)
Fixpoint query_oracles (fetch : jsstring -> jsstring -> FetchOutcome)
    (request : jsstring) (urls : list jsstring) : option JSValue :=
  match urls with
  | [] => None
  | url :: rest =>
      match fetch url request with
      | NetworkFailure => query_oracles fetch request rest
      | Response ok body =>
          if negb ok then query_oracles fetch request rest
          else
            match JSON_parse body with
            | None => query_oracles fetch request rest
            | Some payload =>
                if accepted_shape payload then Some payload
                else query_oracles fetch request rest
            end
      end
  end.

Section CreditService.

(** The network, and the evaluator the [RiskModel] holds
    ([RiskModel.evaluate] calls it). *)
Variable fetch : jsstring -> jsstring -> FetchOutcome.
Variable evaluate : JSValue -> Result JSValue.

Definition oracle_request (invoice : JSValue) : jsstring :=
  match JSON_stringify
          (VObj (object_literal [(lit "invoiceId", get_optional invoice (lit "invoiceId"))]))
  with
  | Some text => text
  | None => []
  end.

Definition local_model (invoice : JSValue) : Result JSValue :=
  match evaluate invoice with
  | Ok r => Ok r
  | Throw _ => Throw (MoviraError UNKNOWN "Failed to evaluate credit")
  end.

Definition simulateCredit (oracleEndpoints : option (list jsstring))
    (invoice : JSValue) : Result JSValue :=
  match oracleEndpoints with
  | Some (u :: us) =>
      match query_oracles fetch (oracle_request invoice) (u :: us) with
      | Some payload => Ok payload
      | None => local_model invoice
      end
  | _ => local_model invoice
  end.

End CreditService.

(* ================================================================= *)
(** ** Properties named by the specification *)

(** A value is well formed when no object in it has two properties with
    the same key. *)
Fixpoint distinct (ks : list jsstring) : bool :=
  match ks with
  | [] => true
  | k :: r => negb (existsb (str_eqb k) r) && distinct r
  end.

Fixpoint well_formed (v : JSValue) : bool :=
  match v with
  | VArr l => forallb well_formed l
  | VObj o =>
      distinct (map fst o)
      && forallb (fun p => well_formed (snd p)) o
  | _ => true
  end.

Definition number_eqb (x y : number) : bool :=
  match x, y with
  | NaN, NaN => true
  | Infinity a, Infinity b => Bool.eqb a b
  | Zero a, Zero b => Bool.eqb a b
  | Finite a d e, Finite b d' e' => Bool.eqb a b && Pos.eqb d d' && Z.eqb e e'
  | _, _ => false
  end.

Definition option_eqb {A : Type} (eqb : A -> A -> bool) (x y : option A) : bool :=
  match x, y with
  | Some a, Some b => eqb a b
  | None, None => true
  | _, _ => false
  end.

(** Deep equality as key/value structures: scalars are equal, arrays are
    equal element by element, objects have the same keys with deep-equal
    values, in whatever order the keys were inserted. *)
Fixpoint deep_equal (v1 v2 : JSValue) : bool :=
  match v1, v2 with
  | VUndefined, VUndefined => true
  | VNull, VNull => true
  | VBool a, VBool b => Bool.eqb a b
  | VNum x, VNum y => number_eqb x y
  | VStr s, VStr t => str_eqb s t
  | VDate d, VDate d' => option_eqb str_eqb d d'
  | VArr l1, VArr l2 =>
      (fix go (l1 l2 : list JSValue) : bool :=
         match l1, l2 with
         | [], [] => true
         | a :: r1, b :: r2 => deep_equal a b && go r1 r2
         | _, _ => false
         end) l1 l2
  | VObj o1, VObj o2 =>
      Nat.eqb (List.length o1) (List.length o2)
      && (fix go (o : props JSValue) : bool :=
            match o with
            | [] => true
            | p :: r =>
                match lookup o2 (fst p) with
                | Some w => deep_equal (snd p) w
                | None => false
                end && go r
            end) o1
  | _, _ => false
  end.

Fixpoint sorted_by (le : jsstring -> jsstring -> bool) (ks : list jsstring) : bool :=
  match ks with
  | [] => true
  | k :: r =>
      match r with
      | [] => true
      | k' :: _ => le k k' && sorted_by le r
      end
  end.

(** The keys of every object in [v], at every depth, are enumerated in the
    order [le]. *)
Fixpoint keys_in_order (le : jsstring -> jsstring -> bool) (v : JSValue) : bool :=
  match v with
  | VArr l => forallb (keys_in_order le) l
  | VObj o =>
      sorted_by le (Object_keys o)
      && forallb (fun p => keys_in_order le (snd p)) o
  | _ => true
  end.

(** No object in [v] has an array-index key or the key [__proto__]. *)
Fixpoint plain_keys (v : JSValue) : bool :=
  match v with
  | VArr l => forallb plain_keys l
  | VObj o =>
      forallb (fun k => negb (is_index k) && negb (str_eqb k proto_key)) (map fst o)
      && forallb (fun p => plain_keys (snd p)) o
  | _ => true
  end.

(** An entry that mentions [id] together with the keyword [kw]. *)
Definition mentions (id kw : jsstring) (e : LedgerEntry) : bool :=
  match memo e with
  | Some memoData => includes memoData id && includes (toLowerCase memoData) kw
  | None => false
  end.

(** An entry the scan of [verifyInvoice] passes over: it has no memo, or
    its memo parses and the identifier recomputed from it is not [id]. *)
Definition passed_over (id : jsstring) (e : LedgerEntry) : bool :=
  match memo e with
  | None => true
  | Some memoData =>
      match recompute memoData with
      | Ok (_, calcId) => negb (str_eqb calcId id)
      | Throw _ => false
      end
  end.

(* ================================================================= *)
(** ** A worked scenario *)

Module Scenario.

Definition wallet : jsstring := lit "Fh3kQ8ZrVbT1nXw7yLm2PdS9uCe4GjA6oKi5HtRqWzYx".
Definition recipient : jsstring := lit "B7vNc2XmQ9sLk4JhG6fD8aZpW3eRtY5uIoP1MnbVcXzA".
Definition now : Z := 1700000000.

(** The invoice of the README: 1.5 SOL, due in thirty days. *)
Definition input : InvoiceInput := {|
  amount := Finite false 15 (-1);
  recipientWallet := recipient;
  dueDate := number_of_Z (now + 86400 * 30);
  description := Some (lit "Invoice for services");
  issuerName := None
|}.

Definition created : Result (jsstring * jsstring) * Ledger :=
  createInvoice (Some wallet) now now (Confirmed (lit "sig-invoice")) input [].

Definition invoice_id : jsstring :=
  match fst created with
  | Ok (id, _) => id
  | Throw _ => []
  end.

Definition request : LoanRequest := {|
  invoiceId := invoice_id;
  requestedAmount := number_of_Z 1;
  loanDurationDays := number_of_Z 60;
  lenderWallet := None
|}.

Definition requested : Result (jsstring * jsstring) * Ledger :=
  requestLoan (Some wallet) (now + 100) (Confirmed (lit "sig-loan")) request (snd created).

Definition loan_id : jsstring :=
  match fst requested with
  | Ok (id, _) => id
  | Throw _ => []
  end.

(** A repayment memo that names the invoice. *)
Definition repaid : Result jsstring * Ledger :=
  repayLoan (Some wallet) (Confirmed (lit "sig-repay")) recipient invoice_id
            (snd requested).

(** The same three entries with the loan entry scanned before the repay
    entry. *)
Definition reordered : Ledger :=
  match snd repaid with
  | [r; l; i] => [l; r; i]
  | other => other
  end.

(** A memo that is not JSON, as another application may leave one. *)
Definition foreign : LedgerEntry :=
  {| signature := lit "sig-foreign"; memo := Some (lit "gm from another app") |}.

(** A thousand transactions without a memo, newer than the invoice. *)
Definition crowded : Ledger :=
  repeat {| signature := lit "sig-transfer"; memo := None |} 1000 ++ snd created.

(** An oracle that answers one endpoint with a result whose borrowing
    power is zero. *)
Definition oracle_url : jsstring := lit "https://oracle.example/score".

Definition oracle_body : jsstring :=
  json_lit "{'borrowingPower':0,'riskTier':'D','expectedLoanTerms':{'maxAmount':0,'minAmount':0.01,'maxDurationDays':180,'aprPercent':30}}".

Definition oracle (url request : jsstring) : FetchOutcome :=
  if str_eqb url oracle_url then Response true oracle_body else NetworkFailure.

End Scenario.

(* ================================================================= *)
(** ** Induction on values *)

Section ValueInduction.

Variable P : JSValue -> Prop.
Hypothesis P_undefined : P VUndefined.
Hypothesis P_null : P VNull.
Hypothesis P_bool : forall b, P (VBool b).
Hypothesis P_num : forall x, P (VNum x).
Hypothesis P_str : forall s, P (VStr s).
Hypothesis P_date : forall d, P (VDate d).
Hypothesis P_arr : forall l, Forall P l -> P (VArr l).
Hypothesis P_obj : forall o, Forall (fun p => P (snd p)) o -> P (VObj o).

Fixpoint value_ind (v : JSValue) : P v :=
  match v with
  | VUndefined => P_undefined
  | VNull => P_null
  | VBool b => P_bool b
  | VNum x => P_num x
  | VStr s => P_str s
  | VDate d => P_date d
  | VArr l =>
      P_arr l ((fix all (l : list JSValue) : Forall P l :=
                  match l with
                  | [] => Forall_nil P
                  | e :: r => Forall_cons e (value_ind e) (all r)
                  end) l)
  | VObj o =>
      P_obj o ((fix all (o : props JSValue) : Forall (fun p => P (snd p)) o :=
                  match o with
                  | [] => Forall_nil _
                  | p :: r => Forall_cons p (value_ind (snd p)) (all r)
                  end) o)
  end.

End ValueInduction.

(* ================================================================= *)
(** ** What [JSON.parse] returns for a text [JSON.stringify] wrote *)

Definition digits_ok (ds : list N) : Prop := Forall (fun d => (d < 10)%N) ds.

(** What may follow a number in a text: nothing, or a character that is
    not part of a number. *)
Definition ends_number (rest : jsstring) : Prop :=
  match rest with
  | [] => True
  | c :: _ => is_digit c = false /\ c <> 46%N /\ c <> 101%N /\ c <> 69%N
  end.

Definition not_digit (rest : jsstring) : Prop :=
  match rest with
  | [] => True
  | c :: _ => is_digit c = false
  end.

(** The number read back from the text of a finite number. *)
Definition normal_number (x : number) : number :=
  match x with
  | Zero _ => Zero false
  | Finite neg d e => let (s, e') := normalize d e in Finite neg s e'
  | other => other
  end.

Definition is_undefined (v : JSValue) : bool :=
  match v with
  | VUndefined => true
  | _ => false
  end.

(** What [JSON.parse(JSON.stringify(v))] is: a number is in normal form, a
    number that is not finite and an invalid date are [null], a date is its
    text, an [undefined] array element is [null], and an object has its
    defined properties in enumeration order. *)
Fixpoint parsed_back (v : JSValue) : JSValue :=
  match v with
  | VNum x => if Number_isFinite x then VNum (normal_number x) else VNull
  | VDate (Some iso) => VStr iso
  | VDate None => VNull
  | VArr l => VArr (map (fun e => if is_undefined e then VNull else parsed_back e) l)
  | VObj o =>
      VObj (filter (fun p => negb (is_undefined (snd p)))
                   (own_props (map (fun p => (fst p, parsed_back (snd p))) o)))
  | other => other
  end.

(** What may follow a value in a text. *)
Definition ends_value (rest : jsstring) : Prop :=
  match rest with
  | [] => True
  | c :: _ => c = 44%N \/ c = 93%N \/ c = 125%N
  end.

(** The first character of a serialized value: not white space and not a
    closing bracket. *)
Definition value_head (c : N) : Prop :=
  is_ws c = false /\ c <> 93%N /\ c <> 125%N.

Definition defined (p : jsstring * JSValue) : bool := negb (is_undefined (snd p)).

(** The text of one member of an object. *)
Definition member_text (p : jsstring * JSValue) : jsstring :=
  QuoteJSONString (fst p) ++ lit ":" ++ element (JSON_stringify (snd p)).

(** A value reads back from its text, whatever follows the text, with
    fuel of twice the length of the text. *)
Definition reads_back (v : JSValue) : Prop :=
  forall s, JSON_stringify v = Some s ->
  forall rest fuel, ends_value rest -> (2 * List.length s <= fuel)%nat ->
  parse_value fuel (s ++ rest) = Some (parsed_back v, rest).

Definition element_back (e : JSValue) : JSValue :=
  if is_undefined e then VNull else parsed_back e.

(** The values of the fields of a payload: none is an object, an array, a
    date or [undefined]. *)
Definition scalar (v : JSValue) : bool :=
  match v with
  | VNull | VBool _ | VNum _ | VStr _ => true
  | _ => false
  end.

(** The object whose keys are [ks], in that order, with value [f k] at [k]. *)
Definition keyed (f : jsstring -> JSValue) (ks : list jsstring) : props JSValue :=
  map (fun k => (k, f k)) ks.

Definition plain_key (k : jsstring) : bool :=
  negb (is_index k) && negb (str_eqb k proto_key).

(** A character of [0-9a-f]. *)
Definition is_lower_hex (c : N) : bool :=
  is_digit c || ((97 <=? c)%N && (c <=? 102)%N).

(* ================================================================= *)
(** ** What the further properties speak of *)

(** An entry whose memo contains [id]. *)
Definition references (id : jsstring) (e : LedgerEntry) : bool :=
  match memo e with
  | Some memoData => includes memoData id
  | None => false
  end.

(** An entry whose memo, in lower case, has the word 'loan' or 'lend'. *)
Definition funding (e : LedgerEntry) : bool :=
  match memo e with
  | Some memoData =>
      includes (toLowerCase memoData) (lit "loan")
      || includes (toLowerCase memoData) (lit "lend")
  | None => false
  end.

(** What [getLoanStatus] makes of the entry it saw last. *)
Definition loan_status_of (e : LedgerEntry) : LoanStatus :=
  if funding e then ln_active else ln_requested.

(** The memo of the newest entry. *)
Definition newest_memo (ledger : Ledger) : jsstring :=
  match ledger with
  | e :: _ =>
      match memo e with
      | Some text => text
      | None => []
      end
  | [] => []
  end.

(** [verifyInvoice] by identifier returns a result whose flag is [b]. *)
Definition verified_as (ledger : Ledger) (id : jsstring) (b : bool) : Prop :=
  exists v, verifyInvoice ledger (Some id) None = Ok v /\ verified v = b.

(** An endpoint whose answer the loop of [simulateCredit] does not return:
    the request failed, the response is not ok, its body is not JSON, or
    the payload fails the test on its three fields. *)
Definition declined (fetch : jsstring -> jsstring -> FetchOutcome)
    (request url : jsstring) : bool :=
  match fetch url request with
  | NetworkFailure => true
  | Response ok body =>
      negb ok
      || match JSON_parse body with
         | Some payload => negb (accepted_shape payload)
         | None => true
         end
  end.

(** An oracle that fails on one endpoint and answers the next. *)
Module Oracles.

Definition down_url : jsstring := lit "https://down.example/score".
Definition up_url : jsstring := lit "https://up.example/score".
Definition late_url : jsstring := lit "https://late.example/score".

Definition up_body : jsstring :=
  json_lit "{'borrowingPower':1.2,'riskTier':'A','expectedLoanTerms':{'maxAmount':1.2,'minAmount':0.12,'maxDurationDays':30,'aprPercent':12}}".

Definition fetch (url request : jsstring) : FetchOutcome :=
  if str_eqb url up_url then Response true up_body
  else if str_eqb url late_url then
    Response true (json_lit "{'borrowingPower':9,'riskTier':'B','expectedLoanTerms':{}}")
  else NetworkFailure.

Definition failing (invoice : JSValue) : Result JSValue := Throw TypeError.

Definition invoice : props JSValue :=
  [(lit "invoiceId", VStr Scenario.invoice_id);
   (lit "amount", VNum (Finite false 15 (-1)))].

End Oracles.

(** A code unit that [JSON.stringify] writes as it is. *)
Definition unescaped (c : N) : bool :=
  (32 <=? c)%N && negb (c =? 34)%N && negb (c =? 92)%N
  && negb (is_high_surrogate c) && negb (is_low_surrogate c).

(** The value read from a record for an optional string field. *)
Definition optional_value (v : option jsstring) : JSValue :=
  match v with
  | Some s => VStr s
  | None => VUndefined
  end.

(** What a call of [verifyInvoice] that got past its guard comes to: a
    result that carries a record exactly when it says verified, or the
    error of a memo that could not be read. *)
Definition sound_outcome (r : Result VerifyResult) : Prop :=
  match r with
  | Ok v => verified v = true <-> exists rc, record v = Some rc
  | Throw e => e = SyntaxError \/ e = TypeError
  end.

(** Sample data for the properties below. *)
Module Examples.

(** A thousand transactions without a memo. *)
Definition busy : Ledger :=
  repeat {| signature := lit "sig-transfer"; memo := None |} 1000.

(** A lender key. *)
Definition lender : jsstring := lit "Vote111111111111111111111111111111111111111".

(** The invoice of the scenario with its numbers written another way:
    1.50 for 1.5, and the due date with its zeros written out. *)
Definition restated : InvoiceInput := {|
  amount := Finite false 150 (-2);
  recipientWallet := Scenario.recipient;
  dueDate := Finite false 1702592000 0;
  description := Some (lit "Invoice for services");
  issuerName := None
|}.

(** A nested record written with its keys out of order. *)
Definition nested : JSValue :=
  VObj [(lit "b", VArr [VObj [(lit "z", VNull); (lit "y", VBool true)]]);
        (lit "a", VNum (Finite false 15 (-1)))].

End Examples.

(** Arguments of [createInvoice] that are not the literal of the
    declaration. *)
Module Arguments.

(** The invoice of the scenario with a property its type does not
    declare. *)
Definition annotated : props JSValue :=
  InvoiceInput_props Scenario.input ++ [(lit "reference", VStr (lit "PO-7"))].

Definition created : option (Result (jsstring * jsstring) * Ledger) :=
  ObjectInput.createInvoice (Some Scenario.wallet) Scenario.now Scenario.now
    (Confirmed (lit "sig-invoice")) annotated [].

Definition invoice_id : jsstring :=
  match created with
  | Some (Ok (id, _), _) => id
  | _ => []
  end.

Definition ledger : Ledger :=
  match created with
  | Some (_, l) => l
  | None => []
  end.

(** What [verifyInvoice] recomputes from the memo of that entry. *)
Definition recomputed : Result (JSValue * jsstring) :=
  recompute (newest_memo ledger).

Definition recomputed_id : jsstring :=
  match recomputed with
  | Ok (_, calcId) => calcId
  | Throw _ => []
  end.

(** The invoice of the scenario with its fields written in another order,
    and the name of the issuer given as [undefined]. *)
Definition shuffled : props JSValue :=
  [(lit "issuerName", VUndefined);
   (lit "dueDate", VNum (dueDate Scenario.input));
   (lit "description", VStr (lit "Invoice for services"));
   (lit "recipientWallet", VStr Scenario.recipient);
   (lit "amount", VNum (amount Scenario.input))].

End Arguments.

(* ################################################################# *)
(** * Proofs *)

(* ================================================================= *)
(** ** Strings *)

Lemma str_compare_eq (a b : jsstring) : str_compare a b = Eq <-> a = b.
Proof.
  revert b; induction a as [|x a IH]; intros [|y b]; simpl; split;
    try congruence; try reflexivity.
  - destruct (N.compare x y) eqn:C; try discriminate.
    apply N.compare_eq_iff in C; intros H; apply IH in H; congruence.
  - intros H; injection H as -> ->. rewrite N.compare_refl. now apply IH.
Qed.

Lemma str_compare_antisym (a b : jsstring) :
  str_compare b a = CompOpp (str_compare a b).
Proof.
  revert b; induction a as [|x a IH]; intros [|y b]; simpl; try reflexivity.
  rewrite (N.compare_antisym x y).
  destruct (N.compare x y); simpl; auto.
Qed.

Lemma str_compare_lt_trans (a b c : jsstring) :
  str_compare a b = Lt -> str_compare b c = Lt -> str_compare a c = Lt.
Proof.
  revert b c; induction a as [|x a IH]; intros [|y b] [|z c]; simpl;
    try congruence.
  destruct (N.compare x y) eqn:Cxy; try discriminate;
    destruct (N.compare y z) eqn:Cyz; try discriminate; intros H1 H2.
  - apply N.compare_eq_iff in Cxy, Cyz; subst. rewrite N.compare_refl. eauto.
  - apply N.compare_eq_iff in Cxy; subst. now rewrite Cyz.
  - apply N.compare_eq_iff in Cyz; subst. now rewrite Cxy.
  - rewrite N.compare_lt_iff in Cxy, Cyz.
    assert (C : (x < z)%N) by lia. apply N.compare_lt_iff in C. now rewrite C.
Qed.

Lemma str_eqb_eq (a b : jsstring) : str_eqb a b = true <-> a = b.
Proof.
  unfold str_eqb. rewrite <- str_compare_eq.
  destruct (str_compare a b); split; congruence.
Qed.

Lemma str_eqb_refl (a : jsstring) : str_eqb a a = true.
Proof. now apply str_eqb_eq. Qed.

Lemma str_eqb_neq (a b : jsstring) : str_eqb a b = false <-> a <> b.
Proof.
  rewrite <- str_eqb_eq. destruct (str_eqb a b); split; congruence.
Qed.

Lemma str_eqb_sym (a b : jsstring) : str_eqb a b = str_eqb b a.
Proof.
  destruct (str_eqb a b) eqn:E; symmetry.
  - apply str_eqb_eq in E; subst; apply str_eqb_refl.
  - apply str_eqb_neq. apply str_eqb_neq in E. congruence.
Qed.

Lemma str_leb_total (a b : jsstring) : str_leb a b = true \/ str_leb b a = true.
Proof.
  unfold str_leb, str_ltb. rewrite (str_compare_antisym a b).
  destruct (str_compare a b); simpl; auto.
Qed.

Lemma str_leb_antisym (a b : jsstring) :
  str_leb a b = true -> str_leb b a = true -> a = b.
Proof.
  unfold str_leb, str_ltb. rewrite (str_compare_antisym a b).
  destruct (str_compare a b) eqn:C; simpl; try discriminate.
  intros _ _. now apply str_compare_eq.
Qed.

Lemma str_leb_trans (a b c : jsstring) :
  str_leb a b = true -> str_leb b c = true -> str_leb a c = true.
Proof.
  unfold str_leb, str_ltb.
  rewrite (str_compare_antisym a b), (str_compare_antisym b c),
    (str_compare_antisym a c).
  destruct (str_compare a b) eqn:Cab; simpl; try discriminate;
    destruct (str_compare b c) eqn:Cbc; simpl; try discriminate; intros _ _.
  - apply str_compare_eq in Cab, Cbc; subst.
    assert (E : str_compare c c = Eq) by now apply str_compare_eq.
    now rewrite E.
  - apply str_compare_eq in Cab; subst. now rewrite Cbc.
  - apply str_compare_eq in Cbc; subst. now rewrite Cab.
  - now rewrite (str_compare_lt_trans _ _ _ Cab Cbc).
Qed.

Lemma includes_app (s a b : jsstring) :
  includes (a ++ s ++ b) s = true.
Proof.
  assert (P : forall p t, startsWith (p ++ t) p = true).
  { induction p as [|x p IH]; intros t; simpl; [now destruct t|].
    now rewrite N.eqb_refl, IH. }
  induction a as [|x a IH]; simpl.
  - destruct s as [|y s]; simpl; [now destruct b|].
    rewrite N.eqb_refl. simpl. now rewrite P.
  - rewrite IH. apply orb_true_r.
Qed.

(* ================================================================= *)
(** ** Numbers *)

Lemma strip10_value (fuel : nat) : forall d e s e',
  strip10 fuel d e = (s, e') ->
  (e <= e')%Z /\ Z.pos d = (Z.pos s * 10 ^ (e' - e))%Z.
Proof.
  induction fuel as [|f IH]; intros d e s e' H; simpl in H.
  - injection H as <- <-. rewrite Z.sub_diag. simpl. lia.
  - destruct (Z.pos d mod 10 =? 0)%Z eqn:M.
    + apply Z.eqb_eq in M.
      assert (D : Z.pos d = (10 * (Z.pos d / 10))%Z)
        by (rewrite (Z.div_mod (Z.pos d) 10) at 1; lia).
      assert (Q : (0 < Z.pos d / 10)%Z) by lia.
      apply IH in H. destruct H as [Le Eq].
      rewrite Z2Pos.id in Eq by exact Q.
      split; [lia|].
      replace (e' - e)%Z with (Z.succ (e' - (e + 1)))%Z by lia.
      rewrite Z.pow_succ_r by lia.
      set (X := (10 ^ (e' - (e + 1)))%Z) in *. set (Y := (Z.pos d / 10)%Z) in *.
      clearbody X Y. nia.
    + injection H as <- <-. rewrite Z.sub_diag. simpl. lia.
Qed.

Lemma make_number_value (neg : bool) (m : N) (e : Z) :
  (exponent (make_number neg m e) >= e \/ m = 0%N)%Z /\
  (mantissa (make_number neg m e)
     * 10 ^ (exponent (make_number neg m e) - e)
   = if neg then - Z.of_N m else Z.of_N m)%Z.
Proof.
  destruct m as [|d]; cbn [make_number].
  - split; [now right|]. now destruct neg.
  - unfold normalize. destruct (strip10 _ d e) as [s e'] eqn:S.
    apply strip10_value in S. destruct S as [Le Eq].
    cbn [mantissa exponent Z.of_N].
    split; [left; lia|].
    destruct neg; [change (Z.neg s) with (- Z.pos s)%Z|]; rewrite Eq; ring.
Qed.

Lemma number_of_Z_value (z : Z) :
  (0 <= exponent (number_of_Z z))%Z /\
  (mantissa (number_of_Z z) * 10 ^ exponent (number_of_Z z))%Z = z.
Proof.
  unfold number_of_Z.
  pose proof (make_number_value (z <? 0)%Z (Z.abs_N z) 0) as [E V].
  rewrite Z.sub_0_r in V. rewrite V.
  split.
  - destruct E as [E|E]; [lia|].
    rewrite E. simpl. lia.
  - rewrite N2Z.inj_abs_N. destruct (Z.ltb_spec z 0); lia.
Qed.

Lemma number_of_Z_finite (z : Z) : Number_isFinite (number_of_Z z) = true.
Proof.
  unfold number_of_Z, make_number. destruct (Z.abs_N z); [reflexivity|].
  now destruct (normalize p 0).
Qed.

Lemma num_ltb_finite (a b : number) :
  Number_isFinite a = true -> Number_isFinite b = true ->
  num_ltb a b =
  (let m := Z.min (exponent a) (exponent b) in
   (mantissa a * 10 ^ (exponent a - m) <? mantissa b * 10 ^ (exponent b - m))%Z).
Proof.
  destruct a, b; simpl; try discriminate; reflexivity.
Qed.

(** On integers, [<] on numbers is [<] on integers. *)
Lemma num_ltb_of_Z (a b : Z) :
  num_ltb (number_of_Z a) (number_of_Z b) = (a <? b)%Z.
Proof.
  rewrite num_ltb_finite by apply number_of_Z_finite.
  destruct (number_of_Z_value a) as [Ea Va], (number_of_Z_value b) as [Eb Vb].
  cbv zeta.
  set (ea := exponent (number_of_Z a)) in *.
  set (eb := exponent (number_of_Z b)) in *.
  set (ma := mantissa (number_of_Z a)) in *.
  set (mb := mantissa (number_of_Z b)) in *.
  set (m := Z.min ea eb).
  assert (Hm : (0 <= m)%Z) by (unfold m; lia).
  assert (P : (0 < 10 ^ m)%Z) by (apply Z.pow_pos_nonneg; lia).
  assert (Ha : a = (ma * 10 ^ (ea - m) * 10 ^ m)%Z).
  { rewrite <- Va. rewrite <- Z.mul_assoc, <- Z.pow_add_r by (unfold m; lia).
    f_equal. f_equal. lia. }
  assert (Hb : b = (mb * 10 ^ (eb - m) * 10 ^ m)%Z).
  { rewrite <- Vb. rewrite <- Z.mul_assoc, <- Z.pow_add_r by (unfold m; lia).
    f_equal. f_equal. lia. }
  rewrite Ha, Hb at 1.
  destruct (Z.ltb_spec (ma * 10 ^ (ea - m)) (mb * 10 ^ (eb - m)));
    symmetry; [apply Z.ltb_lt | apply Z.ltb_ge]; nia.
Qed.

Lemma isValidAmount_iff (x : number) :
  isValidAmount x = true <-> exists d e, x = Finite false d e.
Proof.
  unfold isValidAmount, num_gtb. split.
  - destruct x as [|b|b|neg d e]; try discriminate.
    destruct neg; [|eauto]. intros H. exfalso. revert H.
    cbn [Number_isFinite andb num_ltb mantissa exponent].
    assert (P : (0 < 10 ^ (e - Z.min 0 e))%Z) by (apply Z.pow_pos_nonneg; lia).
    destruct (Z.ltb_spec (0 * 10 ^ (0 - Z.min 0 e)) (Z.neg d * 10 ^ (e - Z.min 0 e)));
      [|discriminate].
    change (Z.neg d) with (- Z.pos d)%Z in *. nia.
  - intros (d & e & ->).
    cbn [Number_isFinite andb num_ltb mantissa exponent].
    assert (P : (0 < 10 ^ (e - Z.min 0 e))%Z) by (apply Z.pow_pos_nonneg; lia).
    apply Z.ltb_lt. nia.
Qed.

Lemma scaled_value (x : number) (m : Z) :
  (m <= exponent x)%Z ->
  (num_value x == inject_Z (mantissa x * 10 ^ (exponent x - m)) * inject_Z 10 ^ m)%Q.
Proof.
  intros Le. unfold num_value.
  rewrite inject_Z_mult, Zpower_Qpower by lia.
  rewrite <- Qmult_assoc, <- Qpower_plus by discriminate.
  now replace (exponent x - m + m)%Z with (exponent x) by lia.
Qed.

(** [num_ltb] on finite numbers is [<] on the rationals they stand for. *)
Lemma num_ltb_spec (a b : number) :
  Number_isFinite a = true -> Number_isFinite b = true ->
  num_ltb a b = true <-> (num_value a < num_value b)%Q.
Proof.
  intros Fa Fb. rewrite (num_ltb_finite a b Fa Fb). cbv zeta.
  set (m := Z.min (exponent a) (exponent b)).
  rewrite (scaled_value a m), (scaled_value b m) by (unfold m; lia).
  rewrite Qmult_lt_r by (apply Qpower_0_lt; reflexivity).
  rewrite <- Zlt_Qlt. apply Z.ltb_lt.
Qed.

(* ================================================================= *)
(** ** Validation *)

Lemma num_value_of_Z (z : Z) : (num_value (number_of_Z z) == inject_Z z)%Q.
Proof.
  destruct (number_of_Z_value z) as [E V]. unfold num_value.
  rewrite <- Zpower_Qpower, <- inject_Z_mult by exact E. now rewrite V.
Qed.

Lemma isFutureTimestamp_iff (now : Z) (ts : number) :
  isFutureTimestamp now ts = true <->
  ts = Infinity false \/
  (Number_isFinite ts = true /\ (inject_Z now < num_value ts)%Q).
Proof.
  unfold isFutureTimestamp, num_gtb.
  destruct (Number_isFinite ts) eqn:F.
  - rewrite num_ltb_spec, num_value_of_Z by (exact F || apply number_of_Z_finite).
    split; [auto|]. intros [->|[_ H]]; [discriminate|exact H].
  - pose proof (number_of_Z_finite now) as Fn.
    destruct ts as [|[]| |]; try discriminate;
      destruct (number_of_Z now); try discriminate; simpl;
      split; try discriminate; auto;
      intros [H|[H _]]; discriminate.
Qed.

Lemma isFutureTimestamp_of_Z (now t : Z) :
  isFutureTimestamp now (number_of_Z t) = (now <? t)%Z.
Proof. apply num_ltb_of_Z. Qed.

Lemma isValidPublicKeyString_iff (value : jsstring) :
  isValidPublicKeyString value = true <-> (32 <= List.length value <= 44)%nat.
Proof.
  unfold isValidPublicKeyString.
  rewrite andb_true_iff, !Nat.leb_le. reflexivity.
Qed.

Lemma description_too_long_iff (d : option jsstring) :
  description_too_long d = false <->
  forall s, d = Some s -> (List.length s <= 1024)%nat.
Proof.
  destruct d as [s|]; simpl.
  - split.
    + intros H t [= <-]. destruct s; simpl in *; [lia|].
      apply Nat.ltb_ge in H. exact H.
    + intros H. specialize (H s eq_refl). destruct s; [reflexivity|].
      apply Nat.ltb_ge. exact H.
  - split; [discriminate|reflexivity].
Qed.

Lemma validate_ok_iff (now : Z) (input : InvoiceInput) :
  validateInvoiceInput now input = Ok tt <->
  isValidAmount (amount input) = true
  /\ isValidPublicKeyString (recipientWallet input) = true
  /\ isFutureTimestamp now (dueDate input) = true
  /\ description_too_long (description input) = false.
Proof.
  unfold validateInvoiceInput.
  destruct (isValidAmount _), (isValidPublicKeyString _), (isFutureTimestamp _ _),
    (description_too_long _); simpl; intuition congruence.
Qed.

Lemma validate_throws (now : Z) (input : InvoiceInput) (e : Exn) :
  validateInvoiceInput now input = Throw e -> exists m, e = invalid_input m.
Proof.
  unfold validateInvoiceInput.
  destruct (isValidAmount _), (isValidPublicKeyString _), (isFutureTimestamp _ _),
    (description_too_long _); simpl; intros [= <-]; eauto.
Qed.

Lemma validate_total (now : Z) (input : InvoiceInput) :
  validateInvoiceInput now input = Ok tt \/
  exists m, validateInvoiceInput now input = Throw (invalid_input m).
Proof.
  destruct (validateInvoiceInput now input) as [[]|e] eqn:V; [now left|right].
  destruct (validate_throws _ _ _ V) as [m ->]. eauto.
Qed.

(** C6.  Invoice validation accepts exactly the inputs whose amount is a
    positive finite number, whose recipient has an acceptable length, whose
    due date is after the current time and whose description has at most
    1024 characters; every rejection is an INVALID_INPUT error raised before
    anything is submitted.  In particular a zero, negative or non-finite
    amount, a due date at or before the current time and a description of
    more than 1024 characters are rejected, and the amount 0.01 with the
    due date [now + 86400] is accepted. *)
Theorem C6_validation_boundaries (now : Z) (input : InvoiceInput) :
  (validateInvoiceInput now input = Ok tt <->
     (exists d e, amount input = Finite false d e)
     /\ (32 <= List.length (recipientWallet input) <= 44)%nat
     /\ (dueDate input = Infinity false \/
         (Number_isFinite (dueDate input) = true
          /\ (inject_Z now < num_value (dueDate input))%Q))
     /\ (forall s, description input = Some s -> (List.length s <= 1024)%nat))
  /\ (forall e, validateInvoiceInput now input = Throw e ->
        (exists m, e = invalid_input m)
        /\ forall wallet createdAt submission ledger,
             createInvoice wallet now createdAt submission input ledger
             = (Throw e, ledger))
  /\ ((exists b, amount input = Zero b) \/ (exists d e, amount input = Finite true d e)
      \/ Number_isFinite (amount input) = false ->
      validateInvoiceInput now input = Throw (invalid_input "Invalid invoice amount"))
  /\ (forall t, dueDate input = number_of_Z t -> (t <= now)%Z ->
        exists m, validateInvoiceInput now input = Throw (invalid_input m))
  /\ (forall s, description input = Some s -> (1024 < List.length s)%nat ->
        exists m, validateInvoiceInput now input = Throw (invalid_input m))
  /\ (amount input = Finite false 1 (-2) ->
      dueDate input = number_of_Z (now + 86400) ->
      (32 <= List.length (recipientWallet input) <= 44)%nat ->
      (forall s, description input = Some s -> (List.length s <= 1024)%nat) ->
      validateInvoiceInput now input = Ok tt).
Proof.
  assert (Iff : validateInvoiceInput now input = Ok tt <->
     (exists d e, amount input = Finite false d e)
     /\ (32 <= List.length (recipientWallet input) <= 44)%nat
     /\ (dueDate input = Infinity false \/
         (Number_isFinite (dueDate input) = true
          /\ (inject_Z now < num_value (dueDate input))%Q))
     /\ (forall s, description input = Some s -> (List.length s <= 1024)%nat)).
  { rewrite validate_ok_iff, isValidAmount_iff, isValidPublicKeyString_iff,
      isFutureTimestamp_iff, description_too_long_iff. reflexivity. }
  assert (Rej : ~ validateInvoiceInput now input = Ok tt ->
                exists m, validateInvoiceInput now input = Throw (invalid_input m)).
  { intros H. destruct (validate_total now input); [contradiction|assumption]. }
  split; [exact Iff|]. split; [|split; [|split; [|split]]].
  - intros e H. split; [eapply validate_throws; eauto|].
    intros. unfold createInvoice. now rewrite H.
  - intros H. unfold validateInvoiceInput.
    assert (V : isValidAmount (amount input) = false).
    { destruct (isValidAmount (amount input)) eqn:V; [|reflexivity].
      apply isValidAmount_iff in V. destruct V as (d & e & V). rewrite V in H.
      destruct H as [[b H]|[(d' & e' & H)|H]]; discriminate. }
    now rewrite V.
  - intros t D Le. apply Rej. rewrite validate_ok_iff. intros (_ & _ & F & _).
    rewrite D, isFutureTimestamp_of_Z in F. apply Z.ltb_lt in F. lia.
  - intros s D Lt. apply Rej. rewrite Iff. intros (_ & _ & _ & H).
    specialize (H s D). lia.
  - intros A D W S. apply validate_ok_iff.
    rewrite isValidAmount_iff, isValidPublicKeyString_iff, description_too_long_iff.
    rewrite D, isFutureTimestamp_of_Z. repeat split; eauto; lia.
Qed.

(** C10.  The recipient check of invoice validation looks at the length of
    the string only: a recipient is accepted exactly when its length is
    between 32 and 44, whatever it is made of; a recipient of any other
    length makes validation fail, and one of an accepted length never
    causes the failure. *)
Theorem C10_wallet_length_only (now : Z) (input : InvoiceInput) :
  (isValidPublicKeyString (recipientWallet input) = true <->
     (32 <= List.length (recipientWallet input) <= 44)%nat)
  /\ (forall other : jsstring,
        List.length other = List.length (recipientWallet input) ->
        validateInvoiceInput now
          {| amount := amount input; recipientWallet := other;
             dueDate := dueDate input; description := description input;
             issuerName := issuerName input |}
        = validateInvoiceInput now input)
  /\ ((32 <= List.length (recipientWallet input) <= 44)%nat ->
      validateInvoiceInput now input <> Throw (invalid_input "Invalid recipient wallet"))
  /\ (~ (32 <= List.length (recipientWallet input) <= 44)%nat ->
      exists m, validateInvoiceInput now input = Throw (invalid_input m))
  /\ (~ (32 <= List.length (recipientWallet input) <= 44)%nat ->
      isValidAmount (amount input) = true ->
      validateInvoiceInput now input = Throw (invalid_input "Invalid recipient wallet")).
Proof.
  split; [apply isValidPublicKeyString_iff|]. split; [|split; [|split]].
  - intros other L. unfold validateInvoiceInput, isValidPublicKeyString. simpl.
    now rewrite L.
  - intros H. apply isValidPublicKeyString_iff in H.
    unfold validateInvoiceInput. rewrite H.
    destruct (isValidAmount _), (isFutureTimestamp _ _), (description_too_long _);
      simpl; discriminate.
  - intros H. destruct (validate_total now input) as [V|V]; [|exact V].
    apply validate_ok_iff in V. destruct V as (_ & V & _).
    apply isValidPublicKeyString_iff in V. contradiction.
  - intros H A. unfold validateInvoiceInput. rewrite A. simpl.
    destruct (isValidPublicKeyString _) eqn:V; [|reflexivity].
    apply isValidPublicKeyString_iff in V. contradiction.
Qed.
(* ================================================================= *)
(** ** Status derivation *)

Lemma scan_invoice_status_range (id : jsstring) (sigs : list LedgerEntry) :
  forall st,
    scan_invoice_status id sigs st = st
    \/ scan_invoice_status id sigs st = st_financed
    \/ scan_invoice_status id sigs st = st_settled.
Proof.
  induction sigs as [|s rest IH]; intros st; simpl; [auto|].
  destruct (memo s) as [m|]; [|apply IH].
  destruct (includes m id); simpl; [|apply IH].
  destruct (includes (toLowerCase m) (lit "repay")); [auto|].
  destruct (includes (toLowerCase m) (lit "loan")); [|apply IH].
  destruct (IH st_financed) as [H|[H|H]]; auto.
Qed.

(** A repay entry anywhere in the scan settles the status, whatever the
    running status and whatever comes before or after it. *)
Lemma scan_invoice_status_settled (id : jsstring) (sigs : list LedgerEntry) :
  forall st,
    existsb (mentions id (lit "repay")) sigs = true ->
    scan_invoice_status id sigs st = st_settled.
Proof.
  induction sigs as [|s rest IH]; intros st; simpl; [discriminate|].
  unfold mentions at 1.
  destruct (memo s) as [m|]; simpl; [|apply IH].
  destruct (includes m id); simpl; [|apply IH].
  destruct (includes (toLowerCase m) (lit "repay")); simpl; [reflexivity|].
  destruct (includes (toLowerCase m) (lit "loan")); apply IH.
Qed.

(** Without a repay entry the scan runs to its end; the status it ends
    with is [financed] once a loan entry has been seen. *)
Lemma scan_invoice_status_financed (id : jsstring) (sigs : list LedgerEntry) :
  forall st,
    existsb (mentions id (lit "repay")) sigs = false ->
    scan_invoice_status id sigs st =
    if existsb (mentions id (lit "loan")) sigs then st_financed else st.
Proof.
  induction sigs as [|s rest IH]; intros st; simpl; [reflexivity|].
  unfold mentions at 1 3.
  destruct (memo s) as [m|]; simpl; [|apply IH].
  destruct (includes m id); simpl; [|apply IH].
  destruct (includes (toLowerCase m) (lit "repay")); simpl; [discriminate|].
  destruct (includes (toLowerCase m) (lit "loan")); simpl; intros H.
  - rewrite (IH _ H). now destruct (existsb (mentions id (lit "loan")) rest).
  - apply IH, H.
Qed.

Lemma scan_loan_status_range (id : jsstring) (sigs : list LedgerEntry) :
  forall found st,
    st <> ln_defaulted ->
    scan_loan_status id sigs found st <> ln_defaulted.
Proof.
  induction sigs as [|s rest IH]; intros found st H; simpl.
  - destruct found; [exact H|discriminate].
  - destruct (memo s) as [m|]; [|now apply IH].
    destruct (includes m id); simpl; [|now apply IH].
    destruct (includes (toLowerCase m) (lit "repay")); [discriminate|].
    destruct (_ || _); apply IH; discriminate.
Qed.

(** C9.  [getInvoiceStatus] never returns 'pending': when the invoice is
    verified the result is 'verified', 'financed' or 'settled', otherwise
    it is 'not_found' or an error.  [getLoanStatus] never returns
    'defaulted'. *)
Theorem C9_unreachable_statuses (ledger : Ledger) (id : jsstring) :
  getInvoiceStatus ledger id <> Ok st_pending
  /\ (forall v, verifyInvoice ledger (Some id) None = Ok v -> verified v = true ->
        getInvoiceStatus ledger id = Ok st_verified
        \/ getInvoiceStatus ledger id = Ok st_financed
        \/ getInvoiceStatus ledger id = Ok st_settled)
  /\ getLoanStatus ledger id <> ln_defaulted.
Proof.
  split; [|split].
  - unfold getInvoiceStatus.
    destruct (verifyInvoice ledger (Some id) None) as [v|e]; cbn [bind]; [|discriminate].
    destruct (verified v); cbn [negb]; [|discriminate].
    destruct (scan_invoice_status_range id (getSignaturesForAddress ledger 200) st_verified)
      as [H|[H|H]]; rewrite H; discriminate.
  - intros v V T. unfold getInvoiceStatus. rewrite V. cbn [bind]. rewrite T. cbn [negb].
    destruct (scan_invoice_status_range id (getSignaturesForAddress ledger 200) st_verified)
      as [H|[H|H]]; rewrite H; auto.
  - apply scan_loan_status_range. discriminate.
Qed.

(** C4.  For a verified invoice, a repay entry that mentions the invoice
    anywhere in the scanned window gives 'settled', wherever it stands and
    whatever loan entries come before or after it; without a repay entry,
    a loan entry that mentions the invoice gives 'financed', and the scan
    of the window is not cut short by it. *)
Theorem C4_terminal_status_wins (ledger : Ledger) (H1 : jsstring) (v : VerifyResult) :
  verifyInvoice ledger (Some H1) None = Ok v ->
  verified v = true ->
  (existsb (mentions H1 (lit "repay")) (getSignaturesForAddress ledger 200) = true ->
   getInvoiceStatus ledger H1 = Ok st_settled)
  /\ (existsb (mentions H1 (lit "repay")) (getSignaturesForAddress ledger 200) = false ->
      existsb (mentions H1 (lit "loan")) (getSignaturesForAddress ledger 200) = true ->
      getInvoiceStatus ledger H1 = Ok st_financed)
  /\ (forall e rest st,
        mentions H1 (lit "repay") e = false ->
        mentions H1 (lit "loan") e = true ->
        scan_invoice_status H1 (e :: rest) st = scan_invoice_status H1 rest st_financed).
Proof.
  intros V T. unfold getInvoiceStatus. rewrite V. cbn [bind]. rewrite T. cbn [negb].
  split; [|split].
  - intros R. now rewrite scan_invoice_status_settled.
  - intros R L. now rewrite scan_invoice_status_financed, L.
  - intros e rest st. unfold mentions. simpl.
    destruct (memo e) as [m|]; [|discriminate].
    destruct (includes m H1); simpl; [|discriminate].
    intros -> ->. reflexivity.
Qed.


(* ================================================================= *)
(** ** The claims on status derivation and verification *)

Lemma C4_witness :
  getInvoiceStatus Scenario.reordered Scenario.invoice_id = Ok st_settled.
Proof.
  assert (V : exists v,
             verifyInvoice Scenario.reordered (Some Scenario.invoice_id) None = Ok v
             /\ verified v = true)
    by (eexists; split; [vm_compute; reflexivity|reflexivity]).
  destruct V as (v & V & T).
  apply (proj1 (C4_terminal_status_wins Scenario.reordered Scenario.invoice_id v V T)).
  vm_compute. reflexivity.
Defined.

(** C3.  The entry [requestLoan] submits does not contain the identifier it
    returns, so [getLoanStatus] passes over it: with the loan's own request
    entry as the newest entry of the window, the status of the loan is
    'not_found', not 'requested'. *)
Theorem C3_own_request_entry_not_found :
  fst Scenario.requested = Ok (Scenario.loan_id, lit "sig-loan")
  /\ option_map signature (hd_error (snd Scenario.requested)) = Some (lit "sig-loan")
  /\ option_map (fun e => option_map sha256Hex (memo e)) (hd_error (snd Scenario.requested))
     = Some (Some Scenario.loan_id)
  /\ option_map (fun e => option_map (fun text => includes text Scenario.loan_id) (memo e))
                (hd_error (snd Scenario.requested))
     = Some (Some false)
  /\ getLoanStatus (snd Scenario.requested) Scenario.loan_id = ln_not_found.
Proof.
  repeat apply conj; vm_compute; reflexivity.
Qed.

(** A memo that is not JSON stops [verifyInvoice] with a SyntaxError, and a
    memo that parses to [null] with a TypeError, whatever entries follow. *)
Lemma scan_for_invoice_malformed (id : option jsstring) (e : LedgerEntry)
    (rest : list LedgerEntry) (text : jsstring) :
  memo e = Some text ->
  (JSON_parse text = None -> scan_for_invoice id (e :: rest) = Throw SyntaxError)
  /\ (JSON_parse text = Some VNull -> scan_for_invoice id (e :: rest) = Throw TypeError).
Proof.
  intros M. simpl. rewrite M. unfold recompute.
  split; intros ->; reflexivity.
Qed.

(** C5.  With a memo that is not JSON scanned before the invoice's own
    entry, [verifyInvoice] and [getInvoiceStatus] raise a SyntaxError
    instead of passing over the entry, although the invoice is verified
    once that entry is left out; [getLoanStatus] does not parse memos and
    passes over it. *)
Theorem C5_malformed_memo_aborts_verification :
  (exists v, verifyInvoice (snd Scenario.created) (Some Scenario.invoice_id) None = Ok v
             /\ verified v = true)
  /\ JSON_parse (lit "gm from another app") = None
  /\ verifyInvoice (Scenario.foreign :: snd Scenario.created) (Some Scenario.invoice_id) None
     = Throw SyntaxError
  /\ getInvoiceStatus (Scenario.foreign :: snd Scenario.created) Scenario.invoice_id
     = Throw SyntaxError
  /\ getLoanStatus (Scenario.foreign :: snd Scenario.requested) Scenario.invoice_id
     = ln_active.
Proof.
  split; [eexists; split; [vm_compute; reflexivity|reflexivity]|].
  repeat apply conj; vm_compute; reflexivity.
Qed.

Lemma scan_for_invoice_passed_over (id : jsstring) (txs : list LedgerEntry) :
  forallb (passed_over id) txs = true ->
  scan_for_invoice (Some id) txs = Ok not_verified.
Proof.
  induction txs as [|tx rest IH]; simpl; [reflexivity|].
  rewrite andb_true_iff. intros [P H]. unfold passed_over in P.
  destruct (memo tx) as [m|]; [|now apply IH].
  destruct (recompute m) as [[parsed calcId]|]; [|discriminate].
  apply negb_true_iff in P. rewrite P. now apply IH.
Qed.

(** C7, as the code has it.  For an identifier that is not the empty
    string, when every entry of the window of 1000 that has a memo parses
    and recomputes to another identifier, [verifyInvoice] returns
    [{verified: false}] and [getInvoiceStatus] returns 'not_found';
    entries beyond the window are not looked at. *)
Theorem C7_absence_is_a_result (ledger : Ledger) (id : jsstring) :
  id <> [] ->
  forallb (passed_over id) (getSignaturesForAddress ledger 1000) = true ->
  verifyInvoice ledger (Some id) None = Ok not_verified
  /\ getInvoiceStatus ledger id = Ok st_not_found.
Proof.
  intros N P.
  assert (V : verifyInvoice ledger (Some id) None = Ok not_verified).
  { unfold verifyInvoice. destruct id as [|c r]; [congruence|].
    cbn [given negb andb]. now apply scan_for_invoice_passed_over. }
  split; [exact V|]. unfold getInvoiceStatus. now rewrite V.
Qed.

Lemma C7_witness :
  verifyInvoice Scenario.crowded (Some Scenario.invoice_id) None = Ok not_verified
  /\ getInvoiceStatus Scenario.crowded Scenario.invoice_id = Ok st_not_found.
Proof.
  apply (C7_absence_is_a_result Scenario.crowded Scenario.invoice_id).
  - vm_compute. discriminate.
  - vm_compute. reflexivity.
Defined.

(** The empty identifier is refused by the guard of [verifyInvoice]: both
    operations throw an INVALID_INPUT error, on any ledger. *)
Lemma C7_counterexample :
  verifyInvoice [] (Some []) None
  = Throw (invalid_input "invoiceId or txSignature required")
  /\ getInvoiceStatus [] []
     = Throw (invalid_input "invoiceId or txSignature required").
Proof. split; vm_compute; reflexivity. Qed.

(** C8.  An endpoint that answers with a result carrying [borrowingPower],
    [riskTier] and [expectedLoanTerms], the borrowing power being zero, is
    not returned: [simulateCredit] goes on to the local model. *)
Theorem C8_zero_borrowing_power_skipped (evaluate : JSValue -> Result JSValue)
    (invoice : JSValue) :
  (exists payload bp rt terms,
     JSON_parse Scenario.oracle_body = Some (VObj payload)
     /\ lookup payload (lit "borrowingPower") = Some bp
     /\ lookup payload (lit "riskTier") = Some rt
     /\ lookup payload (lit "expectedLoanTerms") = Some terms)
  /\ simulateCredit Scenario.oracle evaluate (Some [Scenario.oracle_url]) invoice
     = local_model evaluate invoice.
Proof.
  split.
  - do 4 eexists. repeat apply conj; (vm_compute; reflexivity).
  - reflexivity.
Qed.

(* ================================================================= *)
(** ** Sorting *)

Lemma insert_sorted_perm (k : jsstring) (l : list jsstring) :
  Permutation (insert_sorted k l) (k :: l).
Proof.
  induction l as [|x l IH]; simpl; [reflexivity|].
  destruct (str_leb k x); [reflexivity|].
  rewrite IH. apply perm_swap.
Qed.

Lemma sort_perm (l : list jsstring) : Permutation (sort l) l.
Proof.
  induction l as [|x l IH]; simpl; [reflexivity|].
  rewrite insert_sorted_perm. now constructor.
Qed.

Lemma insert_sorted_sorted (k : jsstring) (l : list jsstring) :
  sorted_by str_leb l = true -> sorted_by str_leb (insert_sorted k l) = true.
Proof.
  induction l as [|x l IH]; simpl; [reflexivity|]. intros S.
  destruct (str_leb k x) eqn:L.
  - simpl. now rewrite L.
  - assert (L' : str_leb x k = true)
      by (destruct (str_leb_total k x); congruence).
    destruct l as [|y l]; simpl in *.
    + now rewrite L'.
    + apply andb_true_iff in S. destruct S as [Lxy S].
      specialize (IH S). destruct (str_leb k y); simpl in *.
      * now rewrite L'.
      * now rewrite Lxy.
Qed.

Lemma sort_sorted (l : list jsstring) : sorted_by str_leb (sort l) = true.
Proof.
  induction l as [|x l IH]; simpl; [reflexivity|].
  now apply insert_sorted_sorted.
Qed.

Lemma sorted_by_head (x : jsstring) (l : list jsstring) :
  sorted_by str_leb (x :: l) = true ->
  sorted_by str_leb l = true /\ forall y, In y l -> str_leb x y = true.
Proof.
  revert x; induction l as [|z l IH]; intros x S; simpl in S.
  - split; [reflexivity|]. intros y [].
  - apply andb_true_iff in S. destruct S as [L S]. split; [exact S|].
    intros y [<-|I]; [exact L|].
    eapply str_leb_trans; [exact L|]. now apply (IH z S).
Qed.

(** Two sorted lists with the same elements are the same list. *)
Lemma sorted_perm_eq (l1 l2 : list jsstring) :
  sorted_by str_leb l1 = true -> sorted_by str_leb l2 = true ->
  Permutation l1 l2 -> l1 = l2.
Proof.
  revert l2; induction l1 as [|x l1 IH]; intros l2 S1 S2 Pm.
  - apply Permutation_nil in Pm. now subst.
  - destruct l2 as [|y l2]; [apply Permutation_sym, Permutation_nil in Pm; discriminate|].
    destruct (sorted_by_head _ _ S1) as [S1' H1], (sorted_by_head _ _ S2) as [S2' H2].
    assert (E : x = y).
    { assert (Ix : In x (y :: l2)) by (eapply Permutation_in; [exact Pm|now left]).
      assert (Iy : In y (x :: l1))
        by (eapply Permutation_in; [apply Permutation_sym, Pm|now left]).
      destruct Ix as [->|Ix]; [reflexivity|].
      destruct Iy as [->|Iy]; [reflexivity|].
      apply str_leb_antisym; auto. }
    subst y. f_equal. apply IH; auto.
    eapply Permutation_cons_inv; eauto.
Qed.

Lemma sort_permutation_eq (l1 l2 : list jsstring) :
  Permutation l1 l2 -> sort l1 = sort l2.
Proof.
  intros Pm. apply sorted_perm_eq; try apply sort_sorted.
  rewrite !sort_perm. exact Pm.
Qed.

(* ================================================================= *)
(** ** Properties of objects *)

Lemma insert_index_perm {A : Type} (i : N) (p : jsstring * A) l :
  Permutation (insert_index i p l) ((i, p) :: l).
Proof.
  induction l as [|[j q] l IH]; simpl; [reflexivity|].
  destruct (i <? j)%N; [reflexivity|].
  rewrite IH. apply perm_swap.
Qed.

Lemma index_props_perm {A : Type} (o : props A) :
  Permutation (map snd (index_props o)) (filter (fun p => is_index (fst p)) o).
Proof.
  induction o as [|p o IH]; simpl; [reflexivity|].
  unfold is_index. destruct (array_index (fst p)); [|exact IH].
  rewrite insert_index_perm. simpl. now constructor.
Qed.

Lemma filter_partition_perm {A : Type} (f : A -> bool) (l : list A) :
  Permutation (filter f l ++ filter (fun x => negb (f x)) l) l.
Proof.
  induction l as [|x l IH]; simpl; [reflexivity|].
  destruct (f x); simpl.
  - now constructor.
  - rewrite <- Permutation_middle. now constructor.
Qed.

(** Enumeration lists every own property once. *)
Lemma own_props_perm {A : Type} (o : props A) : Permutation (own_props o) o.
Proof.
  unfold own_props. rewrite index_props_perm.
  apply (filter_partition_perm (fun p => is_index (fst p))).
Qed.

Lemma Object_keys_perm {A : Type} (o : props A) :
  Permutation (Object_keys o) (map fst o).
Proof. unfold Object_keys. apply Permutation_map, own_props_perm. Qed.

Lemma index_props_none {A : Type} (o : props A) :
  forallb (fun k => negb (is_index k)) (map fst o) = true ->
  index_props o = [] /\ filter (fun p => negb (is_index (fst p))) o = o.
Proof.
  induction o as [|p o IH]; simpl; [auto|].
  rewrite andb_true_iff. intros [Hp H]. destruct (IH H) as [I F].
  unfold is_index in *. destruct (array_index (fst p)); [discriminate|].
  simpl. now rewrite I, F.
Qed.

Lemma own_props_plain {A : Type} (o : props A) :
  forallb (fun k => negb (is_index k)) (map fst o) = true -> own_props o = o.
Proof.
  intros H. unfold own_props. destruct (index_props_none o H) as [-> ->].
  reflexivity.
Qed.

Lemma lookup_map {A B : Type} (f : A -> B) (o : props A) (k : jsstring) :
  lookup (map (fun p => (fst p, f (snd p))) o) k = option_map f (lookup o k).
Proof.
  induction o as [|[k' v] o IH]; simpl; [reflexivity|].
  destruct (str_eqb k' k); [reflexivity|exact IH].
Qed.

Lemma lookup_In {A : Type} (o : props A) (k : jsstring) (v : A) :
  lookup o k = Some v -> In (k, v) o.
Proof.
  induction o as [|[k' v'] o IH]; simpl; [discriminate|].
  destruct (str_eqb k' k) eqn:E.
  - apply str_eqb_eq in E. intros [= ->]. left. now subst.
  - intros H. right. now apply IH.
Qed.

Lemma lookup_None {A : Type} (o : props A) (k : jsstring) :
  lookup o k = None <-> ~ In k (map fst o).
Proof.
  induction o as [|[k' v'] o IH]; simpl; [tauto|].
  destruct (str_eqb k' k) eqn:E.
  - apply str_eqb_eq in E. split; [discriminate|]. intros H. exfalso. auto.
  - apply str_eqb_neq in E. rewrite IH. tauto.
Qed.

Lemma distinct_NoDup (ks : list jsstring) : distinct ks = true <-> NoDup ks.
Proof.
  induction ks as [|k r IH]; simpl.
  - split; [constructor|reflexivity].
  - rewrite andb_true_iff, negb_true_iff, IH. split.
    + intros [E D]. constructor; [|exact D]. intros I.
      assert (X : existsb (str_eqb k) r = true)
        by (apply existsb_exists; exists k; split; [exact I|apply str_eqb_refl]).
      congruence.
    + intros D. inversion D as [|? ? N D']; subst. split; [|exact D'].
      destruct (existsb (str_eqb k) r) eqn:X; [|reflexivity].
      apply existsb_exists in X. destruct X as (y & I & E).
      apply str_eqb_eq in E. subst. contradiction.
Qed.

Lemma lookup_NoDup_In {A : Type} (o : props A) (k : jsstring) (v : A) :
  NoDup (map fst o) -> In (k, v) o -> lookup o k = Some v.
Proof.
  induction o as [|[k' v'] o IH]; simpl; [tauto|].
  intros D I. inversion D as [|? ? N D']; subst.
  destruct I as [[= -> ->]|I].
  - now rewrite str_eqb_refl.
  - destruct (str_eqb k' k) eqn:E.
    + apply str_eqb_eq in E. subst. exfalso. apply N.
      apply (in_map fst) in I. exact I.
    + now apply IH.
Qed.

(** Defining properties with distinct keys lists them in the order given. *)
Lemma define_prop_fresh {A : Type} (o : props A) (k : jsstring) (v : A) :
  ~ In k (map fst o) -> define_prop o k v = o ++ [(k, v)].
Proof.
  induction o as [|[k' v'] o IH]; simpl; [reflexivity|].
  intros N. destruct (str_eqb k' k) eqn:E.
  - apply str_eqb_eq in E. exfalso. auto.
  - rewrite IH by tauto. reflexivity.
Qed.

Lemma fold_define_distinct {A : Type} (f : jsstring -> A) (ks : list jsstring) :
  forall acc : props A,
    NoDup (map fst acc ++ ks) ->
    fold_left (fun res k => define_prop res k (f k)) ks acc
    = acc ++ map (fun k => (k, f k)) ks.
Proof.
  induction ks as [|k ks IH]; intros acc D; simpl.
  - now rewrite app_nil_r.
  - rewrite define_prop_fresh.
    + rewrite IH.
      * now rewrite <- app_assoc.
      * rewrite map_app. simpl. rewrite <- app_assoc. exact D.
    + apply NoDup_remove_2 in D. intros I. apply D. apply in_or_app. now left.
Qed.
(* ================================================================= *)
(** ** [sortObject] and [stableStringify] *)

Lemma fold_left_ext_in {A B : Type} (f g : A -> B -> A) (l : list B) :
  (forall a b, In b l -> f a b = g a b) ->
  forall acc, fold_left f l acc = fold_left g l acc.
Proof.
  induction l as [|b l IH]; intros H acc; simpl; [reflexivity|].
  rewrite H by now left. apply IH. intros a' b' I. apply H. now right.
Qed.

(** The equation of the source: [res[k] = sortObject(value[k])] for the keys
    of [Object.keys(value).sort()], in that order. *)
Lemma sortObject_object (o : props JSValue) :
  sortObject (VObj o)
  = VObj (fold_left (fun res k => obj_set res k (sortObject (obj_get o k)))
                    (sort (Object_keys o)) []).
Proof.
  simpl. f_equal. apply fold_left_ext_in. intros res k _. f_equal.
  unfold obj_get. rewrite lookup_map. now destruct (lookup o k).
Qed.

Lemma number_eqb_eq (x y : number) : number_eqb x y = true -> x = y.
Proof.
  destruct x, y; simpl; try discriminate; auto.
  - intros H. apply eqb_prop in H. now subst.
  - intros H. apply eqb_prop in H. now subst.
  - rewrite !andb_true_iff. intros [[B D] E].
    apply eqb_prop in B. apply Pos.eqb_eq in D. apply Z.eqb_eq in E. now subst.
Qed.

Lemma deep_equal_array (l1 l2 : list JSValue) :
  deep_equal (VArr l1) (VArr l2) = true <->
  Forall2 (fun a b => deep_equal a b = true) l1 l2.
Proof.
  simpl. revert l2. induction l1 as [|a l1 IH]; intros [|b l2].
  - split; constructor.
  - split; [discriminate|intros H; inversion H].
  - split; [discriminate|intros H; inversion H].
  - rewrite andb_true_iff, IH. split.
    + intros [H1 H2]. now constructor.
    + intros H. inversion H; subst. tauto.
Qed.

Lemma deep_equal_object (o1 o2 : props JSValue) :
  deep_equal (VObj o1) (VObj o2)
  = Nat.eqb (List.length o1) (List.length o2)
    && forallb (fun p => match lookup o2 (fst p) with
                         | Some w => deep_equal (snd p) w
                         | None => false
                         end) o1.
Proof.
  simpl. f_equal.
Qed.

Lemma well_formed_object (o : props JSValue) :
  well_formed (VObj o) = true <->
  NoDup (map fst o) /\ forall k v, In (k, v) o -> well_formed v = true.
Proof.
  simpl. rewrite andb_true_iff, distinct_NoDup, forallb_forall.
  split; intros [D H]; (split; [exact D|]).
  - intros k v I. apply (H (k, v) I).
  - intros [k v] I. apply (H k v I).
Qed.

(** Objects that are deep-equal have the same keys. *)
Lemma deep_equal_keys (o1 o2 : props JSValue) :
  well_formed (VObj o1) = true ->
  deep_equal (VObj o1) (VObj o2) = true ->
  Permutation (map fst o1) (map fst o2).
Proof.
  intros W E. apply well_formed_object in W. destruct W as [D _].
  rewrite deep_equal_object, andb_true_iff, forallb_forall in E.
  destruct E as [L E]. apply Nat.eqb_eq in L.
  apply NoDup_Permutation_bis; [exact D|rewrite !length_map; lia|].
  intros k I. apply in_map_iff in I. destruct I as ([k' v] & <- & I).
  specialize (E _ I). simpl in *.
  destruct (lookup o2 k') eqn:Lk; [|discriminate].
  apply lookup_In in Lk. apply (in_map fst) in Lk. exact Lk.
Qed.

(** Canonicalization does not depend on the order in which keys were
    inserted. *)
Lemma sortObject_deep_equal (v1 : JSValue) :
  forall v2,
    well_formed v1 = true -> well_formed v2 = true ->
    deep_equal v1 v2 = true -> sortObject v1 = sortObject v2.
Proof.
  induction v1 as [| |b|x|s|d|l IH|o IH] using value_ind;
    intros [| |b'|x'|s'|d'|l'|o'] W1 W2 E; try discriminate; try reflexivity.
  - simpl in E. apply eqb_prop in E. now subst.
  - simpl in E. apply number_eqb_eq in E. now subst.
  - simpl in E. apply str_eqb_eq in E. now subst.
  - destruct d as [d|], d' as [d'|]; try discriminate; try reflexivity.
    simpl in E. apply str_eqb_eq in E. now subst.
  - apply deep_equal_array in E. simpl in W1, W2. simpl. f_equal.
    revert W1 W2 IH. induction E as [|a b l1 l2 Eab E IHE]; intros W1 W2 IH;
      [reflexivity|].
    simpl in W1, W2. apply andb_true_iff in W1, W2.
    inversion IH as [|? ? Pa Pl]; subst. simpl. f_equal.
    + apply Pa; tauto.
    + apply IHE; tauto.
  - pose proof (deep_equal_keys _ _ W1 E) as Pm.
    rewrite !sortObject_object. f_equal.
    assert (K : sort (Object_keys o) = sort (Object_keys o')).
    { apply sort_permutation_eq. now rewrite !Object_keys_perm. }
    rewrite <- K. apply fold_left_ext_in.
    intros res k I. f_equal.
    assert (Ik : In k (map fst o)).
    { eapply Permutation_in; [apply Object_keys_perm|].
      eapply Permutation_in; [apply sort_perm|exact I]. }
    apply in_map_iff in Ik. destruct Ik as ([k' v] & <- & Ik). simpl.
    apply well_formed_object in W1, W2. destruct W1 as [D1 W1], W2 as [D2 W2].
    rewrite deep_equal_object, andb_true_iff, forallb_forall in E.
    destruct E as [_ E]. specialize (E _ Ik). simpl in E.
    unfold obj_get. rewrite (lookup_NoDup_In _ _ _ D1 Ik).
    destruct (lookup o' k') as [w|] eqn:Lw; [|discriminate].
    rewrite Forall_forall in IH. apply (IH _ Ik); simpl; eauto.
    eapply W2, lookup_In, Lw.
Qed.

Lemma plain_keys_object (o : props JSValue) :
  plain_keys (VObj o) = true <->
  (forall k, In k (map fst o) -> is_index k = false /\ k <> proto_key)
  /\ forall k v, In (k, v) o -> plain_keys v = true.
Proof.
  simpl. rewrite andb_true_iff, !forallb_forall. split; intros [K V]; split.
  - intros k I. specialize (K k I). apply andb_true_iff in K.
    rewrite !negb_true_iff, str_eqb_neq in K. exact K.
  - intros k v I. apply (V (k, v) I).
  - intros k I. destruct (K k I) as [A B]. rewrite A. simpl.
    apply negb_true_iff, str_eqb_neq, B.
  - intros [k v] I. apply (V k v I).
Qed.

(** With no array-index key and no [__proto__] key, the rebuilt object
    lists every key of the input once, in sorted order. *)
Lemma sortObject_plain_object (o : props JSValue) :
  well_formed (VObj o) = true -> plain_keys (VObj o) = true ->
  sortObject (VObj o)
  = VObj (map (fun k => (k, sortObject (obj_get o k))) (sort (map fst o))).
Proof.
  intros W Pk. apply well_formed_object in W. destruct W as [D _].
  apply plain_keys_object in Pk. destruct Pk as [K _].
  rewrite sortObject_object. f_equal.
  assert (E : Object_keys o = map fst o).
  { unfold Object_keys. rewrite own_props_plain; [reflexivity|].
    apply forallb_forall. intros k I. now rewrite (proj1 (K k I)). }
  rewrite E.
  rewrite (fold_left_ext_in _ (fun res k => define_prop res k (sortObject (obj_get o k)))).
  - rewrite (fold_define_distinct (fun k => sortObject (obj_get o k))); [reflexivity|].
    simpl. eapply Permutation_NoDup; [apply Permutation_sym, sort_perm|exact D].
  - intros res k I. unfold obj_set.
    assert (Ik : In k (map fst o))
      by (eapply Permutation_in; [apply sort_perm|exact I]).
    destruct (str_eqb k proto_key) eqn:Ep; [|reflexivity].
    apply str_eqb_eq in Ep. now destruct (K k Ik).
Qed.

Lemma map_keys {A : Type} (f : jsstring -> A) (ks : list jsstring) :
  map fst (map (fun k => (k, f k)) ks) = ks.
Proof. rewrite map_map. simpl. apply map_id. Qed.

Lemma keys_in_order_sortObject (v : JSValue) :
  well_formed v = true -> plain_keys v = true ->
  keys_in_order str_leb (sortObject v) = true.
Proof.
  induction v as [| |b|x|s|d|l IH|o IH] using value_ind; intros W Pk;
    try reflexivity.
  - simpl in *. rewrite forallb_forall in *. intros e I.
    apply in_map_iff in I. destruct I as (e' & <- & I).
    rewrite Forall_forall in IH. apply IH; auto.
  - rewrite (sortObject_plain_object o W Pk).
    pose proof W as W'. pose proof Pk as Pk'.
    apply well_formed_object in W'. destruct W' as [D Wv].
    apply plain_keys_object in Pk'. destruct Pk' as [K Pv].
    cbn [keys_in_order]. apply andb_true_iff. split.
    + unfold Object_keys. rewrite own_props_plain.
      * rewrite map_keys. apply sort_sorted.
      * rewrite map_keys. apply forallb_forall. intros k I.
        assert (Ik : In k (map fst o))
          by (eapply Permutation_in; [apply sort_perm|exact I]).
        now rewrite (proj1 (K k Ik)).
    + apply forallb_forall. intros [k v] I. simpl.
      apply in_map_iff in I. destruct I as (k' & [= <- <-] & I).
      assert (Ik : In k' (map fst o))
        by (eapply Permutation_in; [apply sort_perm|exact I]).
      apply in_map_iff in Ik. destruct Ik as ([k1 v1] & <- & Ik). simpl.
      unfold obj_get. rewrite (lookup_NoDup_In _ _ _ D Ik).
      rewrite Forall_forall in IH. apply (IH _ Ik); simpl; eauto.
Qed.

(** C1, as the code has it.  Two well-formed records that are deep-equal
    as key/value structures, whatever the insertion order of their keys,
    have the same [stableStringify] text.  In a record none of whose keys is
    an array index or [__proto__], every object is rebuilt with all its
    keys in the order of UTF-16 code units, at every depth.  The elements of
    an array keep their order, and a date is passed through as it is and
    serialized as one scalar. *)
Theorem C1_canonical_form :
  (forall R1 R2,
     well_formed R1 = true -> well_formed R2 = true -> deep_equal R1 R2 = true ->
     stableStringify R1 = stableStringify R2)
  /\ (forall v,
        well_formed v = true -> plain_keys v = true ->
        keys_in_order str_leb (sortObject v) = true)
  /\ (forall o,
        well_formed (VObj o) = true -> plain_keys (VObj o) = true ->
        sortObject (VObj o)
        = VObj (map (fun k => (k, sortObject (obj_get o k))) (sort (map fst o))))
  /\ (forall l, sortObject (VArr l) = VArr (map sortObject l))
  /\ (forall d, sortObject (VDate d) = VDate d
                /\ stableStringify (VDate d)
                   = Some (match d with
                           | Some iso => QuoteJSONString iso
                           | None => lit "null"
                           end)).
Proof.
  split; [|split; [|split; [|split]]].
  - intros R1 R2 W1 W2 E. unfold stableStringify.
    now rewrite (sortObject_deep_equal R1 R2 W1 W2 E).
  - apply keys_in_order_sortObject.
  - apply sortObject_plain_object.
  - reflexivity.
  - intros [d|]; split; reflexivity.
Qed.

Lemma C1_witness :
  stableStringify (VObj [(lit "b", VNum (number_of_Z 1)); (lit "a", VNum (number_of_Z 2))])
  = stableStringify (VObj [(lit "a", VNum (number_of_Z 2)); (lit "b", VNum (number_of_Z 1))]).
Proof.
  apply (proj1 C1_canonical_form); vm_compute; reflexivity.
Defined.

(** Keys that are array indices come first in ascending numeric order, and
    keys are otherwise ordered by UTF-16 code units: neither is the order of
    code points. *)
Lemma C1_counterexample :
  (let R := VObj [(lit "10", VNum (number_of_Z 1)); (lit "9", VNum (number_of_Z 2))] in
   well_formed R = true
   /\ stableStringify R = Some (json_lit "{'9':2,'10':1}")
   /\ keys_in_order code_point_leb (sortObject R) = false)
  /\ (let R := VObj [([65374%N], VNum (number_of_Z 1));
                     ([55357%N; 56832%N], VNum (number_of_Z 2))] in
      well_formed R = true /\ plain_keys R = true
      /\ Object_keys (match sortObject R with VObj o => o | _ => [] end)
         = [[55357%N; 56832%N]; [65374%N]]
      /\ code_point_leb [55357%N; 56832%N] [65374%N] = false
      /\ keys_in_order code_point_leb (sortObject R) = false).
Proof.
  split; cbv zeta; repeat apply conj; vm_compute; reflexivity.
Qed.

(* ================================================================= *)
(** ** Decimal digits *)

Lemma pos_size_nat_bound (p : positive) :
  (Z.pos p < 2 ^ Z.of_nat (Pos.size_nat p))%Z.
Proof.
  induction p as [p IH|p IH|]; cbn [Pos.size_nat];
    rewrite ?Nat2Z.inj_succ, ?Z.pow_succ_r by lia; lia.
Qed.

Lemma N_size_nat_bound (n : N) : (n < 2 ^ N.of_nat (N.size_nat n))%N.
Proof.
  destruct n as [|p]; [reflexivity|].
  pose proof (pos_size_nat_bound p) as H. cbn [N.size_nat].
  apply N2Z.inj_lt. rewrite N2Z.inj_pow, nat_N_Z. exact H.
Qed.

Lemma digits_value_app (a b : list N) (acc : N) :
  digits_value acc (a ++ b) = digits_value (digits_value acc a) b.
Proof. revert acc; induction a as [|x a IH]; intros acc; simpl; auto. Qed.

Lemma digits_value_acc (ds : list N) :
  forall acc,
    digits_value acc ds
    = (acc * 10 ^ N.of_nat (List.length ds) + digits_value 0 ds)%N.
Proof.
  induction ds as [|d ds IH]; intros acc.
  - simpl. lia.
  - cbn [digits_value List.length]. rewrite (IH (10 * acc + d)%N), (IH (10 * 0 + d)%N).
    rewrite Nat2N.inj_succ, N.pow_succ_r'. lia.
Qed.

Lemma digits_value_zeros (j : nat) (acc : N) :
  digits_value acc (repeat 0%N j) = (acc * 10 ^ N.of_nat j)%N.
Proof.
  revert acc; induction j as [|j IH]; intros acc.
  - simpl. lia.
  - cbn [repeat digits_value]. rewrite IH, Nat2N.inj_succ, N.pow_succ_r'. lia.
Qed.

Lemma to_digits_aux_spec (fuel : nat) :
  forall n acc,
    (n = 0%N -> fuel <> O) -> (n < 2 ^ N.of_nat fuel)%N ->
    exists ds,
      to_digits_aux fuel n acc = ds ++ acc
      /\ digits_ok ds /\ ds <> []
      /\ (n <> 0%N -> hd 0%N ds <> 0%N)
      /\ digits_value 0 ds = n.
Proof.
  induction fuel as [|f IH]; intros n acc Z B.
  - simpl in B. assert (n = 0%N) by lia. now destruct Z.
  - cbn [to_digits_aux]. destruct (N.ltb_spec n 10) as [L|L].
    + exists [n]. split; [reflexivity|]. split; [now repeat constructor|].
      split; [discriminate|]. split; [auto|]. simpl. lia.
    + destruct (IH (n / 10)%N ((n mod 10)%N :: acc)) as (ds & E & Ok & Ne & Hd & V).
      * intros H. apply N.div_small_iff in H; lia.
      * rewrite Nat2N.inj_succ, N.pow_succ_r' in B.
        apply N.Div0.div_lt_upper_bound. lia.
      * exists (ds ++ [(n mod 10)%N]). rewrite <- app_assoc.
        split; [|split; [|split; [|split]]].
        -- exact E.
        -- apply Forall_app. split; [exact Ok|]. constructor; [|constructor].
           apply N.mod_lt. lia.
        -- destruct ds; discriminate.
        -- intros _. destruct ds as [|d ds]; [congruence|]. simpl. apply Hd.
           intros H. apply N.div_small_iff in H; lia.
        -- rewrite digits_value_app, V. cbn [digits_value].
           pose proof (N.div_mod n 10). lia.
Qed.

Lemma to_digits_spec (n : N) :
  digits_ok (to_digits n) /\ to_digits n <> []
  /\ (n <> 0%N -> hd 0%N (to_digits n) <> 0%N)
  /\ digits_value 0 (to_digits n) = n.
Proof.
  unfold to_digits.
  destruct (to_digits_aux_spec (S (N.size_nat n)) n []) as (ds & E & H).
  - discriminate.
  - pose proof (N_size_nat_bound n) as B.
    rewrite Nat2N.inj_succ, N.pow_succ_r'. lia.
  - rewrite E, app_nil_r. exact H.
Qed.

Lemma is_digit_unit (d : N) : (d < 10)%N -> is_digit (digit_unit d) = true.
Proof.
  intros H. unfold is_digit, digit_unit.
  apply andb_true_iff. split; apply N.leb_le; lia.
Qed.

Lemma ends_number_not_digit (rest : jsstring) : ends_number rest -> not_digit rest.
Proof. destruct rest; simpl; tauto. Qed.

Lemma span_digits_units (ds : list N) (rest : jsstring) :
  digits_ok ds -> not_digit rest ->
  span_digits (map digit_unit ds ++ rest) = (ds, rest).
Proof.
  intros Ok Nd. induction Ok as [|d ds Hd Ok IH]; cbn [map app span_digits].
  - destruct rest as [|c r]; [reflexivity|]. cbn [span_digits]. cbn [not_digit] in Nd.
    now rewrite Nd.
  - rewrite is_digit_unit by exact Hd. rewrite IH.
    unfold digit_unit. f_equal. f_equal. lia.
Qed.

Lemma span_digits_decimal (n : N) (rest : jsstring) :
  not_digit rest -> span_digits (decimal n ++ rest) = (to_digits n, rest).
Proof.
  intros Nd. apply span_digits_units; [apply to_digits_spec|exact Nd].
Qed.

(* ----------------------------------------------------------------- *)
(** *** Normal forms of numbers *)

Lemma strip10_normal (fuel : nat) :
  forall d e s e',
    (Z.pos d < 2 ^ Z.of_nat fuel)%Z -> strip10 fuel d e = (s, e') ->
    (Z.pos s mod 10 <> 0)%Z.
Proof.
  induction fuel as [|f IH]; intros d e s e' B H.
  - simpl in B. lia.
  - cbn [strip10] in H. destruct (Z.eqb_spec (Z.pos d mod 10) 0) as [M|M].
    + pose proof (Z.div_mod (Z.pos d) 10) as D.
      assert (Q : (0 < Z.pos d / 10)%Z) by lia.
      eapply IH; [|exact H]. rewrite Z2Pos.id by exact Q.
      rewrite Nat2Z.inj_succ, Z.pow_succ_r in B by lia.
      apply Z.div_lt_upper_bound; lia.
    + now injection H as <- <-.
Qed.

Lemma normalize_normal (d : positive) (e : Z) (s : positive) (e' : Z) :
  normalize d e = (s, e') -> (Z.pos s mod 10 <> 0)%Z.
Proof. apply strip10_normal, pos_size_nat_bound. Qed.


Lemma strip10_power (j : nat) :
  forall fuel d s e,
    Z.pos d = (Z.pos s * 10 ^ Z.of_nat j)%Z -> (Z.pos s mod 10 <> 0)%Z ->
    (j <= fuel)%nat ->
    strip10 fuel d e = (s, (e + Z.of_nat j)%Z).
Proof.
  induction j as [|j IH]; intros fuel d s e D M L.
  - rewrite Z.pow_0_r, Z.mul_1_r in D. injection D as ->.
    rewrite Z.add_0_r. destruct fuel; cbn [strip10]; [reflexivity|].
    destruct (Z.eqb_spec (Z.pos s mod 10) 0); [contradiction|reflexivity].
  - destruct fuel as [|f]; [lia|]. cbn [strip10].
    rewrite Nat2Z.inj_succ, Z.pow_succ_r in D by lia.
    assert (Dv : (Z.pos d / 10 = Z.pos s * 10 ^ Z.of_nat j)%Z).
    { rewrite D. replace (Z.pos s * (10 * 10 ^ Z.of_nat j))%Z
        with (Z.pos s * 10 ^ Z.of_nat j * 10)%Z by ring.
      apply Z.div_mul. lia. }
    assert (Md : (Z.pos d mod 10 = 0)%Z).
    { rewrite D. replace (Z.pos s * (10 * 10 ^ Z.of_nat j))%Z
        with (Z.pos s * 10 ^ Z.of_nat j * 10)%Z by ring.
      apply Z.mod_mul. lia. }
    rewrite Md. cbn [Z.eqb].
    rewrite (IH f (Z.to_pos (Z.pos d / 10)) s (e + 1)%Z); [f_equal; lia| |exact M|lia].
    rewrite Z2Pos.id; [exact Dv|]. rewrite Dv.
    assert (0 < 10 ^ Z.of_nat j)%Z by (apply Z.pow_pos_nonneg; lia). nia.
Qed.

Lemma make_number_power (neg : bool) (s : positive) (j : nat) (x : Z) :
  (Z.pos s mod 10 <> 0)%Z ->
  make_number neg (Npos s * 10 ^ N.of_nat j) x = Finite neg s (x + Z.of_nat j).
Proof.
  intros M.
  assert (P : (0 < 10 ^ Z.of_nat j)%Z) by (apply Z.pow_pos_nonneg; lia).
  destruct (Npos s * 10 ^ N.of_nat j)%N as [|d] eqn:E.
  - apply (f_equal Z.of_N) in E. rewrite N2Z.inj_mul, N2Z.inj_pow, nat_N_Z in E.
    change (Z.of_N (N.pos s)) with (Z.pos s) in E. change (Z.of_N 10) with 10%Z in E.
    change (Z.of_N 0) with 0%Z in E. nia.
  - assert (D : Z.pos d = (Z.pos s * 10 ^ Z.of_nat j)%Z).
    { apply (f_equal Z.of_N) in E.
      rewrite N2Z.inj_mul, N2Z.inj_pow, nat_N_Z in E.
      change (Z.of_N (N.pos s)) with (Z.pos s) in E. change (Z.of_N 10) with 10%Z in E.
      change (Z.of_N (N.pos d)) with (Z.pos d) in E. lia. }
    cbn [make_number]. unfold normalize.
    rewrite (strip10_power j _ d s x D M); [reflexivity|].
    pose proof (pos_size_nat_bound d) as B.
    assert (T : (2 ^ Z.of_nat j <= 10 ^ Z.of_nat j)%Z)
      by (apply Z.pow_le_mono_l; lia).
    assert (Lt : (2 ^ Z.of_nat j < 2 ^ Z.of_nat (Pos.size_nat d))%Z) by nia.
    apply Z.pow_lt_mono_r_iff in Lt; lia.
Qed.

Lemma make_number_normal (neg : bool) (s : positive) (x : Z) :
  (Z.pos s mod 10 <> 0)%Z -> make_number neg (Npos s) x = Finite neg s x.
Proof.
  intros M. pose proof (make_number_power neg s 0 x M) as H.
  change (N.of_nat 0) with 0%N in H. change (Z.of_nat 0) with 0%Z in H.
  rewrite N.pow_0_r, N.mul_1_r, Z.add_0_r in H. exact H.
Qed.

(* ----------------------------------------------------------------- *)
(** *** Reading back the text of a number *)

Lemma parse_fraction_none (rest : jsstring) :
  ends_number rest -> parse_fraction rest = Some ([], rest).
Proof.
  destruct rest as [|c r]; [reflexivity|]. intros (_ & D & _).
  cbn [parse_fraction]. apply N.eqb_neq in D. now rewrite D.
Qed.

Lemma parse_exponent_none (rest : jsstring) :
  ends_number rest -> parse_exponent rest = Some (0%Z, rest).
Proof.
  destruct rest as [|c r]; [reflexivity|]. intros (_ & _ & E1 & E2).
  cbn [parse_exponent]. apply N.eqb_neq in E1, E2. now rewrite E1, E2.
Qed.

Lemma parse_fraction_digits (fs : list N) (rest : jsstring) :
  fs <> [] -> digits_ok fs -> not_digit rest ->
  parse_fraction (46%N :: map digit_unit fs ++ rest) = Some (fs, rest).
Proof.
  intros Ne Ok Nd. cbn [parse_fraction]. rewrite N.eqb_refl.
  rewrite span_digits_units by assumption. now destruct fs.
Qed.

Lemma parse_exponent_digits (x : Z) (rest : jsstring) :
  not_digit rest ->
  parse_exponent (101%N :: (if (x <? 0)%Z then lit "-" else lit "+")
                  ++ decimal (Z.abs_N x) ++ rest)
  = Some (x, rest).
Proof.
  intros Nd.
  destruct (to_digits_spec (Z.abs_N x)) as (Ok & Ne & _ & V).
  pose proof (span_digits_decimal (Z.abs_N x) rest Nd) as Sp.
  destruct (Z.ltb_spec x 0) as [L|L].
  - change (lit "-") with [45%N]. unfold parse_exponent.
    change (101 =? 101)%N with true. cbn [orb app]. change (45 =? 45)%N with true.
    cbv iota beta. rewrite Sp.
    destruct (to_digits (Z.abs_N x)) eqn:T; [congruence|]. rewrite V.
    f_equal. f_equal. lia.
  - change (lit "+") with [43%N]. unfold parse_exponent.
    change (101 =? 101)%N with true. cbn [orb app]. change (43 =? 45)%N with false.
    change (43 =? 43)%N with true. cbv iota beta. rewrite Sp.
    destruct (to_digits (Z.abs_N x)) eqn:T; [congruence|]. rewrite V.
    f_equal. f_equal. lia.
Qed.

Lemma parse_unsigned_parts (neg : bool) (ip fs : list N) (mid1 mid2 rest : jsstring)
    (ex : Z) :
  digits_ok ip -> ip <> [] -> (hd 0%N ip <> 0%N \/ List.length ip = 1%nat) ->
  not_digit mid1 ->
  parse_fraction mid1 = Some (fs, mid2) ->
  parse_exponent mid2 = Some (ex, rest) ->
  parse_unsigned neg (map digit_unit ip ++ mid1)
  = Some (make_number neg (digits_value 0 (ip ++ fs)) (ex - Z.of_nat (List.length fs)),
          rest).
Proof.
  intros Ok Ne Lead Nd F E. unfold parse_unsigned.
  rewrite span_digits_units by assumption.
  destruct ip as [|d ds]; [congruence|].
  assert (C : (d =? 0)%N && negb (Nat.eqb (List.length ds) 0) = false).
  { destruct Lead as [H|H].
    - simpl in H. apply N.eqb_neq in H. now rewrite H.
    - destruct ds; [|discriminate]. simpl. apply andb_false_r. }
  rewrite C, F, E. reflexivity.
Qed.

Lemma digits_ok_split (m : nat) (ds : list N) :
  digits_ok ds -> digits_ok (firstn m ds) /\ digits_ok (skipn m ds).
Proof.
  intros Ok. unfold digits_ok in *. rewrite <- (firstn_skipn m ds) in Ok.
  now apply Forall_app in Ok.
Qed.

Lemma digits_ok_zeros (j : nat) : digits_ok (repeat 0%N j).
Proof. induction j; simpl; constructor; [lia|assumption]. Qed.

Lemma zeros_units (j : nat) : repeat 48%N j = map digit_unit (repeat 0%N j).
Proof. now rewrite map_repeat. Qed.

(** The text [Number::toString] gives for a positive number reads back as
    that number, in normal form. *)
Lemma parse_unsigned_toString (neg : bool) (d : positive) (e : Z) (rest : jsstring) :
  ends_number rest ->
  parse_unsigned neg (positive_toString d e ++ rest)
  = Some (normal_number (Finite neg d e), rest).
Proof.
  intros En. pose proof (ends_number_not_digit rest En) as Nd.
  unfold positive_toString, normal_number.
  destruct (normalize d e) as [s e'] eqn:Nm.
  pose proof (normalize_normal _ _ _ _ Nm) as M.
  destruct (to_digits_spec (Npos s)) as (Ok & Ne & Hd & V).
  assert (Hd' : hd 0%N (to_digits (Npos s)) <> 0%N) by (apply Hd; discriminate).
  clear Hd. unfold decimal. rewrite length_map.
  set (ds := to_digits (Npos s)) in *. clearbody ds.
  assert (K : (1 <= List.length ds)%nat) by (destruct ds; [congruence|simpl; lia]).
  set (k := Z.of_nat (List.length ds)).
  set (n := (e' + k)%Z).
  destruct ((k <=? n)%Z && (n <=? 21)%Z) eqn:B1.
  { (* digits followed by zeros *)
    apply andb_true_iff in B1. destruct B1 as [B1 _]. apply Z.leb_le in B1.
    rewrite zeros_units, <- map_app.
    rewrite (parse_unsigned_parts neg _ [] rest rest rest 0);
      [| apply Forall_app; split; [exact Ok|apply digits_ok_zeros]
       | destruct ds; [congruence|discriminate]
       | left; destruct ds; [congruence|exact Hd']
       | exact Nd
       | now apply parse_fraction_none
       | now apply parse_exponent_none ].
    rewrite app_nil_r, digits_value_app, V, digits_value_zeros.
    rewrite make_number_power by exact M. do 3 f_equal.
    cbn [List.length]. unfold n, k in *. lia. }
  destruct ((0 <? n)%Z && (n <=? 21)%Z) eqn:B2.
  { (* digits with a point inside *)
    apply andb_true_iff in B2. destruct B2 as [B2 B2']. apply Z.ltb_lt in B2.
    apply Z.leb_le in B2'.
    assert (B1' : (n < k)%Z).
    { apply andb_false_iff in B1. destruct B1 as [B1|B1].
      - apply Z.leb_gt in B1. exact B1.
      - apply Z.leb_gt in B1. lia. }
    rewrite firstn_map, skipn_map. change (lit ".") with [46%N].
    rewrite <- !app_assoc. cbn [app].
    destruct (digits_ok_split (Z.to_nat n) ds Ok) as [OkF OkS].
    assert (LF : List.length (firstn (Z.to_nat n) ds) = Z.to_nat n)
      by (apply firstn_length_le; unfold k in *; lia).
    assert (LS : List.length (skipn (Z.to_nat n) ds) = (List.length ds - Z.to_nat n)%nat)
      by apply length_skipn.
    rewrite (parse_unsigned_parts neg _ (skipn (Z.to_nat n) ds) _ rest rest 0);
      [| exact OkF
       | intros H; rewrite H in LF; simpl in LF; lia
       | left; destruct ds as [|d0 dr]; [congruence|];
         destruct (Z.to_nat n) eqn:Tn; [lia|exact Hd']
       | reflexivity
       | apply parse_fraction_digits;
         [intros H; rewrite H in LS; simpl in LS; unfold k in *; lia|exact OkS|exact Nd]
       | now apply parse_exponent_none ].
    rewrite firstn_skipn, V, make_number_normal by exact M.
    do 3 f_equal. rewrite LS. unfold n, k in *. lia. }
  destruct ((-6 <? n)%Z && (n <=? 0)%Z) eqn:B3.
  { (* zero, point, zeros, digits *)
    apply andb_true_iff in B3. destruct B3 as [_ B3]. apply Z.leb_le in B3.
    change (lit "0.") with (map digit_unit [0%N] ++ [46%N]).
    rewrite zeros_units, <- !app_assoc, (app_assoc (map digit_unit (repeat 0%N _))),
      <- map_app.
    cbn [app].
    rewrite (parse_unsigned_parts neg [0%N] (repeat 0%N (Z.to_nat (- n)) ++ ds) _ rest rest 0);
      [| repeat constructor; lia
       | discriminate
       | now right
       | reflexivity
       | apply parse_fraction_digits;
         [destruct ds; [congruence|]; destruct (repeat 0%N (Z.to_nat (- n))); discriminate
         |apply Forall_app; split; [apply digits_ok_zeros|exact Ok]
         |exact Nd]
       | now apply parse_exponent_none ].
    cbn [app digits_value]. rewrite digits_value_app, digits_value_zeros.
    change (10 * 0 + 0)%N with 0%N. rewrite N.mul_0_l, V.
    rewrite make_number_normal by exact M.
    do 3 f_equal. rewrite length_app, repeat_length. unfold n, k in *. lia. }
  (* exponent notation *)
  assert (Nd' : not_digit
                  (101%N :: (if (n - 1 <? 0)%Z then lit "-" else lit "+")
                   ++ decimal (Z.abs_N (n - 1)) ++ rest)) by reflexivity.
  change (lit "e") with [101%N]. change (lit ".") with [46%N].
  destruct ds as [|d0 dr] eqn:Dds; [congruence|]. cbn [map].
  assert (Ok0 : digits_ok [d0]) by (inversion Ok; subst; repeat constructor; assumption).
  assert (OkR : digits_ok dr) by (inversion Ok; subst; assumption).
  destruct dr as [|d1 dr'].
  - repeat (progress cbn [map app] || rewrite <- app_assoc).
    change (digit_unit d0 :: ?x) with (map digit_unit [d0] ++ x).
    change (map digit_unit (to_digits (Z.abs_N (n - 1))))
      with (decimal (Z.abs_N (n - 1))).
    rewrite (parse_unsigned_parts neg [d0] []
               (101%N :: (if (n - 1 <? 0)%Z then lit "-" else lit "+")
                ++ decimal (Z.abs_N (n - 1)) ++ rest)
               (101%N :: (if (n - 1 <? 0)%Z then lit "-" else lit "+")
                ++ decimal (Z.abs_N (n - 1)) ++ rest)
               rest (n - 1));
      [| exact Ok0 | discriminate | now right | exact Nd' | reflexivity
       | now apply parse_exponent_digits ].
    rewrite app_nil_r, V, make_number_normal by exact M.
    do 3 f_equal. cbn [List.length] in *. unfold n, k in *. cbn [List.length]. lia.
  - repeat (progress cbn [map app] || rewrite <- app_assoc).
    change (digit_unit d1 :: map digit_unit dr' ++ ?x)
      with (map digit_unit (d1 :: dr') ++ x).
    change (digit_unit d0 :: ?x) with (map digit_unit [d0] ++ x).
    change (map digit_unit (to_digits (Z.abs_N (n - 1))))
      with (decimal (Z.abs_N (n - 1))).
    rewrite (parse_unsigned_parts neg [d0] (d1 :: dr')
               (46%N :: map digit_unit (d1 :: dr')
                ++ 101%N :: (if (n - 1 <? 0)%Z then lit "-" else lit "+")
                ++ decimal (Z.abs_N (n - 1)) ++ rest)
               (101%N :: (if (n - 1 <? 0)%Z then lit "-" else lit "+")
                ++ decimal (Z.abs_N (n - 1)) ++ rest)
               rest (n - 1));
      [| exact Ok0 | discriminate | now right | reflexivity
       | apply parse_fraction_digits; [discriminate|exact OkR|reflexivity]
       | now apply parse_exponent_digits ].
    cbn [app]. rewrite V, make_number_normal by exact M.
    do 3 f_equal. unfold n, k. cbn [List.length]. lia.
Qed.

Lemma parse_unsigned_head (neg : bool) (s : jsstring) (r : number * jsstring) :
  parse_unsigned neg s = Some r -> exists c t, s = c :: t /\ is_digit c = true.
Proof.
  unfold parse_unsigned. destruct s as [|c t]; [discriminate|].
  cbn [span_digits]. destruct (is_digit c) eqn:D; [eauto|discriminate].
Qed.

(** The text of a finite number starts with a digit or a minus sign, and
    reads back as the number in normal form. *)
Lemma parse_number_toString (x : number) (rest : jsstring) :
  Number_isFinite x = true -> ends_number rest ->
  parse_number (Number_toString x ++ rest) = Some (normal_number x, rest)
  /\ exists c t, Number_toString x = c :: t /\ (is_digit c = true \/ c = 45%N).
Proof.
  intros F En. destruct x as [|b|b|neg d e]; try discriminate.
  - split; [|exists 48%N, []; split; [reflexivity|now left]].
    change (Number_toString (Zero b)) with (map digit_unit [0%N]).
    unfold parse_number. cbn [map app]. change (digit_unit 0 =? 45)%N with false.
    cbv iota.
    change (digit_unit 0 :: rest) with (map digit_unit [0%N] ++ rest).
    rewrite (parse_unsigned_parts false [0%N] [] rest rest rest 0);
      [reflexivity| repeat constructor; lia | discriminate | now right
      | now apply ends_number_not_digit | now apply parse_fraction_none
      | now apply parse_exponent_none].
  - pose proof (parse_unsigned_toString neg d e rest En) as P.
    destruct (parse_unsigned_head _ _ _ P) as (c & t & E & D).
    destruct (positive_toString d e) as [|c' t'] eqn:T.
    { pose proof (parse_unsigned_toString neg d e [] I) as P'.
      rewrite T in P'. discriminate. }
    cbn [app] in E. injection E as <- <-.
    cbn [Number_toString]. rewrite T. destruct neg.
    + split; [|exists 45%N, (c' :: t'); split; [reflexivity|now right]].
      change (lit "-") with [45%N]. cbn [app parse_number].
      change (45 =? 45)%N with true. cbv iota. exact P.
    + split; [|exists c', t'; split; [reflexivity|now left]].
      cbn [app parse_number].
      assert (C : (c' =? 45)%N = false).
      { apply N.eqb_neq. intros ->. discriminate. }
      rewrite C. exact P.
Qed.

(* ----------------------------------------------------------------- *)
(** *** Reading back the text of a string *)

Lemma hex_value_unit (d : N) : (d < 16)%N -> hex_value (hex_unit d) = Some d.
Proof.
  intros H. unfold hex_unit, hex_value, is_digit.
  destruct (N.ltb_spec d 10).
  - replace ((48 <=? 48 + d)%N && (48 + d <=? 57)%N) with true
      by (symmetry; apply andb_true_iff; split; apply N.leb_le; lia).
    f_equal. lia.
  - replace ((48 <=? 87 + d)%N && (87 + d <=? 57)%N) with false
      by (symmetry; apply andb_false_iff; right; apply N.leb_gt; lia).
    replace ((97 <=? 87 + d)%N && (87 + d <=? 102)%N) with true
      by (symmetry; apply andb_true_iff; split; apply N.leb_le; lia).
    f_equal. lia.
Qed.

Lemma parse_unicode_escape (c : N) (text : jsstring) :
  (c < 65536)%N ->
  parse_units (unicode_escape c ++ text) = cons_unit c (parse_units text).
Proof.
  intros B. unfold unicode_escape. cbn [app parse_units].
  change (92 =? 34)%N with false. change (92 =? 92)%N with true.
  change (117 =? 117)%N with true. cbv iota.
  unfold hex4. rewrite !hex_value_unit by (apply N.mod_lt; lia).
  replace ((c / 4096) mod 16 * 4096 + (c / 256) mod 16 * 256
           + (c / 16) mod 16 * 16 + c mod 16)%N with c; [reflexivity|].
  assert (c / 4096 < 16)%N by (apply N.Div0.div_lt_upper_bound; lia).
  rewrite (N.mod_small (c / 4096) 16) by assumption.
  pose proof (N.div_mod c 16). pose proof (N.div_mod (c / 16) 16).
  pose proof (N.div_mod (c / 256) 16).
  replace (c / 256)%N with (c / 16 / 16)%N in * by (rewrite N.Div0.div_div; reflexivity).
  replace (c / 4096)%N with (c / 16 / 16 / 16)%N
    by (rewrite !N.Div0.div_div; reflexivity).
  lia.
Qed.

Lemma parse_quote_unit (c : N) (text : jsstring) :
  parse_units (quote_unit c ++ text) = cons_unit c (parse_units text).
Proof.
  unfold quote_unit.
  destruct (N.eqb_spec c 8) as [->|N8]; [reflexivity|].
  destruct (N.eqb_spec c 9) as [->|N9]; [reflexivity|].
  destruct (N.eqb_spec c 10) as [->|N10]; [reflexivity|].
  destruct (N.eqb_spec c 12) as [->|N12]; [reflexivity|].
  destruct (N.eqb_spec c 13) as [->|N13]; [reflexivity|].
  destruct (N.eqb_spec c 34) as [->|N34]; [reflexivity|].
  destruct (N.eqb_spec c 92) as [->|N92]; [reflexivity|].
  destruct ((c <? 32)%N || is_high_surrogate c || is_low_surrogate c) eqn:E.
  - apply parse_unicode_escape.
    unfold is_high_surrogate, is_low_surrogate in E.
    rewrite !orb_true_iff, !andb_true_iff, N.ltb_lt, !N.leb_le in E. lia.
  - rewrite !orb_false_iff in E. destruct E as [[E _] _].
    cbn [app parse_units].
    apply N.eqb_neq in N34, N92. now rewrite N34, N92, E.
Qed.

Lemma parse_literal_unit (c : N) (text : jsstring) :
  (57344 <= c \/ 55296 <= c)%N ->
  parse_units (c :: text) = cons_unit c (parse_units text).
Proof.
  intros B. cbn [parse_units].
  replace (c =? 34)%N with false by (symmetry; apply N.eqb_neq; lia).
  replace (c =? 92)%N with false by (symmetry; apply N.eqb_neq; lia).
  replace (c <? 32)%N with false by (symmetry; apply N.ltb_ge; lia).
  reflexivity.
Qed.

Lemma parse_quote_units_bounded (n : nat) :
  forall s text,
    (List.length s <= n)%nat ->
    parse_units (quote_units s ++ 34%N :: text) = Some (s, text).
Proof.
  induction n as [|n IH]; intros s text L.
  - destruct s; [|simpl in L; lia]. cbn [quote_units app parse_units].
    reflexivity.
  - destruct s as [|c r]; [reflexivity|]. cbn [quote_units].
    destruct r as [|d r'].
    + rewrite parse_quote_unit. cbn [parse_units]. reflexivity.
    + destruct (is_high_surrogate c && is_low_surrogate d) eqn:Sg.
      * apply andb_true_iff in Sg. destruct Sg as [Hc Ld].
        unfold is_high_surrogate in Hc. unfold is_low_surrogate in Ld.
        rewrite andb_true_iff, !N.leb_le in Hc, Ld.
        cbn [app]. rewrite !parse_literal_unit by lia.
        rewrite IH by (simpl in *; lia). reflexivity.
      * rewrite <- app_assoc, parse_quote_unit.
        rewrite IH by (simpl in *; lia). reflexivity.
Qed.

(** A quoted string reads back as the string. *)
Lemma parse_quoted (s text : jsstring) :
  parse_units (quote_units s ++ 34%N :: text) = Some (s, text).
Proof. now apply (parse_quote_units_bounded (List.length s)). Qed.

(* ----------------------------------------------------------------- *)
(** *** Reading back the text of a value *)

Lemma ends_value_number (rest : jsstring) : ends_value rest -> ends_number rest.
Proof.
  destruct rest as [|c r]; [trivial|]. cbn [ends_value ends_number].
  intros [-> | [-> | ->]]; repeat split; discriminate.
Qed.

Lemma skip_ws_ends_value (rest : jsstring) : ends_value rest -> skip_ws rest = rest.
Proof.
  destruct rest as [|c r]; [reflexivity|]. cbn [ends_value].
  intros [-> | [-> | ->]]; reflexivity.
Qed.

Lemma skip_ws_head (c : N) (r : jsstring) :
  is_ws c = false -> skip_ws (c :: r) = c :: r.
Proof. intros H. cbn [skip_ws]. now rewrite H. Qed.

Lemma number_head (c : N) :
  is_digit c = true \/ c = 45%N ->
  is_ws c = false
  /\ (c =? 123)%N = false /\ (c =? 91)%N = false /\ (c =? 34)%N = false
  /\ (c =? 116)%N = false /\ (c =? 102)%N = false /\ (c =? 110)%N = false
  /\ c <> 93%N /\ c <> 125%N.
Proof.
  unfold is_digit, is_ws. rewrite andb_true_iff, !N.leb_le. intros H.
  repeat split; try (apply N.eqb_neq; lia); try lia.
  rewrite !orb_false_iff. repeat split; apply N.eqb_neq; lia.
Qed.

Lemma stringify_undefined (v : JSValue) :
  JSON_stringify v = None <-> is_undefined v = true.
Proof.
  destruct v as [| |[]|x|s|[d|]|l|o]; simpl; split; try discriminate; reflexivity.
Qed.

Lemma stringify_head (v : JSValue) (s : jsstring) :
  JSON_stringify v = Some s -> exists c t, s = c :: t /\ value_head c.
Proof.
  assert (Q : forall u, exists c t, QuoteJSONString u = c :: t /\ value_head c).
  { intros u. exists 34%N, (quote_units u ++ [34%N]).
    split; [reflexivity|]. repeat split; discriminate. }
  assert (Nl : exists c t, lit "null" = c :: t /\ value_head c).
  { exists 110%N, (lit "ull"). split; [reflexivity|]. repeat split; discriminate. }
  destruct v as [| |[]|x|u|[d|]|l|o]; cbn [JSON_stringify]; intros [= <-]; auto.
  - exists 116%N, (lit "rue"). split; [reflexivity|]. repeat split; discriminate.
  - exists 102%N, (lit "alse"). split; [reflexivity|]. repeat split; discriminate.
  - destruct (Number_isFinite x) eqn:F; [|exact Nl].
    destruct (parse_number_toString x [] F I) as (_ & c & t & E & H).
    exists c, t. split; [exact E|]. apply number_head in H. unfold value_head. tauto.
  - eexists 91%N, _. split; [reflexivity|]. repeat split; discriminate.
  - eexists 123%N, _. split; [reflexivity|]. repeat split; discriminate.
Qed.

Lemma parsed_back_undefined (v : JSValue) :
  is_undefined (parsed_back v) = is_undefined v.
Proof.
  destruct v as [| |b|x|s|[d|]|l|o]; try reflexivity.
  cbn [parsed_back]. now destruct (Number_isFinite x).
Qed.

Lemma insert_index_map {A B : Type} (f : A -> B) (i : N) (p : jsstring * A) l :
  insert_index i (fst p, f (snd p))
    (map (fun q => (fst q, (fst (snd q), f (snd (snd q))))) l)
  = map (fun q => (fst q, (fst (snd q), f (snd (snd q))))) (insert_index i p l).
Proof.
  induction l as [|[j q] l IH]; [reflexivity|]. cbn [map insert_index fst snd].
  destruct (i <? j)%N; [reflexivity|]. cbn [map fst snd]. now rewrite IH.
Qed.

Lemma index_props_map {A B : Type} (f : A -> B) (o : props A) :
  index_props (map (fun p => (fst p, f (snd p))) o)
  = map (fun q => (fst q, (fst (snd q), f (snd (snd q))))) (index_props o).
Proof.
  induction o as [|p o IH]; [reflexivity|]. cbn [map index_props fst].
  rewrite IH. destruct (array_index (fst p)); [|reflexivity].
  apply (insert_index_map f n p).
Qed.

(** Enumeration order depends on the keys only. *)
Lemma own_props_map {A B : Type} (f : A -> B) (o : props A) :
  own_props (map (fun p => (fst p, f (snd p))) o)
  = map (fun p => (fst p, f (snd p))) (own_props o).
Proof.
  unfold own_props. rewrite index_props_map, map_app, !map_map. f_equal.
  induction o as [|p o IH]; [reflexivity|]. cbn [map filter fst].
  destruct (negb (is_index (fst p))); cbn [map]; now rewrite IH.
Qed.

Lemma members_map (L : props JSValue) :
  members (map (fun p => (fst p, JSON_stringify (snd p))) L)
  = map member_text (filter defined L).
Proof.
  induction L as [|[k v] L IH]; [reflexivity|].
  cbn [map members fst snd filter]. unfold defined at 1. cbn [snd].
  destruct (JSON_stringify v) as [s|] eqn:S.
  - assert (U : is_undefined v = false).
    { destruct (is_undefined v) eqn:U; [|reflexivity].
      apply stringify_undefined in U. congruence. }
    rewrite U. cbn [negb map]. rewrite IH. unfold member_text at 2.
    cbn [fst snd]. now rewrite S.
  - apply stringify_undefined in S. rewrite S. exact IH.
Qed.

Lemma join_cons (sep a b : jsstring) (r : list jsstring) :
  join sep (a :: b :: r) = a ++ sep ++ join sep (b :: r).
Proof. reflexivity. Qed.

Lemma parse_value_fuel_O (s : jsstring) : parse_value 0 s = None.
Proof. reflexivity. Qed.

Lemma parse_elements_S (f : nat) (acc : list JSValue) (s : jsstring) :
  parse_elements (S f) acc s
  = match parse_value f s with
    | None => None
    | Some (v, r) =>
        match skip_ws r with
        | c :: r' =>
            if (c =? 44)%N then parse_elements f (v :: acc) r'
            else if (c =? 93)%N then Some (VArr (rev (v :: acc)), r')
            else None
        | [] => None
        end
    end.
Proof. reflexivity. Qed.

Lemma parse_members_S (f : nat) (acc : props JSValue) (s : jsstring) :
  parse_members (S f) acc s
  = match skip_ws s with
    | q :: r =>
        if (q =? 34)%N then
          match parse_units r with
          | None => None
          | Some (k, r1) =>
              match skip_ws r1 with
              | cl :: r2 =>
                  if (cl =? 58)%N then
                    match parse_value f r2 with
                    | None => None
                    | Some (v, r3) =>
                        match skip_ws r3 with
                        | c :: r4 =>
                            if (c =? 44)%N
                            then parse_members f (define_prop acc k v) r4
                            else if (c =? 125)%N
                            then Some (VObj (define_prop acc k v), r4)
                            else None
                        | [] => None
                        end
                    end
                  else None
              | [] => None
              end
          end
        else None
    | [] => None
    end.
Proof. reflexivity. Qed.

Lemma reads_back_null : reads_back VNull.
Proof.
  intros s [= <-] rest fuel _ F. destruct fuel as [|f]; [simpl in F; lia|].
  reflexivity.
Qed.

Lemma element_text_length (e : JSValue) :
  (1 <= List.length (element (JSON_stringify e)))%nat.
Proof.
  destruct (JSON_stringify e) as [s|] eqn:S; cbn [element]; [|simpl; lia].
  destruct (stringify_head e s S) as (c & t & -> & _). simpl. lia.
Qed.

Lemma element_reads_back (e : JSValue) :
  reads_back e ->
  forall rest fuel, ends_value rest ->
    (2 * List.length (element (JSON_stringify e)) <= fuel)%nat ->
    parse_value fuel (element (JSON_stringify e) ++ rest) = Some (element_back e, rest).
Proof.
  intros R rest fuel En F. unfold element_back.
  destruct (JSON_stringify e) as [s|] eqn:S; cbn [element] in *.
  - assert (U : is_undefined e = false).
    { destruct (is_undefined e) eqn:U; [|reflexivity].
      apply stringify_undefined in U. congruence. }
    rewrite U. now apply R.
  - apply stringify_undefined in S. rewrite S. now apply reads_back_null.
Qed.

Lemma parse_elements_join (l : list JSValue) :
  l <> [] -> Forall reads_back l ->
  forall acc rest fuel,
    (2 * List.length (join (lit ",") (map (fun e => element (JSON_stringify e)) l)) + 1
     <= fuel)%nat ->
    parse_elements fuel acc
      (join (lit ",") (map (fun e => element (JSON_stringify e)) l) ++ 93%N :: rest)
    = Some (VArr (rev acc ++ map element_back l), rest).
Proof.
  induction l as [|e l IH]; [congruence|]. intros _ R acc rest fuel F.
  inversion R as [|? ? Re Rl]; subst.
  destruct fuel as [|f]; [lia|]. rewrite parse_elements_S.
  pose proof (element_text_length e) as Le.
  destruct l as [|e2 l'].
  - cbn [map join] in *.
    rewrite (element_reads_back e Re) by (cbn [ends_value]; auto; lia).
    cbn [skip_ws is_ws]. change (93 =? 32)%N with false.
    cbn [rev map]. reflexivity.
  - cbn [map] in *. rewrite join_cons in *. rewrite <- !app_assoc.
    change (lit ",") with [44%N] in *. cbn [app] in *.
    rewrite length_app in F. cbn [List.length] in F.
    rewrite (element_reads_back e Re) by (cbn [ends_value]; auto; lia).
    cbn [skip_ws is_ws]. change (44 =? 32)%N with false. cbn.
    rewrite IH; [|discriminate|exact Rl|lia].
    cbn [rev map]. now rewrite <- app_assoc.
Qed.

Lemma element_text_head (e : JSValue) :
  exists c t, element (JSON_stringify e) = c :: t /\ value_head c.
Proof.
  destruct (JSON_stringify e) as [s|] eqn:S; cbn [element].
  - exact (stringify_head e s S).
  - exists 110%N, (lit "ull"). split; [reflexivity|]. repeat split; discriminate.
Qed.

Lemma join_head (sep a : jsstring) (r : list jsstring) (c : N) (t : jsstring) :
  a = c :: t -> exists t', forall tail, join sep (a :: r) ++ tail = c :: t' ++ tail.
Proof.
  intros ->. destruct r as [|b r].
  - exists t. reflexivity.
  - exists (t ++ sep ++ join sep (b :: r)). intros tail. rewrite join_cons.
    cbn [app]. now rewrite <- !app_assoc.
Qed.

Lemma member_text_shape (p : jsstring * JSValue) (tail : jsstring) :
  member_text p ++ tail
  = 34%N :: quote_units (fst p)
    ++ 34%N :: 58%N :: element (JSON_stringify (snd p)) ++ tail.
Proof.
  unfold member_text, QuoteJSONString. change (lit ":") with [58%N].
  cbn [app]. now rewrite <- !app_assoc.
Qed.

Lemma member_text_length (p : jsstring * JSValue) :
  (List.length (element (JSON_stringify (snd p))) + 3 <= List.length (member_text p))%nat.
Proof.
  unfold member_text, QuoteJSONString. change (lit ":") with [58%N].
  cbn [app List.length]. rewrite !length_app. cbn [List.length]. lia.
Qed.

(** One step of [parse_members] on the text of a member. *)
Lemma parse_member_step (f : nat) (acc : props JSValue) (k : jsstring) (v : JSValue)
    (tail : jsstring) :
  reads_back v -> ends_value tail ->
  (2 * List.length (element (JSON_stringify v)) <= f)%nat ->
  ~ In k (map fst acc) ->
  parse_members (S f) acc (member_text (k, v) ++ tail)
  = match tail with
    | c :: r4 =>
        if (c =? 44)%N
        then parse_members f (acc ++ [(k, element_back v)]) r4
        else if (c =? 125)%N
        then Some (VObj (acc ++ [(k, element_back v)]), r4)
        else None
    | [] => None
    end.
Proof.
  intros R En F Fresh. rewrite parse_members_S, member_text_shape. cbn [fst snd].
  rewrite skip_ws_head by reflexivity. change (34 =? 34)%N with true. cbv iota.
  rewrite parse_quoted.
  rewrite skip_ws_head by reflexivity. change (58 =? 58)%N with true. cbv iota.
  rewrite (element_reads_back v R tail f En F).
  rewrite (skip_ws_ends_value tail En).
  now rewrite define_prop_fresh.
Qed.

Lemma parse_members_join (D : props JSValue) :
  D <> [] -> Forall (fun p => reads_back (snd p)) D ->
  forall acc rest fuel,
    NoDup (map fst acc ++ map fst D) ->
    (2 * List.length (join (lit ",") (map member_text D)) + 1 <= fuel)%nat ->
    parse_members fuel acc (join (lit ",") (map member_text D) ++ 125%N :: rest)
    = Some (VObj (acc ++ map (fun p => (fst p, element_back (snd p))) D), rest).
Proof.
  induction D as [|[k v] D IH]; [congruence|]. intros _ R acc rest fuel Nd F.
  inversion R as [|? ? Rv RD]; subst. cbn [snd] in Rv.
  destruct fuel as [|f]; [lia|].
  pose proof (member_text_length (k, v)) as Lm. cbn [snd] in Lm.
  assert (Fresh : ~ In k (map fst acc)).
  { cbn [map fst] in Nd. apply NoDup_remove_2 in Nd. intros H. apply Nd.
    apply in_or_app. now left. }
  assert (Nd' : NoDup (map fst (acc ++ [(k, element_back v)]) ++ map fst D)).
  { rewrite map_app, <- app_assoc. exact Nd. }
  destruct D as [|p2 D'].
  - cbn [map join] in *.
    rewrite parse_member_step; [|exact Rv|cbn [ends_value]; auto|lia|exact Fresh].
    reflexivity.
  - cbn [map] in *. rewrite join_cons in *. change (lit ",") with [44%N] in *.
    rewrite <- !app_assoc. cbn [app].
    rewrite !length_app in F. cbn [List.length] in F.
    rewrite parse_member_step; [|exact Rv|cbn [ends_value]; auto|lia|exact Fresh].
    change (44 =? 44)%N with true. cbv iota.
    change [44%N] with (lit ",").
    rewrite IH; [|discriminate|exact RD|exact Nd'|lia].
    cbn [map fst snd]. now rewrite <- app_assoc.
Qed.

Lemma filter_defined_map (L : props JSValue) :
  filter (fun p => negb (is_undefined (snd p)))
         (map (fun p => (fst p, parsed_back (snd p))) L)
  = map (fun p => (fst p, element_back (snd p))) (filter defined L).
Proof.
  induction L as [|[k v] L IH]; [reflexivity|].
  cbn [map filter fst snd]. unfold defined at 1. cbn [snd].
  rewrite parsed_back_undefined.
  destruct (is_undefined v) eqn:U; cbn [negb map fst snd]; rewrite IH; [reflexivity|].
  unfold element_back. now rewrite U.
Qed.

Lemma reads_back_quoted (u rest : jsstring) (fuel : nat) :
  (1 <= fuel)%nat ->
  parse_value fuel (QuoteJSONString u ++ rest) = Some (VStr u, rest).
Proof.
  intros F. destruct fuel as [|f]; [lia|].
  unfold QuoteJSONString. cbn [parse_value app]. rewrite skip_ws_head by reflexivity.
  change (34 =? 123)%N with false. change (34 =? 91)%N with false.
  change (34 =? 34)%N with true. cbv iota.
  rewrite <- app_assoc. cbn [app]. now rewrite parse_quoted.
Qed.

(** Every well-formed value reads back from its text. *)
Lemma reads_back_all (v : JSValue) : well_formed v = true -> reads_back v.
Proof.
  induction v as [| |b|x|u|d|l IH|o IH] using value_ind; intros W s S rest fuel En F.
  - discriminate.
  - now apply reads_back_null.
  - destruct fuel as [|f]; [destruct b; injection S as <-; simpl in F; lia|].
    destruct b; injection S as <-; reflexivity.
  - cbn [JSON_stringify] in S. injection S as <-. cbn [parsed_back].
    destruct (Number_isFinite x) eqn:Fx; [|now apply reads_back_null].
    destruct (parse_number_toString x rest Fx (ends_value_number rest En))
      as (P & c & t & E & H).
    rewrite E in *. apply number_head in H.
    destruct H as (Ws & T1 & T2 & T3 & T4 & T5 & T6 & _).
    destruct fuel as [|f]; [simpl in F; lia|].
    cbn [parse_value app]. rewrite skip_ws_head by exact Ws.
    rewrite T1, T2, T3, T4, T5, T6. cbn [app] in P. now rewrite P.
  - cbn [JSON_stringify] in S. injection S as <-.
    apply reads_back_quoted. unfold QuoteJSONString in F. simpl in F. lia.
  - destruct d as [iso|]; cbn [JSON_stringify] in S; injection S as <-;
      [|now apply reads_back_null].
    cbn [parsed_back]. apply reads_back_quoted.
    unfold QuoteJSONString in F. simpl in F. lia.
  - cbn [JSON_stringify] in S. injection S as <-. cbn [parsed_back].
    change (fun e => if is_undefined e then VNull else parsed_back e) with element_back.
    assert (R : Forall reads_back l).
    { cbn [well_formed] in W. rewrite forallb_forall in W.
      rewrite Forall_forall in *. intros e I. apply IH; auto. }
    change (lit "[") with [91%N] in *. change (lit "]") with [93%N] in *.
    cbn [app] in *. rewrite <- app_assoc. cbn [app].
    cbn [List.length] in F. rewrite length_app in F. cbn [List.length] in F.
    destruct fuel as [|f]; [lia|].
    cbn [parse_value]. rewrite skip_ws_head by reflexivity.
    change (91 =? 123)%N with false. change (91 =? 91)%N with true. cbv iota.
    destruct l as [|e l'].
    + reflexivity.
    + destruct (element_text_head e) as (c & t & E & Wc & C93 & _).
      cbn [map].
      destruct (join_head (lit ",") _ (map (fun e => element (JSON_stringify e)) l') c t E)
        as (t' & J).
      rewrite (J (93%N :: rest)).
      rewrite skip_ws_head by exact Wc. cbn [startsWith].
      apply N.eqb_neq in C93. rewrite N.eqb_sym in C93. rewrite C93. cbn [andb].
      rewrite <- (J (93%N :: rest)).
      change (element (JSON_stringify e)
              :: map (fun e => element (JSON_stringify e)) l')
        with (map (fun e => element (JSON_stringify e)) (e :: l')).
      rewrite parse_elements_join; [reflexivity|discriminate|exact R|lia].
  - cbn [JSON_stringify] in S. injection S as <-. cbn [parsed_back].
    pose proof W as W'. apply well_formed_object in W'. destruct W' as [Nd Wv].
    rewrite !own_props_map, members_map, filter_defined_map.
    rewrite own_props_map, members_map in F.
    set (D := filter defined (own_props o)) in *.
    assert (InD : forall p, In p D -> In p o).
    { intros p I. apply filter_In in I. destruct I as [I _].
      eapply Permutation_in; [apply own_props_perm|exact I]. }
    assert (R : Forall (fun p => reads_back (snd p)) D).
    { rewrite Forall_forall in *. intros [k v] I. apply IH; [now apply InD|].
      apply (Wv k v). now apply InD. }
    assert (NdD : NoDup (map fst D)).
    { assert (N1 : NoDup (map fst (own_props o))).
      { eapply Permutation_NoDup; [|exact Nd].
        apply Permutation_sym, Permutation_map, own_props_perm. }
      clear -N1. unfold D. induction (own_props o) as [|p L IHL]; [constructor|].
      cbn [filter]. inversion N1 as [|? ? Np NL]; subst.
      destruct (defined p); [|now apply IHL]. cbn [map]. constructor; [|now apply IHL].
      intros I. apply Np. apply in_map_iff in I. destruct I as (q & Eq & I).
      apply filter_In in I. destruct I as [I _]. apply in_map_iff. eauto. }
    clearbody D.
    change (lit "{") with [123%N] in *. change (lit "}") with [125%N] in *.
    cbn [app] in *. rewrite <- app_assoc. cbn [app].
    cbn [List.length] in F. rewrite length_app in F. cbn [List.length] in F.
    destruct fuel as [|f]; [lia|].
    cbn [parse_value]. rewrite skip_ws_head by reflexivity.
    change (123 =? 123)%N with true. cbv iota.
    destruct D as [|[k v] D'].
    + reflexivity.
    + cbn [map].
      destruct (join_head (lit ",") (member_text (k, v)) (map member_text D') 34%N
                  (quote_units k ++ 34%N :: 58%N :: element (JSON_stringify v)))
        as (t' & J).
      { rewrite <- (app_nil_r (member_text (k, v))), member_text_shape.
        cbn [fst snd]. now rewrite app_nil_r. }
      rewrite (J (125%N :: rest)).
      rewrite skip_ws_head by reflexivity. cbn [startsWith].
      change (34 =? 125)%N with false. cbn [andb].
      rewrite <- (J (125%N :: rest)).
      change (member_text (k, v) :: map member_text D')
        with (map member_text ((k, v) :: D')).
      rewrite parse_members_join; [reflexivity|discriminate|exact R|exact NdD|lia].
Qed.

(** [JSON.parse(JSON.stringify(v))] is [parsed_back v]: the parser accepts
    every text the serializer writes for a well-formed value. *)
Theorem JSON_parse_stringify (v : JSValue) (text : jsstring) :
  well_formed v = true -> JSON_stringify v = Some text ->
  JSON_parse text = Some (parsed_back v).
Proof.
  intros W S. unfold JSON_parse.
  pose proof (reads_back_all v W text S [] (2 * List.length text + 2) I) as P.
  rewrite app_nil_r in P. rewrite P by lia. reflexivity.
Qed.

(* ================================================================= *)
(** ** Recomputing the identifier of a flat record *)

Lemma fold_define_props (ps : props JSValue) :
  forall acc,
    NoDup (map fst acc ++ map fst ps) ->
    fold_left (fun o p => define_prop o (fst p) (snd p)) ps acc = acc ++ ps.
Proof.
  induction ps as [|[k v] ps IH]; intros acc D; cbn [fold_left fst snd].
  - now rewrite app_nil_r.
  - rewrite define_prop_fresh.
    + rewrite IH; [now rewrite <- app_assoc|].
      rewrite map_app. cbn [map fst]. now rewrite <- app_assoc.
    + cbn [map fst] in D. apply NoDup_remove_2 in D. intros I. apply D.
      apply in_or_app. now left.
Qed.

(** An object literal with distinct keys has its properties as written. *)
Lemma object_literal_distinct (ps : props JSValue) :
  distinct (map fst ps) = true -> object_literal ps = ps.
Proof.
  intros D. apply distinct_NoDup in D. unfold object_literal.
  now rewrite fold_define_props.
Qed.

Lemma stringify_object (o : props JSValue) :
  JSON_stringify (VObj o)
  = Some (lit "{" ++ join (lit ",") (map member_text (filter defined (own_props o)))
          ++ lit "}").
Proof. cbn [JSON_stringify]. now rewrite own_props_map, members_map. Qed.

Lemma parsed_back_object (o : props JSValue) :
  parsed_back (VObj o)
  = VObj (map (fun p => (fst p, element_back (snd p))) (filter defined (own_props o))).
Proof. cbn [parsed_back]. now rewrite own_props_map, filter_defined_map. Qed.

Lemma read_fields_object (o : props JSValue) (ks : list jsstring) :
  read_fields (VObj o) ks = Ok (map (fun k => (k, obj_get o k)) ks).
Proof.
  induction ks as [|k ks IH]; [reflexivity|].
  cbn [read_fields get_property bind map]. now rewrite IH.
Qed.

Lemma lookup_keyed {A : Type} (f : jsstring -> A) (ks : list jsstring) (k : jsstring) :
  lookup (map (fun k => (k, f k)) ks) k
  = if existsb (str_eqb k) ks then Some (f k) else None.
Proof.
  induction ks as [|k' ks IH]; [reflexivity|]. cbn [map lookup existsb].
  rewrite (str_eqb_sym k k'). destruct (str_eqb k' k) eqn:E.
  - apply str_eqb_eq in E. now subst.
  - exact IH.
Qed.

Lemma existsb_In (k : jsstring) (ks : list jsstring) :
  existsb (str_eqb k) ks = true <-> In k ks.
Proof.
  rewrite existsb_exists. split.
  - intros (y & I & E). apply str_eqb_eq in E. now subst.
  - intros I. exists k. split; [exact I|apply str_eqb_refl].
Qed.

(* ----------------------------------------------------------------- *)
(** *** Scalars *)

Lemma normalize_idempotent (d : positive) (e : Z) (s : positive) (e' : Z) :
  normalize d e = (s, e') -> normalize s e' = (s, e').
Proof.
  intros H. apply normalize_normal in H. unfold normalize.
  rewrite (strip10_power 0 _ s s e'); [f_equal; lia| |exact H|lia].
  change (Z.of_nat 0) with 0%Z. rewrite Z.pow_0_r. lia.
Qed.

Lemma Number_toString_normal (x : number) :
  Number_toString (normal_number x) = Number_toString x
  /\ Number_isFinite (normal_number x) = Number_isFinite x.
Proof.
  destruct x as [|b|b|neg d e]; try (split; reflexivity).
  cbn [normal_number]. destruct (normalize d e) as [s e'] eqn:Nm.
  split; [|reflexivity]. cbn [Number_toString]. f_equal.
  unfold positive_toString. now rewrite Nm, (normalize_idempotent _ _ _ _ Nm).
Qed.

Lemma scalar_facts (v : JSValue) :
  scalar v = true ->
  sortObject v = v /\ well_formed v = true /\ is_undefined v = false
  /\ scalar (parsed_back v) = true
  /\ JSON_stringify (parsed_back v) = JSON_stringify v.
Proof.
  destruct v as [| |b|x|s|d|l|o]; try discriminate; intros _;
    repeat split; try reflexivity.
  - cbn [parsed_back]. now destruct (Number_isFinite x).
  - destruct (Number_toString_normal x) as [T F].
    cbn [parsed_back]. destruct (Number_isFinite x) eqn:Fx;
      cbn [JSON_stringify]; rewrite ?F, ?T, Fx; reflexivity.
Qed.

(* ----------------------------------------------------------------- *)
(** *** Objects listed by their keys *)

Lemma keyed_keys (f : jsstring -> JSValue) (ks : list jsstring) :
  map fst (keyed f ks) = ks.
Proof. apply map_keys. Qed.

Lemma keyed_ext (f g : jsstring -> JSValue) (ks : list jsstring) :
  (forall k, In k ks -> f k = g k) -> keyed f ks = keyed g ks.
Proof. intros H. apply map_ext_in. intros k I. now rewrite H. Qed.

Lemma obj_get_keyed (f : jsstring -> JSValue) (ks : list jsstring) (k : jsstring) :
  obj_get (keyed f ks) k = if existsb (str_eqb k) ks then f k else VUndefined.
Proof.
  unfold obj_get, keyed. rewrite lookup_keyed. now destruct (existsb _ ks).
Qed.

Lemma own_props_keyed (f : jsstring -> JSValue) (ks : list jsstring) :
  forallb plain_key ks = true -> own_props (keyed f ks) = keyed f ks.
Proof.
  intros P. apply own_props_plain. rewrite keyed_keys.
  rewrite forallb_forall in *. intros k I. specialize (P k I).
  unfold plain_key in P. now apply andb_true_iff in P.
Qed.

Lemma filter_defined_keyed (f : jsstring -> JSValue) (ks : list jsstring) :
  filter defined (keyed f ks)
  = keyed f (filter (fun k => negb (is_undefined (f k))) ks).
Proof.
  induction ks as [|k ks IH]; [reflexivity|]. cbn [keyed map filter].
  unfold defined at 1. cbn [snd]. destruct (negb (is_undefined (f k)));
    cbn [map]; fold (keyed f ks); now rewrite IH.
Qed.

Lemma well_formed_keyed (f : jsstring -> JSValue) (ks : list jsstring) :
  NoDup ks -> (forall k, In k ks -> well_formed (f k) = true) ->
  well_formed (VObj (keyed f ks)) = true.
Proof.
  intros D W. apply well_formed_object. rewrite keyed_keys. split; [exact D|].
  intros k v I. apply in_map_iff in I. destruct I as (k' & [= <- <-] & I). auto.
Qed.

Lemma plain_keys_keyed (f : jsstring -> JSValue) (ks : list jsstring) :
  forallb plain_key ks = true -> (forall k, In k ks -> plain_keys (f k) = true) ->
  plain_keys (VObj (keyed f ks)) = true.
Proof.
  intros P V. apply plain_keys_object. rewrite keyed_keys. split.
  - intros k I. rewrite forallb_forall in P. specialize (P k I).
    unfold plain_key in P. apply andb_true_iff in P.
    rewrite !negb_true_iff, str_eqb_neq in P. exact P.
  - intros k v I. apply in_map_iff in I. destruct I as (k' & [= <- <-] & I). auto.
Qed.

(** An object with distinct keys is listed by its keys. *)
Lemma keyed_obj_get (o : props JSValue) :
  NoDup (map fst o) -> keyed (obj_get o) (map fst o) = o.
Proof.
  intros D. unfold keyed. rewrite map_map.
  rewrite <- (map_id o) at 2. apply map_ext_in. intros [k v] I. cbn [fst].
  unfold obj_get. now rewrite (lookup_NoDup_In o k v D I).
Qed.

Lemma sorted_by_filter (f : jsstring -> bool) (l : list jsstring) :
  sorted_by str_leb l = true -> sorted_by str_leb (filter f l) = true.
Proof.
  induction l as [|x l IH]; [reflexivity|]. intros S.
  destruct (sorted_by_head x l S) as [S' B]. cbn [filter].
  destruct (f x); [|now apply IH].
  specialize (IH S'). destruct (filter f l) as [|y r] eqn:E; [reflexivity|].
  change (sorted_by str_leb (x :: y :: r))
    with (str_leb x y && sorted_by str_leb (y :: r)).
  rewrite IH. rewrite B; [reflexivity|].
  assert (I : In y (filter f l)) by (rewrite E; now left).
  apply filter_In in I. tauto.
Qed.

(** Keeping, in a sorted list of distinct keys, the keys of a sorted
    list drawn from it gives that list. *)
Lemma filter_sorted_sublist (K ks : list jsstring) :
  NoDup K -> NoDup ks -> incl ks K ->
  sorted_by str_leb K = true -> sorted_by str_leb ks = true ->
  filter (fun k => existsb (str_eqb k) ks) K = ks.
Proof.
  intros DK Dk Inc SK Sk. apply sorted_perm_eq;
    [now apply sorted_by_filter|exact Sk|].
  apply NoDup_Permutation; [now apply NoDup_filter|exact Dk|].
  intros k. rewrite filter_In, existsb_In. split; [tauto|]. intros I. split; auto.
Qed.

Lemma filter_all {A : Type} (f : A -> bool) (l : list A) :
  (forall x, In x l -> f x = true) -> filter f l = l.
Proof.
  induction l as [|x l IH]; [reflexivity|]. intros H. cbn [filter].
  rewrite H by now left. f_equal. apply IH. intros y I. apply H. now right.
Qed.

Lemma obj_get_scalar (o : props JSValue) (k : jsstring) :
  forallb (fun p => scalar (snd p)) o = true -> In k (map fst o) ->
  scalar (obj_get o k) = true.
Proof.
  intros Sc I. unfold obj_get. destruct (lookup o k) as [v|] eqn:L.
  - apply lookup_In in L. rewrite forallb_forall in Sc. apply (Sc (k, v) L).
  - apply lookup_None in L. contradiction.
Qed.

Lemma stringify_keyed (f : jsstring -> JSValue) (ks : list jsstring) :
  forallb plain_key ks = true ->
  JSON_stringify (VObj (keyed f ks))
  = Some (lit "{"
          ++ join (lit ",")
               (map member_text
                    (keyed f (filter (fun k => negb (is_undefined (f k))) ks)))
          ++ lit "}").
Proof.
  intros P. now rewrite stringify_object, own_props_keyed, filter_defined_keyed.
Qed.

Lemma forallb_plain_perm (l1 l2 : list jsstring) :
  Permutation l1 l2 -> forallb plain_key l2 = true -> forallb plain_key l1 = true.
Proof.
  intros Pm H. rewrite forallb_forall in *. intros k I. apply H.
  eapply Permutation_in; eauto.
Qed.

(** The record read back from the canonical text of a flat record, taken
    at the keys [K] and canonicalized again, has the same text: the keys
    of [K] the record lacks are [undefined] and are left out. *)
Lemma recompute_flat (K : list jsstring) (o : props JSValue) :
  distinct K = true -> forallb plain_key K = true ->
  distinct (map fst o) = true ->
  forallb (fun k => existsb (str_eqb k) K) (map fst o) = true ->
  forallb (fun p => scalar (snd p)) o = true ->
  exists text parsed fields,
    stableStringify (VObj o) = Some text
    /\ JSON_parse text = Some parsed
    /\ read_fields parsed K = Ok fields
    /\ stableStringify (VObj (object_literal fields)) = Some text.
Proof.
  intros DK PK Do Inc Sc.
  apply distinct_NoDup in DK. pose proof Do as Do'. apply distinct_NoDup in Do'.
  assert (IncK : incl (map fst o) K).
  { intros k I. rewrite forallb_forall in Inc. apply existsb_In. now apply Inc. }
  assert (Po : forallb plain_key (map fst o) = true).
  { rewrite forallb_forall in *. intros k I. apply PK. now apply IncK. }
  set (ks := sort (map fst o)).
  assert (Pm : Permutation ks (map fst o)) by apply sort_perm.
  assert (Dk : NoDup ks) by (eapply Permutation_NoDup; [apply Permutation_sym, Pm|exact Do']).
  assert (Sk : sorted_by str_leb ks = true) by apply sort_sorted.
  assert (Pk : forallb plain_key ks = true) by (eapply forallb_plain_perm; eauto).
  assert (Val : forall k, In k ks -> scalar (obj_get o k) = true).
  { intros k I. apply obj_get_scalar; [exact Sc|]. eapply Permutation_in; eauto. }
  (* the canonical form of the record *)
  assert (E1 : sortObject (VObj o) = VObj (keyed (obj_get o) ks)).
  { rewrite sortObject_plain_object.
    - f_equal. apply keyed_ext. intros k I. now apply scalar_facts, Val.
    - apply well_formed_object. split; [exact Do'|]. intros k v I.
      rewrite forallb_forall in Sc. now apply scalar_facts, (Sc (k, v)).
    - apply plain_keys_object. split.
      + intros k I. rewrite forallb_forall in Po. specialize (Po k I).
        unfold plain_key in Po. apply andb_true_iff in Po.
        rewrite !negb_true_iff, str_eqb_neq in Po. exact Po.
      + intros k v I. rewrite forallb_forall in Sc. specialize (Sc (k, v) I).
        cbn [snd] in Sc. now destruct v. }
  assert (AllDef : filter (fun k => negb (is_undefined (obj_get o k))) ks = ks).
  { apply filter_all. intros k I.
    destruct (scalar_facts _ (Val k I)) as (_ & _ & U & _). now rewrite U. }
  pose (text := lit "{" ++ join (lit ",") (map member_text (keyed (obj_get o) ks))
                ++ lit "}").
  assert (T1 : JSON_stringify (VObj (keyed (obj_get o) ks)) = Some text).
  { rewrite stringify_keyed by exact Pk. now rewrite AllDef. }
  (* what the parser returns for it *)
  pose (pv := fun k => parsed_back (obj_get o k)).
  assert (P1 : JSON_parse text = Some (VObj (keyed pv ks))).
  { rewrite (JSON_parse_stringify (VObj (keyed (obj_get o) ks)) text); [|
      apply well_formed_keyed; [exact Dk|intros k I; now apply scalar_facts, Val]
      | exact T1].
    f_equal. rewrite parsed_back_object, own_props_keyed by exact Pk.
    rewrite filter_defined_keyed, AllDef. unfold keyed. rewrite map_map. f_equal.
    apply map_ext_in. intros k I. cbn [fst snd]. f_equal. unfold element_back, pv.
    destruct (scalar_facts _ (Val k I)) as (_ & _ & U & _). now rewrite U. }
  (* the fields read from it *)
  pose (h := fun k => if existsb (str_eqb k) ks then pv k else VUndefined).
  assert (F1 : read_fields (VObj (keyed pv ks)) K = Ok (keyed h K)).
  { rewrite read_fields_object. f_equal. apply keyed_ext. intros k _.
    apply obj_get_keyed. }
  assert (Hs : forall k, sortObject (h k) = h k /\ well_formed (h k) = true
                         /\ plain_keys (h k) = true).
  { intros k. unfold h. destruct (existsb (str_eqb k) ks) eqn:M; [|auto].
    apply existsb_In in M. unfold pv.
    destruct (scalar_facts _ (Val k M)) as (_ & _ & _ & S' & _).
    destruct (scalar_facts _ S') as (A & B & _). repeat split; auto.
    now destruct (parsed_back (obj_get o k)). }
  exists text, (VObj (keyed pv ks)), (keyed h K).
  split; [unfold stableStringify; now rewrite E1|].
  split; [exact P1|]. split; [exact F1|].
  rewrite object_literal_distinct
    by (rewrite keyed_keys; now apply distinct_NoDup).
  unfold stableStringify. rewrite sortObject_plain_object;
    [| apply well_formed_keyed; [exact DK|intros; apply Hs]
     | apply plain_keys_keyed; [exact PK|intros; apply Hs] ].
  rewrite keyed_keys. fold (keyed (fun k => sortObject (obj_get (keyed h K) k)) (sort K)).
  assert (PsK : forallb plain_key (sort K) = true)
    by (eapply forallb_plain_perm; [apply sort_perm|exact PK]).
  assert (DsK : NoDup (sort K))
    by (eapply Permutation_NoDup; [apply Permutation_sym, sort_perm|exact DK]).
  rewrite (keyed_ext _ h).
  2:{ intros k I. rewrite obj_get_keyed.
      assert (M : existsb (str_eqb k) K = true).
      { apply existsb_In. eapply Permutation_in; [apply sort_perm|exact I]. }
      rewrite M. apply Hs. }
  rewrite stringify_keyed by exact PsK.
  assert (Fl : filter (fun k => negb (is_undefined (h k))) (sort K) = ks).
  { rewrite (filter_ext_in _ (fun k => existsb (str_eqb k) ks)).
    - apply filter_sorted_sublist; auto using sort_sorted.
      intros k I. eapply Permutation_in; [apply Permutation_sym, sort_perm|].
      apply IncK. eapply Permutation_in; eauto.
    - intros k _. unfold h. destruct (existsb (str_eqb k) ks) eqn:M; [|reflexivity].
      apply existsb_In in M. unfold pv.
      destruct (scalar_facts _ (Val k M)) as (_ & _ & _ & S' & _).
      destruct (scalar_facts _ S') as (_ & _ & U & _). now rewrite U. }
  rewrite Fl. unfold text, keyed. rewrite !map_map.
  rewrite (map_ext_in _ (fun k => member_text (k, obj_get o k)) ks); [reflexivity|].
  intros k I. unfold member_text. cbn [fst snd].
  unfold h. rewrite (proj2 (existsb_In k ks) I). unfold pv.
  destruct (scalar_facts _ (Val k I)) as (_ & _ & _ & _ & T). now rewrite T.
Qed.

(* ================================================================= *)
(** ** Building and verifying an invoice *)

Lemma hashed_fields_plain :
  distinct hashed_fields = true /\ forallb plain_key hashed_fields = true.
Proof. split; vm_compute; reflexivity. Qed.

Lemma invoice_payload_flat (input : InvoiceInput) (issuerWallet : jsstring)
    (createdAt : Z) :
  let ps := InvoiceInput_props input
            ++ [(lit "issuerWallet", VStr issuerWallet);
                (lit "createdAt", VNum (number_of_Z createdAt))] in
  distinct (map fst ps) = true
  /\ forallb (fun k => existsb (str_eqb k) hashed_fields) (map fst ps) = true
  /\ forallb (fun p => scalar (snd p)) ps = true.
Proof.
  destruct input as [a r dd [d|] [n|]]; cbv zeta; unfold InvoiceInput_props;
    cbn [amount recipientWallet dueDate description issuerName optional_prop app
         map fst snd forallb scalar andb];
    repeat apply conj; vm_compute; reflexivity.
Qed.

(** The identifier recomputed from the memo [createInvoice] submits is the
    identifier [createInvoice] returns. *)
Lemma recompute_invoice_payload (input : InvoiceInput) (issuerWallet : jsstring)
    (createdAt : Z) :
  exists serialized parsed,
    buildInvoicePayload input issuerWallet createdAt
    = Ok (serialized, sha256Hex serialized)
    /\ recompute serialized = Ok (parsed, sha256Hex serialized).
Proof.
  destruct (invoice_payload_flat input issuerWallet createdAt) as (D & Inc & Sc).
  cbv zeta in D, Inc, Sc.
  destruct hashed_fields_plain as [DK PK].
  destruct (recompute_flat hashed_fields _ DK PK D Inc Sc)
    as (text & parsed & fields & T & P & F & T').
  exists text, parsed. unfold buildInvoicePayload, recompute.
  rewrite (object_literal_distinct _ D), T, P, F. cbn [bind]. rewrite T'.
  split; reflexivity.
Qed.

Lemma verify_by_id_newest (ledger : Ledger) (text sig id : jsstring) (parsed : JSValue) :
  recompute text = Ok (parsed, id) -> id <> [] ->
  verifyInvoice ({| signature := sig; memo := Some text |} :: ledger) (Some id) None
  = Ok {| verified := true; record := Some (invoice_record parsed id sig) |}.
Proof.
  intros R N. unfold verifyInvoice. destruct id as [|c t]; [congruence|].
  cbn [given negb andb getSignaturesForAddress firstn scan_for_invoice memo signature].
  rewrite R. now rewrite str_eqb_refl.
Qed.

Lemma verify_by_signature_newest (ledger : Ledger) (text sig id : jsstring)
    (parsed : JSValue) (expected : option jsstring) :
  recompute text = Ok (parsed, id) -> sig <> [] ->
  expected = None \/ expected = Some id ->
  verifyInvoice ({| signature := sig; memo := Some text |} :: ledger) expected (Some sig)
  = Ok {| verified := true; record := Some (invoice_record parsed id sig) |}.
Proof.
  intros R N E. unfold verifyInvoice. destruct sig as [|c t]; [congruence|].
  cbn [given negb andb getTransaction find signature memo].
  rewrite str_eqb_refl. cbn [memo]. rewrite R.
  destruct E as [->| ->]; [reflexivity|].
  rewrite str_eqb_refl. cbn [negb]. now rewrite andb_false_r.
Qed.

(* ================================================================= *)
(** ** The shape of an identifier *)

Lemma step_length (st : list Z) (kw : Z * Z) :
  List.length st = 8%nat -> List.length (SHA256.step st kw) = 8%nat.
Proof.
  intros L. unfold SHA256.step.
  do 9 (destruct st as [|? st]; try discriminate). reflexivity.
Qed.

Lemma fold_step_length (kws : list (Z * Z)) :
  forall st, List.length st = 8%nat ->
             List.length (fold_left SHA256.step kws st) = 8%nat.
Proof.
  induction kws as [|kw kws IH]; intros st L; [exact L|].
  cbn [fold_left]. apply IH. now apply step_length.
Qed.

Lemma compress_length (h block : list Z) :
  List.length h = 8%nat -> List.length (SHA256.compress h block) = 8%nat.
Proof.
  intros L. unfold SHA256.compress.
  rewrite length_map, length_combine, fold_step_length by exact L.
  rewrite L. reflexivity.
Qed.

Lemma digest_length (msg : list Z) : List.length (SHA256.digest msg) = 8%nat.
Proof.
  unfold SHA256.digest.
  generalize (SHA256.blocks
                (List.length (SHA256.words (List.length msg + 72) (SHA256.pad msg)))
                (SHA256.words (List.length msg + 72) (SHA256.pad msg))).
  intros bs. assert (L : List.length SHA256.initial_hash = 8%nat) by reflexivity.
  revert L. generalize SHA256.initial_hash.
  induction bs as [|b bs IH]; intros h L; [exact L|].
  cbn [fold_left]. apply IH. now apply compress_length.
Qed.

Lemma hex_unit_lower (d : N) : (d < 16)%N -> is_lower_hex (hex_unit d) = true.
Proof.
  intros H. unfold is_lower_hex, hex_unit, is_digit.
  destruct (N.ltb_spec d 10).
  - apply orb_true_iff. left. apply andb_true_iff. split; apply N.leb_le; lia.
  - apply orb_true_iff. right. apply andb_true_iff. split; apply N.leb_le; lia.
Qed.

Lemma hex_word_shape (x : Z) :
  List.length (hex_word x) = 8%nat /\ forallb is_lower_hex (hex_word x) = true.
Proof.
  unfold hex_word. split; [apply length_map|].
  rewrite forallb_forall. intros c I. apply in_map_iff in I.
  destruct I as (i & <- & _). apply hex_unit_lower.
  pose proof (Z.mod_pos_bound (x / 16 ^ Z.of_nat i) 16). lia.
Qed.

(** An identifier is 64 lowercase hexadecimal characters. *)
Lemma sha256Hex_shape (value : jsstring) :
  List.length (sha256Hex value) = 64%nat
  /\ forallb is_lower_hex (sha256Hex value) = true.
Proof.
  unfold sha256Hex. pose proof (digest_length (utf8_encode value)) as L.
  revert L. generalize (SHA256.digest (utf8_encode value)). intros ws L.
  do 9 (destruct ws as [|? ws]; try discriminate).
  cbn [flat_map]. rewrite app_nil_r. split.
  - rewrite !length_app. now rewrite !(proj1 (hex_word_shape _)).
  - rewrite !forallb_app. now rewrite !(proj2 (hex_word_shape _)).
Qed.

Lemma sha256Hex_nonempty (value : jsstring) : sha256Hex value <> [].
Proof.
  intros E. pose proof (proj1 (sha256Hex_shape value)) as L.
  rewrite E in L. discriminate.
Qed.


(* ================================================================= *)
(** ** The status of a loan *)

Lemma find_append {A : Type} (p : A -> bool) (l1 l2 : list A) :
  find p (l1 ++ l2) = match find p l1 with
                      | Some x => Some x
                      | None => find p l2
                      end.
Proof.
  induction l1 as [|a l1 IH]; simpl; [reflexivity|].
  now destruct (p a).
Qed.

Lemma mentions_references (id kw : jsstring) (e : LedgerEntry) :
  mentions id kw e = true -> references id e = true.
Proof.
  unfold mentions, references. destruct (memo e); [|discriminate].
  now intros H%andb_true_iff.
Qed.

(** The loop of [getLoanStatus] without a repay entry: the last entry that
    contains the identifier decides, and the running values are returned
    when there is none. *)
Lemma scan_loan_status_last (id : jsstring) (sigs : list LedgerEntry) :
  forall found st,
    existsb (mentions id (lit "repay")) sigs = false ->
    scan_loan_status id sigs found st
    = match find (references id) (rev sigs) with
      | Some e => loan_status_of e
      | None => if found then st else ln_not_found
      end.
Proof.
  induction sigs as [|s rest IH]; intros found st; simpl; [reflexivity|].
  rewrite find_append. cbn [find].
  assert (Rf : references id s
               = match memo s with Some m => includes m id | None => false end)
    by reflexivity.
  assert (St : loan_status_of s
               = match memo s with
                 | Some m => if includes (toLowerCase m) (lit "loan")
                                || includes (toLowerCase m) (lit "lend")
                             then ln_active else ln_requested
                 | None => ln_requested
                 end)
    by (unfold loan_status_of, funding; now destruct (memo s)).
  unfold mentions at 1. rewrite Rf. clear Rf. revert St.
  destruct (memo s) as [m|]; simpl; intros St.
  - destruct (includes m id); simpl.
    + destruct (includes (toLowerCase m) (lit "repay")); simpl; [discriminate|].
      intros H.
      destruct (includes (toLowerCase m) (lit "loan")
                || includes (toLowerCase m) (lit "lend"));
        rewrite (IH _ _ H); (destruct (find (references id) (rev rest));
                             [reflexivity|simpl; now rewrite St]).
    + intros H. rewrite (IH _ _ H). now destruct (find (references id) (rev rest)).
  - intros H. rewrite (IH _ _ H). now destruct (find (references id) (rev rest)).
Qed.

Lemma scan_loan_status_repaid (id : jsstring) (sigs : list LedgerEntry) :
  forall found st,
    existsb (mentions id (lit "repay")) sigs = true ->
    scan_loan_status id sigs found st = ln_repaid.
Proof.
  induction sigs as [|s rest IH]; intros found st; simpl; [discriminate|].
  unfold mentions at 1.
  destruct (memo s) as [m|]; simpl; [|apply IH].
  destruct (includes m id); simpl; [|apply IH].
  destruct (includes (toLowerCase m) (lit "repay")); simpl; [reflexivity|].
  destruct (_ || _); apply IH.
Qed.

(** X1.  [getLoanStatus] over the window of 1000 entries, newest first: if
    some entry contains the loan identifier and the word 'repay' the
    status is 'repaid'; otherwise the oldest entry of the window that
    contains the identifier decides, 'active' if it has 'loan' or 'lend'
    and 'requested' if not; with no entry containing the identifier the
    status is 'not_found'. *)
Theorem getLoanStatus_oldest_match_decides (ledger : Ledger) (loanId : jsstring) :
  getLoanStatus ledger loanId
  = if existsb (mentions loanId (lit "repay")) (getSignaturesForAddress ledger 1000)
    then ln_repaid
    else match find (references loanId) (rev (getSignaturesForAddress ledger 1000)) with
         | Some e => loan_status_of e
         | None => ln_not_found
         end.
Proof.
  unfold getLoanStatus.
  destruct (existsb (mentions loanId (lit "repay")) (getSignaturesForAddress ledger 1000))
    eqn:R.
  - now apply scan_loan_status_repaid.
  - now rewrite scan_loan_status_last.
Qed.

(* ================================================================= *)
(** ** What verification and status rest on *)

Lemma scan_for_invoice_found (id : jsstring) (txs : list LedgerEntry) (v : VerifyResult) :
  scan_for_invoice (Some id) txs = Ok v -> verified v = true ->
  exists before e after text parsed,
    txs = before ++ e :: after
    /\ forallb (passed_over id) before = true
    /\ memo e = Some text
    /\ recompute text = Ok (parsed, id)
    /\ record v = Some (invoice_record parsed id (signature e)).
Proof.
  induction txs as [|tx rest IH]; simpl.
  - intros [= <-]. discriminate.
  - destruct (memo tx) as [m|] eqn:M.
    + destruct (recompute m) as [[parsed calcId]|] eqn:R; [|discriminate].
      destruct (str_eqb calcId id) eqn:E.
      * intros [= <-] _. apply str_eqb_eq in E. subst calcId.
        exists [], tx, rest, m, parsed. repeat split; assumption.
      * intros S T. destruct (IH S T) as (b & e & a & t & p & -> & P & Me & Re & Rc).
        exists (tx :: b), e, a, t, p. repeat split; try assumption.
        simpl. rewrite P, andb_true_r. unfold passed_over. now rewrite M, R, E.
    + intros S T. destruct (IH S T) as (b & e & a & t & p & -> & P & Me & Re & Rc).
      exists (tx :: b), e, a, t, p. repeat split; try assumption.
      simpl. rewrite P, andb_true_r. unfold passed_over. now rewrite M.
Qed.

Lemma verifyInvoice_by_id (ledger : Ledger) (id : jsstring) :
  id <> [] ->
  verifyInvoice ledger (Some id) None
  = scan_for_invoice (Some id) (getSignaturesForAddress ledger 1000).
Proof.
  intros N. unfold verifyInvoice. destruct id as [|c r]; [congruence|]. reflexivity.
Qed.

(** X2.  [verifyInvoice] by identifier reports an invoice as verified only
    on evidence: the window of 1000 entries holds an entry whose memo
    parses and recomputes to the requested identifier, every entry scanned
    before it was passed over, and the record returned is built from that
    memo with that entry's signature. *)
Theorem verifyInvoice_by_id_sound (ledger : Ledger) (id : jsstring) (v : VerifyResult) :
  verifyInvoice ledger (Some id) None = Ok v ->
  verified v = true ->
  exists before e after text parsed,
    getSignaturesForAddress ledger 1000 = before ++ e :: after
    /\ forallb (passed_over id) before = true
    /\ memo e = Some text
    /\ recompute text = Ok (parsed, id)
    /\ record v = Some (invoice_record parsed id (signature e)).
Proof.
  intros V T. destruct id as [|c r]; [discriminate|].
  rewrite verifyInvoice_by_id in V by discriminate.
  now apply scan_for_invoice_found.
Qed.

Lemma verifyInvoice_by_id_sound_witness :
  exists v,
    verifyInvoice (snd Scenario.repaid) (Some Scenario.invoice_id) None = Ok v
    /\ verified v = true
    /\ exists before e after text parsed,
         getSignaturesForAddress (snd Scenario.repaid) 1000 = before ++ e :: after
         /\ forallb (passed_over Scenario.invoice_id) before = true
         /\ memo e = Some text
         /\ recompute text = Ok (parsed, Scenario.invoice_id)
         /\ record v = Some (invoice_record parsed Scenario.invoice_id (signature e)).
Proof.
  eexists. split; [vm_compute; reflexivity|]. split; [reflexivity|].
  apply (verifyInvoice_by_id_sound (snd Scenario.repaid) Scenario.invoice_id);
    [vm_compute; reflexivity|reflexivity].
Defined.

Lemma lookup_define_same {A : Type} (o : props A) (k : jsstring) (v : A) :
  lookup (define_prop o k v) k = Some v.
Proof.
  induction o as [|[k' v'] r IH]; simpl.
  - now rewrite str_eqb_refl.
  - destruct (str_eqb k' k) eqn:E; simpl; now rewrite E.
Qed.

Lemma lookup_define_other {A : Type} (o : props A) (k k' : jsstring) (v : A) :
  str_eqb k' k = false ->
  lookup (define_prop o k' v) k = lookup o k.
Proof.
  intros N. induction o as [|[k0 v0] r IH]; simpl.
  - now rewrite N.
  - destruct (str_eqb k0 k') eqn:E; simpl.
    + apply str_eqb_eq in E. subst k0. now rewrite N.
    + destruct (str_eqb k0 k); [reflexivity|exact IH].
Qed.

Lemma object_literal_app (ps qs : props JSValue) :
  object_literal (ps ++ qs)
  = fold_left (fun o p => define_prop o (fst p) (snd p)) qs (object_literal ps).
Proof. unfold object_literal. apply fold_left_app. Qed.

(** X3.  The record [verifyInvoice] returns carries the recomputed
    identifier and the signature of the transaction, whatever the memo
    holds under the keys invoiceId and txSignature; every other property
    is the memo's own. *)
Theorem invoice_record_fields (parsed : JSValue) (calcId txSignature : jsstring) :
  get_property (invoice_record parsed calcId txSignature) (lit "invoiceId")
  = Ok (VStr calcId)
  /\ get_property (invoice_record parsed calcId txSignature) (lit "txSignature")
     = Ok (VStr txSignature)
  /\ forall k,
       str_eqb (lit "invoiceId") k = false ->
       str_eqb (lit "txSignature") k = false ->
       get_property (invoice_record parsed calcId txSignature) k
       = Ok (obj_get (object_literal (spread parsed)) k).
Proof.
  unfold invoice_record, get_property, obj_get.
  rewrite object_literal_app. cbn [fold_left fst snd].
  split; [|split].
  - rewrite lookup_define_other by (vm_compute; reflexivity).
    now rewrite lookup_define_same.
  - now rewrite lookup_define_same.
  - intros k N1 N2. now rewrite !lookup_define_other by assumption.
Qed.

Lemma getInvoiceStatus_cases (ledger : Ledger) (id : jsstring) (s : InvoiceStatus) :
  getInvoiceStatus ledger id = Ok s ->
  exists v,
    verifyInvoice ledger (Some id) None = Ok v
    /\ s = if negb (verified v) then st_not_found
           else if existsb (mentions id (lit "repay")) (getSignaturesForAddress ledger 200)
           then st_settled
           else if existsb (mentions id (lit "loan")) (getSignaturesForAddress ledger 200)
           then st_financed
           else st_verified.
Proof.
  unfold getInvoiceStatus.
  destruct (verifyInvoice ledger (Some id) None) as [v|e]; cbn [bind]; [|discriminate].
  intros H. exists v. split; [reflexivity|].
  destruct (verified v); cbn [negb] in *; [|congruence].
  destruct (existsb (mentions id (lit "repay")) (getSignaturesForAddress ledger 200)) eqn:R.
  - rewrite scan_invoice_status_settled in H by exact R. congruence.
  - rewrite scan_invoice_status_financed in H by exact R. congruence.
Qed.

(** X4.  [getInvoiceStatus] never over-reports.  'settled' is returned
    only when the invoice is verified and an entry among the 200 most
    recent mentions it together with 'repay'; 'financed' only when it is
    verified, no such repay entry exists and an entry mentions it together
    with 'loan'; 'verified' only when it is verified and neither kind of
    entry exists; 'not_found' only when verification found no entry. *)
Theorem getInvoiceStatus_never_over_reports (ledger : Ledger) (id : jsstring) :
  (getInvoiceStatus ledger id = Ok st_settled ->
   verified_as ledger id true
   /\ existsb (mentions id (lit "repay")) (getSignaturesForAddress ledger 200) = true)
  /\ (getInvoiceStatus ledger id = Ok st_financed ->
      verified_as ledger id true
      /\ existsb (mentions id (lit "repay")) (getSignaturesForAddress ledger 200) = false
      /\ existsb (mentions id (lit "loan")) (getSignaturesForAddress ledger 200) = true)
  /\ (getInvoiceStatus ledger id = Ok st_verified ->
      verified_as ledger id true
      /\ existsb (mentions id (lit "repay")) (getSignaturesForAddress ledger 200) = false
      /\ existsb (mentions id (lit "loan")) (getSignaturesForAddress ledger 200) = false)
  /\ (getInvoiceStatus ledger id = Ok st_not_found -> verified_as ledger id false).
Proof.
  unfold verified_as.
  repeat apply conj; intros H; apply getInvoiceStatus_cases in H;
    destruct H as (v & V & S); revert S;
    destruct (verified v) eqn:T; cbn [negb];
    destruct (existsb (mentions id (lit "repay")) (getSignaturesForAddress ledger 200));
    destruct (existsb (mentions id (lit "loan")) (getSignaturesForAddress ledger 200));
    intros S; try discriminate S; repeat split; try reflexivity;
    exists v; split; assumption.
Qed.

Lemma firstn_window {A : Type} (n : nat) (l older : list A) :
  (n <= List.length l)%nat -> firstn n (l ++ older) = firstn n l.
Proof.
  intros L. rewrite firstn_app.
  replace (n - List.length l)%nat with 0%nat by lia.
  cbn [firstn]. apply app_nil_r.
Qed.

(** X5.  The scans look at the most recent entries only: entries older
    than the 1000 most recent change neither the result of [verifyInvoice]
    by identifier, nor that of [getInvoiceStatus], nor that of
    [getLoanStatus]. *)
Theorem scans_ignore_older_entries (ledger older : Ledger) (id : jsstring) :
  (1000 <= List.length ledger)%nat ->
  verifyInvoice (ledger ++ older) (Some id) None = verifyInvoice ledger (Some id) None
  /\ getInvoiceStatus (ledger ++ older) id = getInvoiceStatus ledger id
  /\ getLoanStatus (ledger ++ older) id = getLoanStatus ledger id.
Proof.
  intros L.
  assert (V : verifyInvoice (ledger ++ older) (Some id) None
              = verifyInvoice ledger (Some id) None).
  { unfold verifyInvoice, getSignaturesForAddress.
    now rewrite firstn_window by exact L. }
  split; [exact V|]. split.
  - unfold getInvoiceStatus, getSignaturesForAddress. rewrite V.
    now rewrite firstn_window by lia.
  - unfold getLoanStatus, getSignaturesForAddress. now rewrite firstn_window by exact L.
Qed.

Lemma scans_ignore_older_entries_witness :
  verifyInvoice (Examples.busy ++ snd Scenario.repaid) (Some Scenario.invoice_id) None
  = verifyInvoice Examples.busy (Some Scenario.invoice_id) None
  /\ getInvoiceStatus (Examples.busy ++ snd Scenario.repaid) Scenario.invoice_id
     = getInvoiceStatus Examples.busy Scenario.invoice_id
  /\ getLoanStatus (Examples.busy ++ snd Scenario.repaid) Scenario.invoice_id
     = getLoanStatus Examples.busy Scenario.invoice_id.
Proof.
  apply (scans_ignore_older_entries Examples.busy).
  unfold Examples.busy. rewrite repeat_length. apply le_n.
Defined.

Lemma getTransaction_app (newer older : Ledger) (sig : jsstring) :
  forallb (fun e => negb (str_eqb (signature e) sig)) newer = true ->
  getTransaction (newer ++ older) sig = getTransaction older sig.
Proof.
  unfold getTransaction. induction newer as [|e r IH]; simpl; [reflexivity|].
  intros [E H]%andb_true_iff. apply negb_true_iff in E. rewrite E. now apply IH.
Qed.

(** X6.  Verification by signature is not bound to the window: an entry
    with a memo that recomputes, however many entries are newer than it,
    is verified through its signature, with or without the matching
    identifier given; with another identifier given the result is
    [{verified: false}]. *)
Theorem verifyInvoice_by_signature_any_depth (newer older : Ledger)
    (text sig id : jsstring) (parsed : JSValue) :
  recompute text = Ok (parsed, id) ->
  sig <> [] ->
  forallb (fun e => negb (str_eqb (signature e) sig)) newer = true ->
  let ledger := newer ++ {| signature := sig; memo := Some text |} :: older in
  let verdict :=
    Ok {| verified := true; record := Some (invoice_record parsed id sig) |} in
  verifyInvoice ledger None (Some sig) = verdict
  /\ verifyInvoice ledger (Some id) (Some sig) = verdict
  /\ forall other,
       other <> [] -> str_eqb id other = false ->
       verifyInvoice ledger (Some other) (Some sig) = Ok not_verified.
Proof.
  intros R N F. cbv zeta. destruct sig as [|c t]; [congruence|].
  unfold verifyInvoice. cbn [given negb andb].
  rewrite (getTransaction_app _ _ _ F). unfold getTransaction.
  cbn [find signature]. rewrite str_eqb_refl. cbn [memo]. rewrite R.
  split; [reflexivity|]. split.
  - rewrite str_eqb_refl. destruct id; reflexivity.
  - intros other No E. rewrite E. destruct other; [congruence|reflexivity].
Qed.

Lemma verifyInvoice_by_signature_any_depth_witness :
  exists v,
    verifyInvoice Scenario.crowded None (Some (lit "sig-invoice")) = Ok v
    /\ verified v = true.
Proof.
  assert (C : Scenario.crowded
              = Examples.busy
                ++ [{| signature := lit "sig-invoice";
                       memo := Some (newest_memo (snd Scenario.created)) |}])
    by (vm_compute; reflexivity).
  rewrite C. eexists. split.
  - refine (proj1 (verifyInvoice_by_signature_any_depth _ []
                     (newest_memo (snd Scenario.created)) (lit "sig-invoice")
                     Scenario.invoice_id _ _ _ _)).
    + vm_compute. reflexivity.
    + discriminate.
    + vm_compute. reflexivity.
  - reflexivity.
Defined.

Lemma recompute_errors (text : jsstring) (e : Exn) :
  recompute text = Throw e -> e = SyntaxError \/ e = TypeError.
Proof.
  unfold recompute. destruct (JSON_parse text) as [parsed|]; [|intros [= <-]; auto].
  destruct (read_fields parsed hashed_fields) as [fields|e'] eqn:F; cbn [bind].
  - destruct (stableStringify _); [discriminate|]. intros [= <-]. auto.
  - intros [= <-]. right.
    assert (G : forall ks e0, read_fields parsed ks = Throw e0 -> e0 = TypeError).
    { induction ks as [|k r IH]; intros e0; cbn [read_fields]; [discriminate|].
      destruct (get_property parsed k) as [v|e1] eqn:Gp; cbn [bind].
      - destruct (read_fields parsed r) as [ps|e2]; cbn [bind]; [discriminate|].
        intros [= <-]. now apply IH.
      - intros [= <-]. destruct parsed; cbn in Gp; congruence. }
    exact (G _ _ F).
Qed.

Lemma sound_not_verified : sound_outcome (Ok not_verified).
Proof. cbn. split; [discriminate|]. intros [r H]. discriminate. Qed.

Lemma sound_verified (r : JSValue) :
  sound_outcome (Ok {| verified := true; record := Some r |}).
Proof. cbn. split; [eauto|reflexivity]. Qed.

Lemma scan_for_invoice_sound (id : option jsstring) (txs : list LedgerEntry) :
  sound_outcome (scan_for_invoice id txs).
Proof.
  induction txs as [|tx rest IH]; cbn [scan_for_invoice]; [apply sound_not_verified|].
  destruct (memo tx) as [m|]; [|exact IH].
  destruct (recompute m) as [[parsed calcId]|e0] eqn:R.
  - destruct id as [i|]; [|exact IH].
    destruct (str_eqb calcId i); [apply sound_verified|exact IH].
  - now apply (recompute_errors m).
Qed.

Lemma verifyInvoice_sound (ledger : Ledger) (invoiceId txSignature : option jsstring) :
  given txSignature = true \/ given invoiceId = true ->
  sound_outcome (verifyInvoice ledger invoiceId txSignature).
Proof.
  intros G. unfold verifyInvoice.
  replace (negb (given txSignature) && negb (given invoiceId)) with false
    by (destruct G as [-> | ->]; cbn [negb andb]; now rewrite ?andb_false_r).
  destruct txSignature as [[|c sig']|]; try apply scan_for_invoice_sound.
  destruct (getTransaction ledger (c :: sig')) as [tx|]; [|apply sound_not_verified].
  destruct (memo tx) as [m|]; [|apply sound_not_verified].
  destruct (recompute m) as [[parsed calcId]|e0] eqn:R.
  - destruct invoiceId as [i|]; [|apply sound_verified].
    destruct (given (Some i) && negb (str_eqb calcId i));
      [apply sound_not_verified|apply sound_verified].
  - now apply (recompute_errors m).
Qed.

(** X7.  The results and the errors of [verifyInvoice].  A result carries
    a record exactly when it says verified.  The call raises INVALID_INPUT
    exactly when neither a signature nor an identifier is given (an empty
    string counts as not given); any other error is the SyntaxError or
    TypeError of a memo that could not be read. *)
Theorem verifyInvoice_results_and_errors (ledger : Ledger)
    (invoiceId txSignature : option jsstring) :
  (forall v, verifyInvoice ledger invoiceId txSignature = Ok v ->
             verified v = true <-> exists r, record v = Some r)
  /\ (verifyInvoice ledger invoiceId txSignature
      = Throw (invalid_input "invoiceId or txSignature required")
      <-> given invoiceId = false /\ given txSignature = false)
  /\ (forall e, verifyInvoice ledger invoiceId txSignature = Throw e ->
                e = invalid_input "invoiceId or txSignature required"
                \/ e = SyntaxError \/ e = TypeError).
Proof.
  destruct (given txSignature || given invoiceId) eqn:G.
  - apply orb_true_iff in G. pose proof (verifyInvoice_sound ledger _ _ G) as S.
    destruct (verifyInvoice ledger invoiceId txSignature) as [v|e]; cbn in S.
    + split; [now intros v' [= <-]|]. split; [|discriminate].
      split; [discriminate|]. intros [A B]. rewrite A, B in G. destruct G; discriminate.
    + split; [discriminate|]. split.
      * split.
        -- intros [= ->]. destruct S; discriminate.
        -- intros [A B]. rewrite A, B in G. destruct G; discriminate.
      * intros e' [= <-]. now right.
  - apply orb_false_iff in G. destruct G as [Gs Gi]. unfold verifyInvoice.
    rewrite Gs, Gi. cbn [negb andb].
    split; [discriminate|]. split; [now split|]. intros e [= <-]. now left.
Qed.

(* ================================================================= *)
(** ** Oracles and the local model *)

Lemma query_oracles_declined (fetch : jsstring -> jsstring -> FetchOutcome)
    (request : jsstring) (before rest : list jsstring) :
  forallb (declined fetch request) before = true ->
  query_oracles fetch request (before ++ rest) = query_oracles fetch request rest.
Proof.
  induction before as [|u r IH]; simpl; [reflexivity|].
  intros [D H]%andb_true_iff. unfold declined in D.
  destruct (fetch u request) as [|ok body]; [now apply IH|].
  destruct ok; cbn [negb orb] in *; [|now apply IH].
  destruct (JSON_parse body) as [payload|]; [|now apply IH].
  apply negb_true_iff in D. rewrite D. now apply IH.
Qed.

(** X8.  For an invoice record (an object), the first endpoint, in the
    configured order, whose response is ok, parses and passes the test on
    its three fields decides: its payload is the result of
    [simulateCredit], whatever the endpoints after it would answer and
    whatever the local evaluator would return. *)
Theorem simulateCredit_first_accepted_wins
    (fetch : jsstring -> jsstring -> FetchOutcome)
    (evaluate : JSValue -> Result JSValue)
    (before after : list jsstring) (url body : jsstring)
    (invoice : props JSValue) (payload : JSValue) :
  forallb (declined fetch (oracle_request (VObj invoice))) before = true ->
  fetch url (oracle_request (VObj invoice)) = Response true body ->
  JSON_parse body = Some payload ->
  accepted_shape payload = true ->
  simulateCredit fetch evaluate (Some (before ++ url :: after)) (VObj invoice)
  = Ok payload.
Proof.
  intros D F P A. unfold simulateCredit.
  assert (Q : query_oracles fetch (oracle_request (VObj invoice))
                (before ++ url :: after)
              = Some payload).
  { rewrite (query_oracles_declined _ _ _ _ D). cbn [query_oracles].
    now rewrite F, P, A. }
  destruct (before ++ url :: after) eqn:E.
  - now destruct before.
  - now rewrite Q.
Qed.

Lemma simulateCredit_first_accepted_wins_witness :
  exists payload,
    simulateCredit Oracles.fetch Oracles.failing
      (Some ([Oracles.down_url] ++ Oracles.up_url :: [Oracles.late_url]))
      (VObj Oracles.invoice)
    = Ok payload
    /\ JSON_parse Oracles.up_body = Some payload.
Proof.
  eexists. split.
  - apply (simulateCredit_first_accepted_wins Oracles.fetch Oracles.failing
             [Oracles.down_url] [Oracles.late_url] Oracles.up_url Oracles.up_body
             Oracles.invoice).
    + vm_compute. reflexivity.
    + vm_compute. reflexivity.
    + vm_compute. reflexivity.
    + vm_compute. reflexivity.
  - vm_compute. reflexivity.
Defined.

(** X9.  Oracle failures never surface.  When no endpoint is configured,
    or every configured endpoint is declined, the result of
    [simulateCredit] is that of the local evaluator; and whatever the
    endpoints do, the only error [simulateCredit] can raise is the UNKNOWN
    error that wraps a failure of the local evaluator. *)
Theorem simulateCredit_falls_back
    (fetch : jsstring -> jsstring -> FetchOutcome)
    (evaluate : JSValue -> Result JSValue) (invoice : JSValue) :
  simulateCredit fetch evaluate None invoice = local_model evaluate invoice
  /\ (forall urls,
        forallb (declined fetch (oracle_request invoice)) urls = true ->
        simulateCredit fetch evaluate (Some urls) invoice = local_model evaluate invoice)
  /\ (forall endpoints e,
        simulateCredit fetch evaluate endpoints invoice = Throw e ->
        e = MoviraError UNKNOWN "Failed to evaluate credit"
        /\ exists cause, evaluate invoice = Throw cause).
Proof.
  split; [reflexivity|]. split.
  - intros urls D. unfold simulateCredit. destruct urls as [|u us]; [reflexivity|].
    rewrite <- (app_nil_r (u :: us)), (query_oracles_declined _ _ _ _ D).
    reflexivity.
  - intros endpoints e. unfold simulateCredit, local_model.
    destruct endpoints as [[|u us]|];
      try destruct (query_oracles fetch (oracle_request invoice) (u :: us));
      try discriminate;
      (destruct (evaluate invoice) as [r|cause]; [discriminate|]);
      intros [= <-]; (split; [reflexivity|now exists cause]).
Qed.

(* ================================================================= *)
(** ** Entries the services write, as the scans see them *)

Lemma startsWith_split (p : jsstring) :
  forall s, startsWith s p = true -> exists b, s = p ++ b.
Proof.
  induction p as [|x p IH]; intros s; simpl.
  - intros _. now exists s.
  - destruct s as [|y s]; [discriminate|].
    intros [E H]%andb_true_iff. apply N.eqb_eq in E. subst y.
    destruct (IH _ H) as [b ->]. now exists b.
Qed.

Lemma includes_split (s p : jsstring) :
  includes s p = true <-> exists a b, s = a ++ p ++ b.
Proof.
  split.
  - induction s as [|x s IH]; simpl.
    + rewrite orb_false_r. intros H. destruct (startsWith_split _ _ H) as [b E].
      now exists [], b.
    + intros [H|H]%orb_true_iff.
      * destruct (startsWith_split _ _ H) as [b E]. now exists [], b.
      * destruct (IH H) as (a & b & ->). now exists (x :: a), b.
  - intros (a & b & ->). apply includes_app.
Qed.

Lemma includes_within (s m p : jsstring) :
  includes s m = true -> includes m p = true -> includes s p = true.
Proof.
  rewrite !includes_split. intros (a & b & ->) (a' & b' & ->).
  exists (a ++ a'), (b' ++ b). now rewrite <- !app_assoc.
Qed.

Lemma includes_lower (s m : jsstring) :
  includes s m = true -> includes (toLowerCase s) (toLowerCase m) = true.
Proof.
  rewrite !includes_split. intros (a & b & ->).
  exists (toLowerCase a), (toLowerCase b). unfold toLowerCase. now rewrite !map_app.
Qed.

Lemma includes_join (sep part : jsstring) (parts : list jsstring) :
  In part parts -> includes (join sep parts) part = true.
Proof.
  intros I. apply includes_split. induction parts as [|p r IH]; [contradiction|].
  destruct I as [->|I].
  - destruct r as [|q r]; cbn [join].
    + exists [], []. now rewrite app_nil_r.
    + now exists [], (sep ++ join sep (q :: r)).
  - destruct (IH I) as (a & b & E). destruct r as [|q r]; [contradiction|].
    cbn [join] in *. rewrite E. exists (p ++ sep ++ a), b. now rewrite <- !app_assoc.
Qed.

Lemma quote_unit_unescaped (c : N) : unescaped c = true -> quote_unit c = [c].
Proof.
  unfold unescaped, quote_unit. rewrite !andb_true_iff, !negb_true_iff.
  intros ((((L & Q) & B) & Hi) & Lo). rewrite Q, B, Hi, Lo.
  apply N.leb_le in L.
  repeat match goal with
         | |- context [(c =? ?n)%N] =>
             replace (c =? n)%N with false by (symmetry; apply N.eqb_neq; lia)
         end.
  replace (c <? 32)%N with false by (symmetry; apply N.ltb_ge; lia).
  reflexivity.
Qed.

Lemma quote_units_unescaped (s : jsstring) :
  forallb unescaped s = true -> quote_units s = s.
Proof.
  induction s as [|c r IH]; [reflexivity|].
  cbn [forallb]. intros [C R]%andb_true_iff. cbn [quote_units].
  destruct r as [|d r'].
  - now apply quote_unit_unescaped.
  - assert (Hi : is_high_surrogate c = false).
    { unfold unescaped in C. rewrite !andb_true_iff, !negb_true_iff in C. tauto. }
    rewrite Hi. cbn [andb]. rewrite (quote_unit_unescaped _ C), (IH R). reflexivity.
Qed.

Lemma lower_hex_unescaped (s : jsstring) :
  forallb is_lower_hex s = true -> forallb unescaped s = true.
Proof.
  rewrite !forallb_forall. intros H c I. specialize (H c I).
  unfold is_lower_hex, is_digit in H. unfold unescaped, is_high_surrogate, is_low_surrogate.
  rewrite orb_true_iff, !andb_true_iff, !N.leb_le in H.
  rewrite !andb_true_iff, !negb_true_iff, !andb_false_iff, !N.leb_le, !N.eqb_neq,
    !N.leb_gt.
  lia.
Qed.

Lemma quoted_includes (s : jsstring) :
  forallb unescaped s = true -> includes (QuoteJSONString s) s = true.
Proof.
  intros U. unfold QuoteJSONString. rewrite (quote_units_unescaped _ U).
  apply (includes_app s [34%N] [34%N]).
Qed.

(** The memo [repayLoan] writes. *)
Lemma repay_memo_text (loanId : jsstring) :
  JSON_stringify
    (VObj (object_literal [(lit "type", VStr (lit "repay")); (lit "loanId", VStr loanId)]))
  = Some (json_lit "{'type':'repay','loanId':" ++ QuoteJSONString loanId ++ lit "}").
Proof. reflexivity. Qed.

Lemma repay_memo_mentions (loanId sig : jsstring) :
  forallb unescaped loanId = true ->
  mentions loanId (lit "repay")
    {| signature := sig;
       memo := Some (json_lit "{'type':'repay','loanId':" ++ QuoteJSONString loanId
                     ++ lit "}") |} = true.
Proof.
  intros U. unfold mentions. cbn [memo]. apply andb_true_iff. split.
  - apply includes_split.
    exists (json_lit "{'type':'repay','loanId':" ++ [34%N]), ([34%N] ++ lit "}").
    unfold QuoteJSONString. rewrite (quote_units_unescaped _ U).
    change (34%N :: loanId ++ [34%N]) with ([34%N] ++ loanId ++ [34%N]).
    now rewrite <- !app_assoc.
  - unfold toLowerCase. rewrite map_app.
    apply (includes_app (lit "repay") (json_lit "{'type':'")).
Qed.

(** X10.  A confirmed repayment is seen by the status scan: when the loan
    identifier holds only characters that JSON writes as they are (as the
    hexadecimal identifiers of the SDK do), [getLoanStatus] on the ledger
    [repayLoan] leaves is 'repaid', whatever the ledger held before; and
    an invoice verified under that identifier is 'settled'. *)
Theorem repayLoan_then_repaid (wallet : option jsstring) (submission : Submission)
    (lenderPubkey loanId sig : jsstring) (ledger ledger' : Ledger) :
  repayLoan wallet submission lenderPubkey loanId ledger = (Ok sig, ledger') ->
  forallb unescaped loanId = true ->
  getLoanStatus ledger' loanId = ln_repaid
  /\ (forall v, verifyInvoice ledger' (Some loanId) None = Ok v -> verified v = true ->
        getInvoiceStatus ledger' loanId = Ok st_settled).
Proof.
  unfold repayLoan. destruct wallet as [w|]; [|discriminate].
  destruct (negb (truthy (VStr lenderPubkey))); [discriminate|].
  rewrite repay_memo_text. destruct submission as [sg|]; [|discriminate].
  intros [= <- <-] U. pose proof (repay_memo_mentions loanId sg U) as M.
  split.
  - unfold getLoanStatus. apply scan_loan_status_repaid.
    cbn [getSignaturesForAddress firstn existsb]. apply orb_true_iff. left. exact M.
  - intros v V T. unfold getInvoiceStatus. rewrite V. cbn [bind]. rewrite T.
    cbn [negb]. rewrite scan_invoice_status_settled; [reflexivity|].
    cbn [getSignaturesForAddress firstn existsb]. apply orb_true_iff. left. exact M.
Qed.

Lemma repayLoan_then_repaid_witness :
  getLoanStatus
    (snd (repayLoan (Some Scenario.wallet) (Confirmed (lit "sig-repay")) Examples.lender
            Scenario.loan_id (snd Scenario.requested)))
    Scenario.loan_id
  = ln_repaid.
Proof.
  refine (proj1 (repayLoan_then_repaid (Some Scenario.wallet)
                   (Confirmed (lit "sig-repay")) Examples.lender Scenario.loan_id
                   (lit "sig-repay") (snd Scenario.requested) _ _ _)).
  - vm_compute. reflexivity.
  - vm_compute. reflexivity.
Defined.


(** The canonical text of a flat record with plain keys, and what the
    parser makes of it. *)
Lemma flat_canonical (o : props JSValue) :
  distinct (map fst o) = true ->
  forallb plain_key (map fst o) = true ->
  forallb (fun p => scalar (snd p)) o = true ->
  let text := lit "{"
              ++ join (lit ",") (map member_text (keyed (obj_get o) (sort (map fst o))))
              ++ lit "}" in
  stableStringify (VObj o) = Some text
  /\ JSON_parse text
     = Some (VObj (keyed (fun k => parsed_back (obj_get o k)) (sort (map fst o)))).
Proof.
  intros Do Po Sc. cbv zeta.
  pose proof Do as Do'. apply distinct_NoDup in Do'.
  set (ks := sort (map fst o)).
  assert (Pm : Permutation ks (map fst o)) by apply sort_perm.
  assert (Dk : NoDup ks) by (eapply Permutation_NoDup; [apply Permutation_sym, Pm|exact Do']).
  assert (Pk : forallb plain_key ks = true) by (eapply forallb_plain_perm; eauto).
  assert (Val : forall k, In k ks -> scalar (obj_get o k) = true).
  { intros k I. apply obj_get_scalar; [exact Sc|]. eapply Permutation_in; eauto. }
  assert (E1 : sortObject (VObj o) = VObj (keyed (obj_get o) ks)).
  { rewrite sortObject_plain_object.
    - f_equal. apply keyed_ext. intros k I. now apply scalar_facts, Val.
    - apply well_formed_object. split; [exact Do'|]. intros k v I.
      rewrite forallb_forall in Sc. now apply scalar_facts, (Sc (k, v)).
    - apply plain_keys_object. split.
      + intros k I. rewrite forallb_forall in Po. specialize (Po k I).
        unfold plain_key in Po. apply andb_true_iff in Po.
        rewrite !negb_true_iff, str_eqb_neq in Po. exact Po.
      + intros k v I. rewrite forallb_forall in Sc. specialize (Sc (k, v) I).
        cbn [snd] in Sc. now destruct v. }
  assert (AllDef : filter (fun k => negb (is_undefined (obj_get o k))) ks = ks).
  { apply filter_all. intros k I.
    destruct (scalar_facts _ (Val k I)) as (_ & _ & U & _). now rewrite U. }
  assert (T1 : JSON_stringify (VObj (keyed (obj_get o) ks))
               = Some (lit "{" ++ join (lit ",") (map member_text (keyed (obj_get o) ks))
                       ++ lit "}")).
  { rewrite stringify_keyed by exact Pk. now rewrite AllDef. }
  split; [unfold stableStringify; now rewrite E1|].
  rewrite (JSON_parse_stringify (VObj (keyed (obj_get o) ks)) _); [|
    apply well_formed_keyed; [exact Dk|intros k I; now apply scalar_facts, Val]
    | exact T1].
  f_equal. rewrite parsed_back_object, own_props_keyed by exact Pk.
  rewrite filter_defined_keyed, AllDef. unfold keyed. rewrite map_map. f_equal.
  apply map_ext_in. intros k I. cbn [fst snd]. f_equal. unfold element_back.
  destruct (scalar_facts _ (Val k I)) as (_ & _ & U & _). now rewrite U.
Qed.

Lemma loan_payload_flat (input : LoanRequest) (borrowerWallet : jsstring)
    (createdAt : Z) :
  let ps := LoanRequest_props input
            ++ [(lit "borrowerWallet", VStr borrowerWallet);
                (lit "createdAt", VNum (number_of_Z createdAt))] in
  distinct (map fst ps) = true
  /\ forallb plain_key (map fst ps) = true
  /\ forallb (fun p => scalar (snd p)) ps = true.
Proof.
  destruct input as [i a d [l|]]; cbv zeta; unfold LoanRequest_props;
    cbn [invoiceId requestedAmount loanDurationDays lenderWallet optional_prop app
         map fst snd forallb scalar andb];
    repeat apply conj; vm_compute; reflexivity.
Qed.

(** The memo [requestLoan] writes holds the invoice identifier and, in its
    keys, the word 'loan'. *)
Lemma loan_memo_mentions (input : LoanRequest) (borrowerWallet : jsstring)
    (createdAt : Z) (serialized loanId sig : jsstring) :
  buildLoanPayload input borrowerWallet createdAt = Ok (serialized, loanId) ->
  forallb unescaped (invoiceId input) = true ->
  mentions (invoiceId input) (lit "loan")
           {| signature := sig; memo := Some serialized |} = true.
Proof.
  unfold buildLoanPayload.
  destruct (loan_payload_flat input borrowerWallet createdAt) as (D & P & Sc).
  cbv zeta in D, P, Sc. rewrite (object_literal_distinct _ D).
  destruct (flat_canonical _ D P Sc) as [T _]. cbv zeta in T. rewrite T.
  intros [= <- _] U. unfold mentions. cbn [memo].
  set (ps := LoanRequest_props input ++ _) in *.
  set (parts := map member_text (keyed (obj_get ps) (sort (map fst ps)))).
  assert (In1 : In (member_text (lit "invoiceId", VStr (invoiceId input))) parts).
  { unfold parts, keyed. rewrite map_map. apply in_map_iff. exists (lit "invoiceId").
    split.
    - reflexivity.
    - eapply Permutation_in; [apply Permutation_sym, sort_perm|].
      unfold ps. destruct input as [i a d [l|]]; vm_compute; tauto. }
  assert (In2 : exists v, In (member_text (lit "loanDurationDays", v)) parts).
  { exists (VNum (loanDurationDays input)).
    unfold parts, keyed. rewrite map_map. apply in_map_iff.
    exists (lit "loanDurationDays"). split.
    - reflexivity.
    - eapply Permutation_in; [apply Permutation_sym, sort_perm|].
      unfold ps. destruct input as [i a d [l|]]; vm_compute; tauto. }
  assert (W : forall part, In part parts ->
                           includes (lit "{" ++ join (lit ",") parts ++ lit "}") part = true).
  { intros part I. apply (includes_within _ (join (lit ",") parts));
      [apply includes_app|now apply includes_join]. }
  apply andb_true_iff. split.
  - apply (includes_within _ _ _ (W _ In1)).
    unfold member_text. cbn [fst snd JSON_stringify element].
    apply includes_split.
    exists (QuoteJSONString (lit "invoiceId") ++ lit ":" ++ [34%N]), [34%N].
    unfold QuoteJSONString at 2. rewrite (quote_units_unescaped _ U).
    change (34%N :: invoiceId input ++ [34%N]) with ([34%N] ++ invoiceId input ++ [34%N]).
    now rewrite <- !app_assoc.
  - destruct In2 as [v In2].
    apply (includes_within _ _ _ (includes_lower _ _ (W _ In2))).
    unfold member_text, toLowerCase. cbn [fst snd]. rewrite map_app.
    apply (includes_app (lit "loan") [34%N]).
Qed.

(** X11.  A confirmed loan request marks its invoice: when the invoice
    identifier holds only characters that JSON writes as they are, the
    entry [requestLoan] adds mentions the invoice together with 'loan', so
    an invoice verified on the new ledger is no longer 'verified': it is
    'settled' if an entry among the 200 most recent mentions it together
    with 'repay', and 'financed' otherwise. *)
Theorem requestLoan_marks_invoice (wallet : option jsstring) (createdAt : Z)
    (submission : Submission) (input : LoanRequest) (ledger ledger' : Ledger)
    (loanId sig : jsstring) :
  requestLoan wallet createdAt submission input ledger = (Ok (loanId, sig), ledger') ->
  forallb unescaped (invoiceId input) = true ->
  existsb (mentions (invoiceId input) (lit "loan")) (getSignaturesForAddress ledger' 200)
  = true
  /\ (forall v,
        verifyInvoice ledger' (Some (invoiceId input)) None = Ok v ->
        verified v = true ->
        getInvoiceStatus ledger' (invoiceId input)
        = Ok (if existsb (mentions (invoiceId input) (lit "repay"))
                         (getSignaturesForAddress ledger' 200)
              then st_settled else st_financed)).
Proof.
  unfold requestLoan. destruct wallet as [w|]; [|discriminate].
  destruct (negb (truthy (VStr (invoiceId input)))); [discriminate|].
  destruct (negb (num_gtb (requestedAmount input) (Zero false))); [discriminate|].
  destruct (buildLoanPayload input w createdAt) as [[serialized id]|] eqn:B;
    [|discriminate].
  destruct submission as [sg|]; [|discriminate].
  intros [= <- <- <-] U.
  pose proof (loan_memo_mentions input w createdAt serialized id sg B U) as M.
  assert (L : existsb (mentions (invoiceId input) (lit "loan"))
                (getSignaturesForAddress
                   ({| signature := sg; memo := Some serialized |} :: ledger) 200)
              = true).
  { cbn [getSignaturesForAddress firstn existsb]. now rewrite M. }
  split; [exact L|].
  intros v V T. unfold getInvoiceStatus. rewrite V. cbn [bind]. rewrite T. cbn [negb].
  destruct (existsb (mentions (invoiceId input) (lit "repay")) _) eqn:R.
  - now rewrite scan_invoice_status_settled.
  - now rewrite scan_invoice_status_financed, L.
Qed.

Lemma requestLoan_marks_invoice_witness :
  getInvoiceStatus (snd Scenario.requested) (invoiceId Scenario.request) = Ok st_financed.
Proof.
  assert (V : exists v,
             verifyInvoice (snd Scenario.requested) (Some (invoiceId Scenario.request)) None
             = Ok v
             /\ verified v = true)
    by (eexists; split; [vm_compute; reflexivity|reflexivity]).
  destruct V as (v & V & T).
  assert (R : existsb (mentions (invoiceId Scenario.request) (lit "repay"))
                (getSignaturesForAddress (snd Scenario.requested) 200) = false)
    by (vm_compute; reflexivity).
  pose proof (proj2 (requestLoan_marks_invoice (Some Scenario.wallet) (Scenario.now + 100)
                      (Confirmed (lit "sig-loan")) Scenario.request (snd Scenario.created)
                      (snd Scenario.requested) Scenario.loan_id (lit "sig-loan")
                      ltac:(vm_compute; reflexivity) ltac:(vm_compute; reflexivity))
                v V T) as H.
  rewrite R in H. exact H.
Defined.

(* ================================================================= *)
(** ** Identifiers matched as substrings *)

Lemma find_none_existsb {A : Type} (p : A -> bool) (l : list A) :
  find p l = None <-> existsb p l = false.
Proof.
  induction l as [|a l IH]; cbn [find existsb]; [tauto|].
  destruct (p a); cbn [orb]; [split; discriminate|exact IH].
Qed.

Lemma existsb_reversed {A : Type} (p : A -> bool) (l : list A) :
  existsb p (rev l) = existsb p l.
Proof.
  induction l as [|a l IH]; [reflexivity|].
  cbn [rev existsb]. rewrite existsb_app, IH. cbn [existsb].
  rewrite orb_false_r. apply orb_comm.
Qed.

Lemma existsb_weaken {A : Type} (p q : A -> bool) (l : list A) :
  (forall a, p a = true -> q a = true) -> existsb p l = true -> existsb q l = true.
Proof.
  intros H. rewrite !existsb_exists. intros (a & I & P). exists a. auto.
Qed.

Lemma getLoanStatus_repaid_iff (ledger : Ledger) (id : jsstring) :
  getLoanStatus ledger id = ln_repaid
  <-> existsb (mentions id (lit "repay")) (getSignaturesForAddress ledger 1000) = true.
Proof.
  unfold getLoanStatus. split.
  - destruct (existsb _ _) eqn:R; [reflexivity|].
    rewrite scan_loan_status_last by exact R.
    destruct (find _ _) as [e|]; [|discriminate].
    unfold loan_status_of. destruct (funding e); discriminate.
  - apply scan_loan_status_repaid.
Qed.

Lemma getLoanStatus_not_found_iff (ledger : Ledger) (id : jsstring) :
  getLoanStatus ledger id = ln_not_found
  <-> existsb (references id) (getSignaturesForAddress ledger 1000) = false.
Proof.
  unfold getLoanStatus.
  destruct (existsb (mentions id (lit "repay")) (getSignaturesForAddress ledger 1000))
    eqn:R.
  - rewrite scan_loan_status_repaid by exact R.
    rewrite (existsb_weaken _ (references id) _ (mentions_references id _) R).
    split; discriminate.
  - rewrite scan_loan_status_last by exact R.
    rewrite <- existsb_reversed, <- find_none_existsb.
    destruct (find _ _) as [e|]; [|tauto].
    unfold loan_status_of. destruct (funding e); split; discriminate.
Qed.

Lemma references_substring (id sub : jsstring) (e : LedgerEntry) :
  includes id sub = true -> references id e = true -> references sub e = true.
Proof.
  unfold references. destruct (memo e) as [m|]; [|discriminate].
  intros S I. exact (includes_within _ _ _ I S).
Qed.

Lemma mentions_substring (id sub kw : jsstring) (e : LedgerEntry) :
  includes id sub = true -> mentions id kw e = true -> mentions sub kw e = true.
Proof.
  unfold mentions. destruct (memo e) as [m|]; [|discriminate].
  intros S [I K]%andb_true_iff. now rewrite (includes_within _ _ _ I S), K.
Qed.

(** X18.  Identifiers are matched as substrings.  [getLoanStatus] and the
    second scan of [getInvoiceStatus] keep every entry whose memo contains
    the identifier as a substring, so a query for any part of an
    identifier, the empty string included, sees the entries of the whole
    identifier: if the loan is 'repaid' so is the part, and if the loan is
    found so is the part. *)
Theorem getLoanStatus_matches_substrings (ledger : Ledger) (id sub : jsstring) :
  includes id sub = true ->
  (getLoanStatus ledger id = ln_repaid -> getLoanStatus ledger sub = ln_repaid)
  /\ (getLoanStatus ledger id <> ln_not_found -> getLoanStatus ledger sub <> ln_not_found)
  /\ (forall kw e, mentions id kw e = true -> mentions sub kw e = true).
Proof.
  intros S. split; [|split].
  - rewrite !getLoanStatus_repaid_iff.
    apply existsb_weaken. intros e. now apply mentions_substring.
  - rewrite !getLoanStatus_not_found_iff, !not_false_iff_true.
    apply existsb_weaken. intros e. now apply references_substring.
  - intros kw e. now apply mentions_substring.
Qed.

Lemma getLoanStatus_matches_substrings_witness :
  getLoanStatus
    (snd (repayLoan (Some Scenario.wallet) (Confirmed (lit "sig-repay")) Examples.lender
            Scenario.loan_id (snd Scenario.requested)))
    (firstn 8 Scenario.loan_id)
  = ln_repaid.
Proof.
  refine (proj1 (getLoanStatus_matches_substrings _ Scenario.loan_id
                   (firstn 8 Scenario.loan_id) _) _).
  - vm_compute. reflexivity.
  - vm_compute. reflexivity.
Defined.

(* ================================================================= *)
(** ** The memo and the invoice *)

Lemma normal_number_value (x : number) :
  (num_value (normal_number x) == num_value x)%Q.
Proof.
  destruct x as [|n|n|neg d e]; try reflexivity.
  unfold normal_number. destruct (normalize d e) as [s e'] eqn:Nm.
  unfold normalize in Nm. apply strip10_value in Nm. destruct Nm as [Le V].
  rewrite (scaled_value (Finite neg s e') e) by exact Le.
  unfold num_value. cbn [mantissa exponent].
  assert (M : ((if neg then Z.neg s else Z.pos s) * 10 ^ (e' - e)
               = if neg then Z.neg d else Z.pos d)%Z).
  { destruct neg; [|now rewrite V].
    change (Z.neg s) with (- Z.pos s)%Z. change (Z.neg d) with (- Z.pos d)%Z.
    rewrite V. ring. }
  destruct neg; now rewrite M.
Qed.

(** Two numbers with the same JSON text are both not finite, or are finite
    with the same value. *)
Lemma parsed_back_number (a b : number) :
  parsed_back (VNum a) = parsed_back (VNum b) ->
  Number_isFinite a = Number_isFinite b
  /\ (Number_isFinite a = true -> (num_value a == num_value b)%Q).
Proof.
  cbn [parsed_back].
  destruct (Number_isFinite a) eqn:Fa, (Number_isFinite b) eqn:Fb; try discriminate.
  - intros [= E]. split; [reflexivity|]. intros _.
    now rewrite <- (normal_number_value a), <- (normal_number_value b), E.
  - intros _. split; [reflexivity|discriminate].
Qed.

Lemma of_Z_injective (a b : Z) :
  parsed_back (VNum (number_of_Z a)) = parsed_back (VNum (number_of_Z b)) -> a = b.
Proof.
  intros H. apply parsed_back_number in H. destruct H as [_ H].
  specialize (H (number_of_Z_finite a)). rewrite !num_value_of_Z in H.
  unfold Qeq in H. cbn in H. lia.
Qed.

Lemma invoice_payload_plain (input : InvoiceInput) (issuerWallet : jsstring)
    (createdAt : Z) :
  forallb plain_key
    (map fst (InvoiceInput_props input
              ++ [(lit "issuerWallet", VStr issuerWallet);
                  (lit "createdAt", VNum (number_of_Z createdAt))])) = true.
Proof.
  destruct input as [a r dd [d|] [n|]]; vm_compute; reflexivity.
Qed.

(** What [verifyInvoice] reads, field by field, from the record parsed
    from the memo of an invoice. *)
Lemma invoice_fields_read (input : InvoiceInput) (issuerWallet : jsstring)
    (createdAt : Z) :
  let ps := InvoiceInput_props input
            ++ [(lit "issuerWallet", VStr issuerWallet);
                (lit "createdAt", VNum (number_of_Z createdAt))] in
  map (obj_get (keyed (fun k => parsed_back (obj_get ps k)) (sort (map fst ps))))
      hashed_fields
  = [parsed_back (VNum (amount input)); VStr (recipientWallet input);
     parsed_back (VNum (dueDate input));
     optional_value (description input); optional_value (issuerName input);
     VStr issuerWallet; parsed_back (VNum (number_of_Z createdAt))].
Proof.
  cbv zeta. unfold hashed_fields. cbn [map]. rewrite !obj_get_keyed.
  destruct input as [a r dd [d|] [n|]];
    cbn [amount recipientWallet dueDate description issuerName optional_value];
    cbv - [parsed_back number_of_Z]; reflexivity.
Qed.

Lemma optional_value_injective (a b : option jsstring) :
  optional_value a = optional_value b -> a = b.
Proof. destruct a, b; cbn; congruence. Qed.

Lemma invoice_payload_parsed (input : InvoiceInput) (issuerWallet : jsstring)
    (createdAt : Z) (text id : jsstring) :
  buildInvoicePayload input issuerWallet createdAt = Ok (text, id) ->
  id = sha256Hex text
  /\ exists parsed,
       JSON_parse text = Some (VObj parsed)
       /\ map (obj_get parsed) hashed_fields
          = [parsed_back (VNum (amount input)); VStr (recipientWallet input);
             parsed_back (VNum (dueDate input));
             optional_value (description input); optional_value (issuerName input);
             VStr issuerWallet; parsed_back (VNum (number_of_Z createdAt))].
Proof.
  unfold buildInvoicePayload.
  destruct (invoice_payload_flat input issuerWallet createdAt) as (D & _ & Sc).
  pose proof (invoice_payload_plain input issuerWallet createdAt) as P.
  cbv zeta in D, Sc. rewrite (object_literal_distinct _ D).
  destruct (flat_canonical _ D P Sc) as [T Pa]. cbv zeta in T, Pa. rewrite T.
  intros [= <- <-]. split; [reflexivity|].
  eexists. split; [exact Pa|]. apply invoice_fields_read.
Qed.

(** X12.  The memo determines the invoice.  Two calls of [createInvoice]
    that write the same memo text were given the same recipient,
    description and issuer name, by the same issuer at the same creation
    time, with amounts and due dates that are the same numbers (or are
    both not finite), and they return the same identifier: apart from a
    collision of SHA-256, distinct invoices have distinct identifiers. *)
Theorem invoice_memo_determines_invoice (i1 i2 : InvoiceInput) (w1 w2 : jsstring)
    (t1 t2 : Z) (text id1 id2 : jsstring) :
  buildInvoicePayload i1 w1 t1 = Ok (text, id1) ->
  buildInvoicePayload i2 w2 t2 = Ok (text, id2) ->
  id1 = id2
  /\ recipientWallet i1 = recipientWallet i2
  /\ description i1 = description i2
  /\ issuerName i1 = issuerName i2
  /\ w1 = w2
  /\ t1 = t2
  /\ Number_isFinite (amount i1) = Number_isFinite (amount i2)
  /\ (Number_isFinite (amount i1) = true ->
      (num_value (amount i1) == num_value (amount i2))%Q)
  /\ Number_isFinite (dueDate i1) = Number_isFinite (dueDate i2)
  /\ (Number_isFinite (dueDate i1) = true ->
      (num_value (dueDate i1) == num_value (dueDate i2))%Q).
Proof.
  intros B1 B2.
  destruct (invoice_payload_parsed _ _ _ _ _ B1) as (-> & p1 & P1 & F1).
  destruct (invoice_payload_parsed _ _ _ _ _ B2) as (-> & p2 & P2 & F2).
  rewrite P1 in P2. injection P2 as <-. rewrite F1 in F2.
  injection F2 as A R Du De Na W C.
  apply parsed_back_number in A. apply parsed_back_number in Du.
  apply optional_value_injective in De. apply optional_value_injective in Na.
  apply of_Z_injective in C.
  destruct A as [A1 A2], Du as [D1 D2]. repeat split; assumption.
Qed.

Lemma invoice_memo_determines_invoice_witness :
  (num_value (amount Scenario.input) == num_value (amount Examples.restated))%Q
  /\ (num_value (dueDate Scenario.input) == num_value (dueDate Examples.restated))%Q.
Proof.
  pose proof (invoice_memo_determines_invoice Scenario.input Examples.restated
                Scenario.wallet Scenario.wallet Scenario.now Scenario.now
                (newest_memo (snd Scenario.created)) Scenario.invoice_id Scenario.invoice_id
                ltac:(vm_compute; reflexivity) ltac:(vm_compute; reflexivity)) as H.
  destruct H as (_ & _ & _ & _ & _ & _ & _ & A & _ & D).
  split; [apply A|apply D]; reflexivity.
Defined.

Lemma num_gtb_zero (x : number) :
  num_gtb x (Zero false) = true <->
  x = Infinity false \/ exists d e, x = Finite false d e.
Proof.
  unfold num_gtb, num_ltb. destruct x as [|n|n|n d e]; cbn [mantissa exponent negb].
  - split; [discriminate|]. intros [H|(d & e & H)]; discriminate.
  - destruct n; cbn; split; auto; try discriminate.
    intros [H|(d & e & H)]; discriminate.
  - rewrite Z.ltb_irrefl. split; [discriminate|]. intros [H|(d & e & H)]; discriminate.
  - assert (0 < 10 ^ (e - Z.min 0 e))%Z by (apply Z.pow_pos_nonneg; lia).
    destruct n.
    + split; [|intros [H'|(d' & e' & H')]; discriminate].
      intros H'. apply Z.ltb_lt in H'. exfalso.
      change (Z.neg d) with (- Z.pos d)%Z in H'. nia.
    + split; [intros _; right; now exists d, e|]. intros _. apply Z.ltb_lt. nia.
Qed.

Lemma loan_payload_built (input : LoanRequest) (borrowerWallet : jsstring)
    (createdAt : Z) :
  exists text parsed,
    buildLoanPayload input borrowerWallet createdAt = Ok (text, sha256Hex text)
    /\ JSON_parse text = Some (VObj parsed).
Proof.
  unfold buildLoanPayload.
  destruct (loan_payload_flat input borrowerWallet createdAt) as (D & P & Sc).
  cbv zeta in D, P, Sc. rewrite (object_literal_distinct _ D).
  destruct (flat_canonical _ D P Sc) as [T Pa]. cbv zeta in T, Pa. rewrite T.
  eexists. eexists. split; [reflexivity|exact Pa].
Qed.

(** X13.  What [requestLoan] accepts.  Without a wallet it fails with
    WALLET_NOT_CONNECTED before looking at the input; an empty invoiceId
    fails with INVALID_INPUT, then a requestedAmount that is not greater
    than zero, NaN included; a positive amount, +Infinity included, is
    accepted whatever loanDurationDays is.  An accepted request whose
    submission fails gives TRANSACTION_FAILED.  Every failure leaves the
    ledger as it was; a confirmed request adds one entry, whose memo
    hashes to the loan identifier returned. *)
Theorem requestLoan_outcomes (createdAt : Z) (submission : Submission)
    (input : LoanRequest) (ledger : Ledger) :
  requestLoan None createdAt submission input ledger
  = (Throw (MoviraError WALLET_NOT_CONNECTED "Wallet not connected"), ledger)
  /\ forall w,
       (invoiceId input = [] ->
        requestLoan (Some w) createdAt submission input ledger
        = (Throw (invalid_input "invoiceId required"), ledger))
       /\ (invoiceId input <> [] ->
           ~ (requestedAmount input = Infinity false
              \/ exists d e, requestedAmount input = Finite false d e) ->
           requestLoan (Some w) createdAt submission input ledger
           = (Throw (invalid_input "requestedAmount must be > 0"), ledger))
       /\ (invoiceId input <> [] ->
           (requestedAmount input = Infinity false
            \/ exists d e, requestedAmount input = Finite false d e) ->
           exists text,
             requestLoan (Some w) createdAt submission input ledger
             = match submission with
               | Confirmed sig =>
                   (Ok (sha256Hex text, sig),
                    {| signature := sig; memo := Some text |} :: ledger)
               | Failed =>
                   (Throw (MoviraError TRANSACTION_FAILED "Failed to submit loan request"),
                    ledger)
               end).
Proof.
  split; [reflexivity|]. intros w. unfold requestLoan.
  split; [|split].
  - intros ->. reflexivity.
  - intros N A. rewrite <- num_gtb_zero in A. apply not_true_is_false in A.
    rewrite A. destruct (invoiceId input); [congruence|reflexivity].
  - intros N A. rewrite <- num_gtb_zero in A. rewrite A.
    destruct (loan_payload_built input w createdAt) as (text & parsed & B & _).
    exists text. rewrite B. destruct (invoiceId input); [congruence|reflexivity].
Qed.

(** X14.  The identifiers [createInvoice] and [requestLoan] return are 64
    characters of [0-9a-f], none of which JSON escapes. *)
Theorem identifiers_are_lowercase_hex :
  (forall wallet now createdAt submission input ledger id sig ledger',
     createInvoice wallet now createdAt submission input ledger = (Ok (id, sig), ledger') ->
     List.length id = 64%nat /\ forallb is_lower_hex id = true
     /\ forallb unescaped id = true)
  /\ (forall wallet createdAt submission input ledger id sig ledger',
        requestLoan wallet createdAt submission input ledger = (Ok (id, sig), ledger') ->
        List.length id = 64%nat /\ forallb is_lower_hex id = true
        /\ forallb unescaped id = true).
Proof.
  assert (S : forall text, List.length (sha256Hex text) = 64%nat
                           /\ forallb is_lower_hex (sha256Hex text) = true
                           /\ forallb unescaped (sha256Hex text) = true).
  { intros text. destruct (sha256Hex_shape text) as [L H].
    repeat split; auto using lower_hex_unescaped. }
  split.
  - intros wallet now createdAt submission input ledger id sig ledger'.
    unfold createInvoice, buildInvoicePayload.
    destruct (validateInvoiceInput now input); [|discriminate].
    destruct wallet; [|discriminate].
    destruct (stableStringify _); [|discriminate].
    destruct submission; [|discriminate].
    intros [= <- _ _]. apply S.
  - intros wallet createdAt submission input ledger id sig ledger'.
    unfold requestLoan, buildLoanPayload.
    destruct wallet; [|discriminate].
    destruct (negb _); [discriminate|]. destruct (negb _); [discriminate|].
    destruct (stableStringify _); [|discriminate].
    destruct submission; [|discriminate].
    intros [= <- _ _]. apply S.
Qed.

Lemma recompute_object (text : jsstring) (o : props JSValue) :
  JSON_parse text = Some (VObj o) ->
  exists calcId, recompute text = Ok (VObj o, calcId).
Proof.
  intros P. unfold recompute. rewrite P, read_fields_object. cbn [bind].
  unfold stableStringify. rewrite sortObject_object. cbn [JSON_stringify].
  eexists. reflexivity.
Qed.

Lemma scan_passes (id : jsstring) (e : LedgerEntry) (rest : list LedgerEntry)
    (text calcId : jsstring) (parsed : JSValue) :
  memo e = Some text -> recompute text = Ok (parsed, calcId) ->
  scan_for_invoice (Some id) (e :: rest)
  = if str_eqb calcId id
    then Ok {| verified := true;
               record := Some (invoice_record parsed calcId (signature e)) |}
    else scan_for_invoice (Some id) rest.
Proof. intros M R. cbn [scan_for_invoice]. now rewrite M, R. Qed.

(** X15.  The entries the SDK itself writes never stop [verifyInvoice].
    The memo of a loan request and the memo of a repayment parse to
    objects, so the identifier is recomputed from them without error and
    the scan either matches the entry or goes on to the next one.  For a
    repayment memo none of the hashed fields is present and the recomputed
    identifier is the hash of the empty record. *)
Theorem sdk_memos_do_not_stop_the_scan :
  (forall input borrowerWallet createdAt text loanId,
     buildLoanPayload input borrowerWallet createdAt = Ok (text, loanId) ->
     exists parsed calcId,
       recompute text = Ok (parsed, calcId)
       /\ forall id sig rest,
            str_eqb calcId id = false ->
            scan_for_invoice (Some id) ({| signature := sig; memo := Some text |} :: rest)
            = scan_for_invoice (Some id) rest)
  /\ (forall loanId text,
        JSON_stringify
          (VObj (object_literal
                   [(lit "type", VStr (lit "repay")); (lit "loanId", VStr loanId)]))
        = Some text ->
        exists parsed,
          recompute text = Ok (parsed, sha256Hex (lit "{}"))
          /\ forall id sig rest,
               str_eqb (sha256Hex (lit "{}")) id = false ->
               scan_for_invoice (Some id)
                 ({| signature := sig; memo := Some text |} :: rest)
               = scan_for_invoice (Some id) rest).
Proof.
  split.
  - intros input w t text loanId B.
    destruct (loan_payload_built input w t) as (text' & parsed & B' & P).
    rewrite B in B'. injection B' as <- _.
    destruct (recompute_object _ _ P) as [calcId R].
    exists (VObj parsed), calcId. split; [exact R|].
    intros id sig rest N.
    rewrite (scan_passes id {| signature := sig; memo := Some text |} rest text calcId
               (VObj parsed) eq_refl R).
    now rewrite N.
  - intros loanId text S.
    assert (P : JSON_parse text
                = Some (VObj [(lit "type", VStr (lit "repay"));
                              (lit "loanId", VStr loanId)])).
    { rewrite (JSON_parse_stringify
                 (VObj (object_literal
                          [(lit "type", VStr (lit "repay")); (lit "loanId", VStr loanId)]))
                 text eq_refl S).
      reflexivity. }
    assert (R : recompute text
                = Ok (VObj [(lit "type", VStr (lit "repay")); (lit "loanId", VStr loanId)],
                      sha256Hex (lit "{}"))).
    { unfold recompute. rewrite P. reflexivity. }
    eexists. split; [exact R|].
    intros id sig rest N.
    rewrite (scan_passes id {| signature := sig; memo := Some text |} rest text _ _
               eq_refl R).
    now rewrite N.
Qed.

(* ================================================================= *)
(** ** Canonical values *)

Lemma sort_fixed (ks : list jsstring) : sort (sort ks) = sort ks.
Proof.
  apply sorted_perm_eq; [apply sort_sorted|apply sort_sorted|apply sort_perm].
Qed.

Lemma plain_key_iff (k : jsstring) :
  plain_key k = true <-> is_index k = false /\ k <> proto_key.
Proof.
  unfold plain_key. rewrite andb_true_iff, !negb_true_iff, str_eqb_neq. reflexivity.
Qed.

Lemma sortObject_canonical (v : JSValue) :
  well_formed v = true -> plain_keys v = true ->
  sortObject (sortObject v) = sortObject v
  /\ well_formed (sortObject v) = true
  /\ plain_keys (sortObject v) = true.
Proof.
  induction v as [| |b|x|s|d|l IH|o IH] using value_ind; intros W Pk;
    try (repeat split; reflexivity).
  - cbn [sortObject well_formed plain_keys] in *.
    rewrite Forall_forall in IH. rewrite forallb_forall in W, Pk.
    repeat split.
    + f_equal. rewrite map_map. apply map_ext_in. intros e I.
      now apply IH; auto.
    + apply forallb_forall. intros e I. apply in_map_iff in I.
      destruct I as (e' & <- & I). now apply IH; auto.
    + apply forallb_forall. intros e I. apply in_map_iff in I.
      destruct I as (e' & <- & I). now apply IH; auto.
  - rewrite (sortObject_plain_object o W Pk).
    pose proof W as W'. apply well_formed_object in W'. destruct W' as [D Wv].
    pose proof Pk as Pk'. apply plain_keys_object in Pk'. destruct Pk' as [K Pv].
    rewrite Forall_forall in IH.
    pose (ks := sort (map fst o)).
    pose (f := fun k => sortObject (obj_get o k)).
    change (VObj (map (fun k => (k, sortObject (obj_get o k))) (sort (map fst o))))
      with (VObj (keyed f ks)).
    assert (Dk : NoDup ks)
      by (eapply Permutation_NoDup; [apply Permutation_sym, sort_perm|exact D]).
    assert (Pks : forallb plain_key ks = true).
    { apply forallb_forall. intros k I. apply plain_key_iff. apply K.
      eapply Permutation_in; [apply sort_perm|exact I]. }
    assert (V : forall k, In k ks ->
                          sortObject (f k) = f k /\ well_formed (f k) = true
                          /\ plain_keys (f k) = true).
    { intros k I.
      assert (Ik : In k (map fst o))
        by (eapply Permutation_in; [apply sort_perm|exact I]).
      apply in_map_iff in Ik. destruct Ik as ([k1 v1] & <- & Ik). cbn [fst].
      unfold f, obj_get. rewrite (lookup_NoDup_In _ _ _ D Ik).
      apply (IH _ Ik); cbn [snd]; eauto. }
    assert (Wk : well_formed (VObj (keyed f ks)) = true)
      by (apply well_formed_keyed; [exact Dk|intros k I; now apply V]).
    assert (Pkk : plain_keys (VObj (keyed f ks)) = true)
      by (apply plain_keys_keyed; [exact Pks|intros k I; now apply V]).
    split; [|now split].
    rewrite (sortObject_plain_object _ Wk Pkk). rewrite keyed_keys.
    replace (sort ks) with ks by (unfold ks; now rewrite sort_fixed).
    f_equal. apply map_ext_in. intros k I. f_equal.
    rewrite obj_get_keyed, (proj2 (existsb_In k ks) I). now apply V.
Qed.

(** X16.  Canonical values are fixed points.  On a well-formed value
    without array-index or [__proto__] keys, [sortObject] applied twice
    gives what it gives applied once, so the canonical text of a value
    that is already canonical is the canonical text of the value. *)
Theorem sortObject_idempotent (v : JSValue) :
  well_formed v = true -> plain_keys v = true ->
  sortObject (sortObject v) = sortObject v
  /\ stableStringify (sortObject v) = stableStringify v.
Proof.
  intros W Pk. destruct (sortObject_canonical v W Pk) as (E & _ & _).
  unfold stableStringify. now rewrite E.
Qed.

Lemma sortObject_idempotent_witness :
  sortObject (sortObject Examples.nested) = sortObject Examples.nested
  /\ stableStringify (sortObject Examples.nested) = stableStringify Examples.nested.
Proof.
  apply (sortObject_idempotent Examples.nested).
  - vm_compute. reflexivity.
  - vm_compute. reflexivity.
Defined.

(** X17.  What [stableStringify] writes, [JSON.parse] reads: the text of a
    well-formed value without array-index or [__proto__] keys is accepted
    by the parser, and the value read is the canonical value, with each
    number in its normal form, each date as its text, and what JSON
    cannot hold ([undefined], a number that is not finite) left out or
    [null]. *)
Theorem canonical_text_parses (v : JSValue) (text : jsstring) :
  well_formed v = true -> plain_keys v = true ->
  stableStringify v = Some text ->
  JSON_parse text = Some (parsed_back (sortObject v)).
Proof.
  intros W Pk S. destruct (sortObject_canonical v W Pk) as (_ & Ws & _).
  exact (JSON_parse_stringify (sortObject v) text Ws S).
Qed.

Lemma canonical_text_parses_witness :
  JSON_parse (json_lit "{'a':1.5,'b':[{'y':true,'z':null}]}")
  = Some (parsed_back (sortObject Examples.nested)).
Proof.
  apply (canonical_text_parses Examples.nested).
  - vm_compute. reflexivity.
  - vm_compute. reflexivity.
  - vm_compute. reflexivity.
Defined.

(* ================================================================= *)
(** ** The argument of createInvoice as an object *)

Lemma as_InvoiceInput_literal (input : InvoiceInput) :
  as_InvoiceInput (InvoiceInput_props input) = Some input
  /\ spread (VObj (InvoiceInput_props input)) = InvoiceInput_props input.
Proof.
  destruct input as [a r dd [d|] [n|]]; split; reflexivity.
Qed.

(** The functions on the typed record are the functions on the object
    that holds the declared fields in the order of the declaration. *)
Lemma createInvoice_literal (wallet : option jsstring) (now createdAt : Z)
    (submission : Submission) (input : InvoiceInput) (ledger : Ledger) :
  ObjectInput.createInvoice wallet now createdAt submission (InvoiceInput_props input)
    ledger
  = Some (createInvoice wallet now createdAt submission input ledger).
Proof.
  destruct (as_InvoiceInput_literal input) as [T S].
  unfold ObjectInput.createInvoice, createInvoice, ObjectInput.buildInvoicePayload,
    buildInvoicePayload.
  now rewrite T, S.
Qed.

Lemma Permutation_filter_keys (p : jsstring -> bool) (l1 l2 : list jsstring) :
  Permutation l1 l2 -> Permutation (filter p l1) (filter p l2).
Proof.
  induction 1 as [|x l1 l2 P IH|x y l|l1 l2 l3 P1 IH1 P2 IH2]; cbn [filter].
  - constructor.
  - destruct (p x); [now constructor|exact IH].
  - destruct (p x), (p y); try apply Permutation_refl. apply perm_swap.
  - now apply Permutation_trans with (filter p l2).
Qed.

Lemma sort_filter (p : jsstring -> bool) (l : list jsstring) :
  sort (filter p l) = filter p (sort l).
Proof.
  apply sorted_perm_eq.
  - apply sort_sorted.
  - apply sorted_by_filter, sort_sorted.
  - apply Permutation_trans with (filter p l); [apply sort_perm|].
    apply Permutation_filter_keys, Permutation_sym, sort_perm.
Qed.

Lemma obj_get_tail (k k' : jsstring) (v : JSValue) (r : props JSValue) :
  k <> k' -> obj_get ((k, v) :: r) k' = obj_get r k'.
Proof.
  intros N. unfold obj_get. cbn [lookup].
  now rewrite (proj2 (str_eqb_neq k k') N).
Qed.

(** The keys of the properties that are not [undefined]. *)
Lemma defined_keys (o : props JSValue) :
  NoDup (map fst o) ->
  map fst (filter defined o)
  = filter (fun k => negb (is_undefined (obj_get o k))) (map fst o).
Proof.
  induction o as [|[k v] r IH]; [reflexivity|].
  cbn [map fst]. intros D. inversion D as [|? ? Nin D']; subst.
  cbn [filter]. unfold defined at 1. cbn [snd].
  assert (G : obj_get ((k, v) :: r) k = v).
  { unfold obj_get. cbn [lookup]. now rewrite str_eqb_refl. }
  rewrite G.
  rewrite (filter_ext_in _ (fun k' => negb (is_undefined (obj_get r k')))).
  - destruct (negb (is_undefined v)); cbn [map fst]; now rewrite IH.
  - intros k' I. rewrite obj_get_tail; [reflexivity|]. intros ->. contradiction.
Qed.

Lemma obj_get_defined (o : props JSValue) (k : jsstring) :
  NoDup (map fst o) ->
  is_undefined (obj_get o k) = false ->
  obj_get (filter defined o) k = obj_get o k.
Proof.
  induction o as [|[k0 v] r IH]; [reflexivity|].
  cbn [map fst]. intros D U. inversion D as [|? ? Nin D']; subst.
  cbn [filter]. unfold defined at 1. cbn [snd].
  destruct (str_eqb k0 k) eqn:E.
  - apply str_eqb_eq in E. subst k0.
    assert (G : obj_get ((k, v) :: r) k = v).
    { unfold obj_get. cbn [lookup]. now rewrite str_eqb_refl. }
    rewrite G in *. rewrite U. cbn [negb]. unfold obj_get. cbn [lookup].
    now rewrite str_eqb_refl.
  - apply str_eqb_neq in E. rewrite obj_get_tail in * by exact E.
    destruct (negb (is_undefined v)); [rewrite obj_get_tail by exact E|]; now apply IH.
Qed.

(** A property whose value is [undefined] leaves no trace in the canonical
    text of a flat record. *)
Lemma stableStringify_without_undefined (o : props JSValue) :
  distinct (map fst o) = true ->
  forallb plain_key (map fst o) = true ->
  forallb (fun p => scalar (snd p) || is_undefined (snd p)) o = true ->
  stableStringify (VObj o) = stableStringify (VObj (filter defined o)).
Proof.
  intros Do Po Sc.
  pose proof Do as D. apply distinct_NoDup in D.
  assert (Val : forall k v, In (k, v) o ->
                            sortObject v = v /\ well_formed v = true
                            /\ plain_keys v = true).
  { intros k v I. rewrite forallb_forall in Sc. specialize (Sc _ I). cbn [snd] in Sc.
    destruct v; try discriminate; repeat split. }
  assert (Plain : forall k, In k (map fst o) -> is_index k = false /\ k <> proto_key).
  { intros k I. rewrite forallb_forall in Po. now apply plain_key_iff, Po. }
  assert (Sub : forall p, In p (filter defined o) -> In p o)
    by (intros p I; now apply filter_In in I).
  assert (D' : NoDup (map fst (filter defined o))).
  { rewrite defined_keys by exact D. now apply NoDup_filter. }
  assert (Keys' : forall k, In k (map fst (filter defined o)) -> In k (map fst o)).
  { intros k I. apply in_map_iff in I. destruct I as (p & <- & I).
    apply in_map. now apply Sub. }
  unfold stableStringify.
  rewrite !sortObject_plain_object.
  2:{ apply well_formed_object. split; [exact D'|]. intros k v I.
      now apply (Val k v), Sub. }
  2:{ apply plain_keys_object. split; [intros k I; now apply Plain, Keys'|].
      intros k v I. now apply (Val k v), Sub. }
  2:{ apply well_formed_object. split; [exact D|]. intros k v I. now apply (Val k v). }
  2:{ apply plain_keys_object. split; [exact Plain|]. intros k v I.
      now apply (Val k v). }
  change (map (fun k => (k, sortObject (obj_get ?q k))) ?ks)
    with (keyed (fun k => sortObject (obj_get q k)) ks).
  assert (Fix : forall k, sortObject (obj_get o k) = obj_get o k).
  { intros k. unfold obj_get. destruct (lookup o k) as [v|] eqn:L; [|reflexivity].
    apply lookup_In in L. now apply (Val k v). }
  assert (Pk : forall q : props JSValue, (forall k, In k (map fst q) -> In k (map fst o)) ->
                         forallb plain_key (sort (map fst q)) = true).
  { intros q H. apply forallb_forall. intros k I. apply plain_key_iff, Plain, H.
    eapply Permutation_in; [apply sort_perm|exact I]. }
  rewrite !stringify_keyed by (apply Pk; auto).
  rewrite defined_keys by exact D. rewrite sort_filter.
  set (ks := filter (fun k => negb (is_undefined (obj_get o k))) (sort (map fst o))).
  assert (E1 : filter (fun k => negb (is_undefined (sortObject (obj_get o k))))
                 (sort (map fst o)) = ks).
  { apply filter_ext. intros k. now rewrite Fix. }
  assert (Same : forall k, In k ks -> obj_get (filter defined o) k = obj_get o k).
  { intros k I. apply filter_In in I. destruct I as [_ U].
    apply negb_true_iff in U. now apply obj_get_defined. }
  assert (E2 : filter (fun k => negb (is_undefined
                                        (sortObject (obj_get (filter defined o) k))))
                 ks = ks).
  { apply filter_all. intros k I. rewrite (Same k I), Fix.
    apply filter_In in I. now destruct I as [_ U]. }
  rewrite E1, E2. do 5 f_equal.
  apply keyed_ext. intros k I. now rewrite (Same k I).
Qed.

Lemma as_InvoiceInput_fields (o : props JSValue) (fields : InvoiceInput) :
  as_InvoiceInput o = Some fields ->
  lookup o (lit "amount") = Some (VNum (amount fields))
  /\ lookup o (lit "recipientWallet") = Some (VStr (recipientWallet fields))
  /\ lookup o (lit "dueDate") = Some (VNum (dueDate fields))
  /\ optional_field o (lit "description") = Some (description fields)
  /\ optional_field o (lit "issuerName") = Some (issuerName fields).
Proof.
  unfold as_InvoiceInput.
  destruct (lookup o (lit "amount")) as [[]|]; try discriminate.
  destruct (lookup o (lit "recipientWallet")) as [[]|]; try discriminate.
  destruct (lookup o (lit "dueDate")) as [[]|]; try discriminate.
  destruct (optional_field o (lit "description")); try discriminate.
  destruct (optional_field o (lit "issuerName")); try discriminate.
  intros [= <-]. repeat split.
Qed.

Lemma optional_field_value (o : props JSValue) (k : jsstring) (v : JSValue)
    (s : option jsstring) :
  optional_field o k = Some s -> lookup o k = Some v ->
  scalar v || is_undefined v = true.
Proof.
  unfold optional_field. intros H L. rewrite L in H. now destruct v.
Qed.

(** In an object of type [InvoiceInput] that has the declared fields
    only, every value is a number, a string or [undefined]. *)
Lemma declared_values (o : props JSValue) (fields : InvoiceInput) :
  NoDup (map fst o) ->
  (forall k, In k (map fst o) -> In k declared_fields) ->
  as_InvoiceInput o = Some fields ->
  forallb (fun p => scalar (snd p) || is_undefined (snd p)) o = true.
Proof.
  intros D K T. apply as_InvoiceInput_fields in T.
  destruct T as (A & R & Du & De & Na).
  apply forallb_forall. intros [k v] I. cbn [snd].
  pose proof (lookup_NoDup_In _ _ _ D I) as L.
  assert (Ik : In k declared_fields) by (apply K; now apply (in_map fst) in I).
  destruct Ik as [<-|[<-|[<-|[<-|[<-|[]]]]]].
  - rewrite L in A. now injection A as ->.
  - rewrite L in R. now injection R as ->.
  - rewrite L in Du. now injection Du as ->.
  - exact (optional_field_value _ _ _ _ De L).
  - exact (optional_field_value _ _ _ _ Na L).
Qed.

Lemma NoDup_two_more (l : list jsstring) (a b : jsstring) :
  NoDup l -> ~ In a l -> ~ In b l -> a <> b -> NoDup (l ++ [a; b]).
Proof.
  induction l as [|x l IH]; intros D Na Nb N.
  - cbn. constructor; [intros [E|[]]; congruence|]. constructor; [tauto|constructor].
  - inversion D as [|? ? Nx D']; subst. cbn [app]. constructor.
    + rewrite in_app_iff. intros [I|[E|[E|[]]]]; [contradiction| |];
        [apply Na|apply Nb]; now left.
    + apply IH; auto; intros I; [apply Na|apply Nb]; now right.
Qed.

(** The payload of an argument that has the declared fields only, in
    whatever order: its properties are those of the argument followed by
    the issuer and the creation time, and the identifier recomputed from
    its canonical text is the identifier [createInvoice] computes. *)
Lemma recompute_declared_payload (input : props JSValue) (fields : InvoiceInput)
    (issuerWallet : jsstring) (createdAt : Z) :
  distinct (map fst input) = true ->
  forallb (fun k => existsb (str_eqb k) declared_fields) (map fst input) = true ->
  as_InvoiceInput input = Some fields ->
  exists serialized parsed,
    ObjectInput.buildInvoicePayload input issuerWallet createdAt
    = Ok (serialized, sha256Hex serialized)
    /\ recompute serialized = Ok (parsed, sha256Hex serialized).
Proof.
  intros Di Ki T.
  pose proof Di as D. apply distinct_NoDup in D.
  assert (K : forall k, In k (map fst input) -> In k declared_fields).
  { intros k I. rewrite forallb_forall in Ki. now apply existsb_In, Ki. }
  assert (Hashed : forall k, In k declared_fields -> In k hashed_fields).
  { intros k I. unfold declared_fields, hashed_fields in *. cbn in *. tauto. }
  assert (PlainH : forall k, In k hashed_fields -> plain_key k = true).
  { destruct hashed_fields_plain as [_ P]. rewrite forallb_forall in P. exact P. }
  set (ps := input ++ [(lit "issuerWallet", VStr issuerWallet);
                       (lit "createdAt", VNum (number_of_Z createdAt))]).
  assert (Kps : forall k, In k (map fst ps) -> In k hashed_fields).
  { intros k I. unfold ps in I. rewrite map_app, in_app_iff in I.
    destruct I as [I|I]; [now apply Hashed, K|].
    unfold hashed_fields. cbn in *. tauto. }
  assert (Dps : NoDup (map fst ps)).
  { unfold ps. rewrite map_app. cbn [map fst]. apply NoDup_two_more; [exact D| | |].
    - intros I. apply K in I. unfold declared_fields in I. cbn in I.
      repeat (destruct I as [I|I]; [discriminate I|]). exact I.
    - intros I. apply K in I. unfold declared_fields in I. cbn in I.
      repeat (destruct I as [I|I]; [discriminate I|]). exact I.
    - discriminate. }
  assert (Pps : forallb plain_key (map fst ps) = true).
  { apply forallb_forall. intros k I. now apply PlainH, Kps. }
  assert (Vps : forallb (fun p => scalar (snd p) || is_undefined (snd p)) ps = true).
  { unfold ps. rewrite forallb_app, (declared_values _ _ D K T). reflexivity. }
  assert (Own : spread (VObj input) = input).
  { cbn [spread]. apply own_props_plain. apply forallb_forall. intros k I.
    apply K, Hashed, PlainH in I. unfold plain_key in I.
    now apply andb_true_iff in I. }
  assert (Dd : distinct (map fst (filter defined ps)) = true).
  { apply distinct_NoDup. rewrite defined_keys by exact Dps. now apply NoDup_filter. }
  assert (Kd : forallb (fun k => existsb (str_eqb k) hashed_fields)
                 (map fst (filter defined ps)) = true).
  { apply forallb_forall. intros k I. apply existsb_In, Kps.
    apply in_map_iff in I. destruct I as (p & <- & I). apply in_map.
    now apply filter_In in I. }
  assert (Sd : forallb (fun p => scalar (snd p)) (filter defined ps) = true).
  { apply forallb_forall. intros p I. apply filter_In in I. destruct I as [I U].
    rewrite forallb_forall in Vps. specialize (Vps p I). unfold defined in U.
    destruct (is_undefined (snd p)); [discriminate|]. now rewrite orb_false_r in Vps. }
  destruct hashed_fields_plain as [DK PK].
  destruct (recompute_flat hashed_fields _ DK PK Dd Kd Sd)
    as (text & parsed & fs & Tx & P & F & Tx').
  exists text, parsed. unfold ObjectInput.buildInvoicePayload, recompute.
  rewrite Own. fold ps. rewrite (object_literal_distinct ps)
    by now apply distinct_NoDup.
  rewrite (stableStringify_without_undefined ps) by (auto; now apply distinct_NoDup).
  rewrite Tx, P, F. cbn [bind]. rewrite Tx'. split; reflexivity.
Qed.

(** X19.  The identifier round trip, for every argument that has the
    declared fields only.  Let the argument of [createInvoice] be an object
    of type [InvoiceInput] whose own properties are among amount,
    recipientWallet, dueDate, description and issuerName, written in any
    order, an optional one absent or [undefined].  Then the identifier is
    the hash of the memo text, the identifier recomputed from that text
    over the seven hashed fields is the same identifier, and for a valid
    input and a confirmed submission [verifyInvoice] on the new ledger, by
    the identifier or by the signature, reports the invoice as verified
    under that identifier. *)
Theorem declared_fields_round_trip (input : props JSValue) (fields : InvoiceInput)
    (issuerWallet : jsstring) (createdAt : Z) :
  distinct (map fst input) = true ->
  forallb (fun k => existsb (str_eqb k) declared_fields) (map fst input) = true ->
  as_InvoiceInput input = Some fields ->
  exists serialized parsed,
    ObjectInput.buildInvoicePayload input issuerWallet createdAt
    = Ok (serialized, sha256Hex serialized)
    /\ recompute serialized = Ok (parsed, sha256Hex serialized)
    /\ forall now sig ledger,
         validateInvoiceInput now fields = Ok tt ->
         let ledger' := {| signature := sig; memo := Some serialized |} :: ledger in
         let verdict :=
           Ok {| verified := true;
                 record := Some (invoice_record parsed (sha256Hex serialized) sig) |} in
         ObjectInput.createInvoice (Some issuerWallet) now createdAt (Confirmed sig)
           input ledger
         = Some (Ok (sha256Hex serialized, sig), ledger')
         /\ verifyInvoice ledger' (Some (sha256Hex serialized)) None = verdict
         /\ (sig <> [] ->
             verifyInvoice ledger' None (Some sig) = verdict
             /\ verifyInvoice ledger' (Some (sha256Hex serialized)) (Some sig) = verdict).
Proof.
  intros Di Ki T.
  destruct (recompute_declared_payload input fields issuerWallet createdAt Di Ki T)
    as (serialized & parsed & B & R).
  exists serialized, parsed. split; [exact B|]. split; [exact R|].
  intros now sig ledger V. cbv zeta. split; [|split].
  - unfold ObjectInput.createInvoice. now rewrite T, V, B.
  - apply verify_by_id_newest; [exact R|apply sha256Hex_nonempty].
  - intros N. split; apply verify_by_signature_newest; auto.
Qed.

Lemma declared_fields_round_trip_witness :
  exists serialized,
    ObjectInput.createInvoice (Some Scenario.wallet) Scenario.now Scenario.now
      (Confirmed (lit "sig-invoice")) Arguments.shuffled []
    = Some (Ok (sha256Hex serialized, lit "sig-invoice"),
            [{| signature := lit "sig-invoice"; memo := Some serialized |}])
    /\ exists v,
         verifyInvoice [{| signature := lit "sig-invoice"; memo := Some serialized |}]
           (Some (sha256Hex serialized)) None = Ok v
         /\ verified v = true.
Proof.
  destruct (declared_fields_round_trip Arguments.shuffled Scenario.input Scenario.wallet
              Scenario.now)
    as (serialized & parsed & _ & _ & H).
  - vm_compute. reflexivity.
  - vm_compute. reflexivity.
  - vm_compute. reflexivity.
  - assert (V : validateInvoiceInput Scenario.now Scenario.input = Ok tt)
      by (vm_compute; reflexivity).
    destruct (H Scenario.now (lit "sig-invoice") [] V) as (C & Vi & _).
    exists serialized. split; [exact C|]. eexists. split; [exact Vi|reflexivity].
Defined.

(** C2.  An argument of [createInvoice] may hold a property its type does
    not declare: the invoice of the scenario with one more property,
    [reference], is of type [InvoiceInput] and is valid.  [createInvoice]
    accepts it, hashes the memo text with that property in it and submits
    it; the identifier returned is the hash of the submitted text.  The
    identifier recomputed from that text over the seven hashed fields is
    another one, so [verifyInvoice] with the identifier returned, with or
    without the signature, reports [{verified: false}] and
    [getInvoiceStatus] reports 'not_found'; by the signature alone
    [verifyInvoice] reports the invoice as verified, under the other
    identifier. *)
Theorem C2_undeclared_property_breaks_round_trip :
  option_map (validateInvoiceInput Scenario.now) (as_InvoiceInput Arguments.annotated)
  = Some (Ok tt)
  /\ option_map fst Arguments.created
     = Some (Ok (Arguments.invoice_id, lit "sig-invoice"))
  /\ option_map signature (hd_error Arguments.ledger) = Some (lit "sig-invoice")
  /\ sha256Hex (newest_memo Arguments.ledger) = Arguments.invoice_id
  /\ match Arguments.recomputed with
     | Ok (_, calcId) => Some calcId
     | Throw _ => None
     end = Some Arguments.recomputed_id
  /\ str_eqb Arguments.recomputed_id Arguments.invoice_id = false
  /\ verifyInvoice Arguments.ledger (Some Arguments.invoice_id) None = Ok not_verified
  /\ verifyInvoice Arguments.ledger (Some Arguments.invoice_id) (Some (lit "sig-invoice"))
     = Ok not_verified
  /\ getInvoiceStatus Arguments.ledger Arguments.invoice_id = Ok st_not_found
  /\ match verifyInvoice Arguments.ledger None (Some (lit "sig-invoice")) with
     | Ok v =>
         (verified v,
          option_map (fun r => get_property r (lit "invoiceId")) (record v))
     | Throw _ => (false, None)
     end = (true, Some (Ok (VStr Arguments.recomputed_id))).
Proof.
  repeat apply conj; vm_compute; reflexivity.
Qed.
